(** * Interval algebra and index maps of the ECG denoising pipeline

    A shallow embedding of [ecg_pipeline/index_map.py], of the removal
    helpers and of the integer part of the detectors of
    [ecg_pipeline/steps.py], and of [run] of [ecg_pipeline/pipeline.py].
    Python integers are unbounded, so sample positions are modelled by [Z];
    a Python list is a Rocq [list]; an optional argument
    ([length: int | None]) is an [option]; a function that can raise
    returns an [option], [None] for the exception. *)

From Stdlib Require Import String.
From Stdlib Require Import ZArith List Bool Lia.
From Stdlib Require Import Sorting.Sorted Sorting.Permutation.
Import ListNotations.
Open Scope Z_scope.

(* ================================================================= *)
(** ** Data model *)

(** [Interval = Tuple[int, int]]: a type alias. *)
Abbreviation Interval := (Z * Z)%type.

(** A kept span, [Tuple[int, int, int, int]]:
    [(in_start, in_end, out_start, out_end)]. *)
Abbreviation Span := (Z * Z * Z * Z)%type.

Definition in_start (sp : Span) : Z := let '(si, _, _, _) := sp in si.
Definition in_end (sp : Span) : Z := let '(_, ei, _, _) := sp in ei.
Definition out_start (sp : Span) : Z := let '(_, _, so, _) := sp in so.
Definition out_end (sp : Span) : Z := let '(_, _, _, eo) := sp in eo.

(** The dataclass [IndexMap] with its single field [kept]. *)
Record IndexMap : Type := mkIndexMap { kept : list Span }.

(* ================================================================= *)
(** ** Sorting

    [list.sort(key=...)] is a stable sort.  A stable sort is determined by
    its input, so any stable algorithm is a model of it; insertion from the
    right, placing an element in front of the first element whose key is not
    smaller, is stable. *)

Section StableSort.
Context {A : Type} (leb : A -> A -> bool).

Fixpoint insert_sorted (x : A) (l : list A) : list A :=
  match l with
  | [] => [x]
  | y :: l' => if leb x y then x :: l else y :: insert_sorted x l'
  end.

Definition stable_sort (l : list A) : list A :=
  fold_right insert_sorted [] l.
End StableSort.

(** [key=lambda x: x[0]] *)
Definition leb_start (a b : Interval) : bool := fst a <=? fst b.

(** [key=lambda t: (t[0], t[2])], tuples compared lexicographically. *)
Definition leb_in_out (a b : Span) : bool :=
  (in_start a <? in_start b)
  || ((in_start a =? in_start b) && (out_start a <=? out_start b)).

(* ================================================================= *)
(** ** Interval algebra *)

(** [if s > e: s, e = e, s] *)
Definition orient (iv : Interval) : Interval :=
  let '(s, e) := iv in if e <? s then (e, s) else (s, e).

(** [[(max(0, s), min(length-1, e)) for (s, e) in xs if s < length and e >= 0]] *)
Definition clamp_to (length : Z) (xs : list Interval) : list Interval :=
  map (fun '(s, e) => (Z.max 0 s, Z.min (length - 1) e))
      (filter (fun '(s, e) => (s <? length) && (0 <=? e)) xs).

(** The merge loop shared by [normalize_intervals] (where [merge_gap] is 0,
    the test being [s <= ce + 1]) and [merge_intervals]: [(cs, ce)] is the
    run being grown, and appending to the result list is emitting a run. *)
Fixpoint merge_loop (merge_gap cs ce : Z) (rest : list Interval) : list Interval :=
  match rest with
  | [] => [(cs, ce)]
  | (s, e) :: rest' =>
      if s <=? ce + merge_gap + 1
      then merge_loop merge_gap cs (Z.max ce e) rest'
      else (cs, ce) :: merge_loop merge_gap s e rest'
  end.

(** [int(a)] and [int(b)] are the identity on the integers of an
    [Interval]. *)
Definition normalize_intervals (intervals : list Interval) (length : option Z)
  : list Interval :=
  match intervals with
  | [] => []
  | _ =>
      let xs := stable_sort leb_start (map orient intervals) in
      let xs := match length with
                | Some n => clamp_to n xs
                | None => xs
                end in
      match xs with
      | [] => []
      | (cs, ce) :: rest => merge_loop 0 cs ce rest
      end
  end.

Definition merge_intervals (intervals : list Interval) (merge_gap : Z)
  : list Interval :=
  match stable_sort leb_start intervals with
  | [] => []
  | (cs, ce) :: rest => merge_loop merge_gap cs ce rest
  end.

Definition clamp_intervals (intervals : list Interval) (length : Z) : list Interval :=
  normalize_intervals intervals (Some length).

(** The loop of [invert_to_kept]: [cur] is the first position not yet
    accounted for. *)
Fixpoint kept_loop (length cur : Z) (removed : list Interval) : list Interval :=
  match removed with
  | [] => if cur <? length then [(cur, length - 1)] else []
  | (s, e) :: rest =>
      (if cur <? s then [(cur, s - 1)] else []) ++ kept_loop length (e + 1) rest
  end.

Definition invert_to_kept (removed : list Interval) (length : Z) : list Interval :=
  match normalize_intervals removed (Some length) with
  | [] => [(0, length - 1)]
  | removed' => kept_loop length 0 removed'
  end.

(* ================================================================= *)
(** ** Index maps *)

Fixpoint from_kept_loop (out_pos : Z) (kept_in : list Interval) : list Span :=
  match kept_in with
  | [] => []
  | (s, e) :: rest =>
      let L := e - s + 1 in
      (s, e, out_pos, out_pos + L - 1) :: from_kept_loop (out_pos + L) rest
  end.

Definition from_kept_ranges (kept_in : list Interval) : IndexMap :=
  mkIndexMap (from_kept_loop 0 kept_in).

Definition from_removed_ranges (removed_in : list Interval) (in_len : Z) : IndexMap :=
  from_kept_ranges (invert_to_kept removed_in in_len).

(** [si <= cur <= ei] and [so <= cur <= eo] *)
Definition covers_in (cur : Z) (sp : Span) : bool :=
  (in_start sp <=? cur) && (cur <=? in_end sp).
Definition covers_out (cur : Z) (sp : Span) : bool :=
  (out_start sp <=? cur) && (cur <=? out_end sp).
(** [si2 > cur] *)
Definition starts_after (cur : Z) (sp : Span) : bool := cur <? in_start sp.

(** The [while cur <= e] loop of [project_intervals_input_to_output] for one
    interval; the inner [for ... break / else] is a [find].  Every turn moves
    [cur] forward, so [e + 1 - cur] turns are enough (lemma
    [forward_walk_fuel]). *)
Fixpoint forward_walk (fuel : nat) (spans : list Span) (e cur : Z) : list Interval :=
  match fuel with
  | O => []
  | S fuel' =>
      if cur <=? e then
        match find (covers_in cur) spans with
        | Some (si, ei, so, eo) =>
            let off := cur - si in
            let chunk_end := Z.min e ei in
            let out_s := so + off in
            let out_e := so + (chunk_end - si) in
            (out_s, out_e) :: forward_walk fuel' spans e (chunk_end + 1)
        | None =>
            match find (starts_after cur) spans with
            | None => forward_walk fuel' spans e (e + 1)
            | Some sp2 => forward_walk fuel' spans e (in_start sp2)
            end
        end
      else []
  end.

Definition walk_fuel (s e : Z) : nat := Z.to_nat (e + 1 - s).

Definition project_intervals_input_to_output (m : IndexMap)
  (intervals_in : list Interval) : list Interval :=
  match intervals_in with
  | [] => []
  | _ =>
      let res := flat_map (fun '(s, e) => forward_walk (walk_fuel s e) (kept m) e s)
                          intervals_in in
      normalize_intervals res None
  end.

(** The loop of [project_intervals_output_to_input] for one interval. *)
Fixpoint backward_walk (fuel : nat) (spans : list Span) (e cur : Z) : list Interval :=
  match fuel with
  | O => []
  | S fuel' =>
      if cur <=? e then
        match find (covers_out cur) spans with
        | Some (si, ei, so, eo) =>
            let off := cur - so in
            let chunk_end := Z.min e eo in
            let in_s := si + off in
            let in_e := si + (chunk_end - so) in
            (in_s, in_e) :: backward_walk fuel' spans e (chunk_end + 1)
        | None => backward_walk fuel' spans e (e + 1)
        end
      else []
  end.

Definition project_intervals_output_to_input (m : IndexMap)
  (intervals_out : list Interval) : list Interval :=
  match intervals_out with
  | [] => []
  | _ =>
      let res := flat_map (fun '(s, e) => backward_walk (walk_fuel s e) (kept m) e s)
                          intervals_out in
      normalize_intervals res None
  end.

(** The inner loop of [compose]: the chunks of [to_c] take consecutive
    pieces of the A-side span, [off] counting the samples already used. *)
Fixpoint consume_chunks (si off : Z) (to_c : list Interval) : list Span :=
  match to_c with
  | [] => []
  | (cs, ce) :: rest =>
      let L := ce - cs + 1 in
      let in_s := si + off in
      let in_e := in_s + L - 1 in
      (in_s, in_e, cs, ce) :: consume_chunks si (off + L) rest
  end.

(** [composed_kept] before it is sorted.  The value [mapped] computed in the
    source is never used and has no effect. *)
Definition composed_kept (self other : IndexMap) : list Span :=
  flat_map (fun '(si, ei, so, eo) =>
              let to_c := project_intervals_input_to_output other [(so, eo)] in
              consume_chunks si 0 to_c)
           (kept self).

(** One turn of the final loop of [compose].  The list [merged] is held in
    reverse, so that its head is [merged[-1]]. *)
Definition merge_adjacent (merged_rev : list Span) (seg : Span) : list Span :=
  match merged_rev with
  | [] => [seg]
  | (pi_s, pi_e, po_s, po_e) :: before =>
      let '(ci_s, ci_e, co_s, co_e) := seg in
      if (pi_e + 1 =? ci_s) && (po_e + 1 =? co_s)
      then (pi_s, ci_e, po_s, co_e) :: before
      else seg :: merged_rev
  end.

Definition compose (self other : IndexMap) : IndexMap :=
  let sorted := stable_sort leb_in_out (composed_kept self other) in
  mkIndexMap (rev (fold_left merge_adjacent sorted [])).

(* ================================================================= *)
(** ** Removal of intervals from a signal ([steps.py]) *)

(** [x[start:stop]] on a one-dimensional array: a negative bound counts from
    the end, and both bounds are clipped to [0, len(x)]. *)
Definition slice_bound (n i : Z) : Z :=
  if i <? 0 then Z.max 0 (i + n) else Z.min i n.

Definition py_slice {A : Type} (x : list A) (start stop : Z) : list A :=
  let n := Z.of_nat (length x) in
  let lo := slice_bound n start in
  let hi := slice_bound n stop in
  firstn (Z.to_nat (hi - lo)) (skipn (Z.to_nat lo) x).

Definition remove_intervals_and_build_map {A : Type} (x : list A)
  (removed : list Interval) : list A * IndexMap :=
  let n := Z.of_nat (length x) in
  let removed := normalize_intervals removed (Some n) in
  let kept_iv := invert_to_kept removed n in
  match kept_iv with
  | [] => ([], from_kept_ranges [])
  | _ =>
      let parts := map (fun '(s, e) => py_slice x s (e + 1)) kept_iv in
      let y := match parts with
               | [p] => p
               | _ => concat parts
               end in
      (y, from_kept_ranges kept_iv)
  end.

(* ================================================================= *)
(** ** Properties the specification speaks about *)

(** An interval in the sense of the data model: [start <= end]. *)
Definition proper (iv : Interval) : Prop := fst iv <= snd iv.

(** Canonical form of an interval set: proper intervals, ascending, and the
    next start beyond the previous end plus one (neither overlapping nor
    touching). *)
Definition apart (a b : Interval) : Prop := snd a + 1 < fst b.

Definition normalized (l : list Interval) : Prop :=
  Forall proper l /\ StronglySorted apart l.

(** ... over a bound: every interval inside [0, bound-1]. *)
Definition within (bound : Z) (iv : Interval) : Prop :=
  0 <= fst iv /\ snd iv <= bound - 1.

Definition ascending_starts (l : list Interval) : Prop :=
  StronglySorted (fun a b => fst a < fst b) l.

(** Number of samples of an interval, and of a list of intervals. *)
Definition interval_len (iv : Interval) : Z := snd iv - fst iv + 1.

Definition total_len (l : list Interval) : Z :=
  fold_right (fun iv acc => interval_len iv + acc) 0 l.

(** Membership of a position in an interval set. *)
Definition covered (l : list Interval) (j : Z) : Prop :=
  exists iv, In iv l /\ fst iv <= j <= snd iv.

(** *** The kept-span invariant *)

Definition span_len (sp : Span) : Z := in_end sp - in_start sp + 1.

(** [Lout], the sum of the kept-span lengths. *)
Definition out_len (m : IndexMap) : Z :=
  fold_right (fun sp acc => span_len sp + acc) 0 (kept m).

(** A span is a pair of intervals of the same length. *)
Definition span_wf (sp : Span) : Prop :=
  in_start sp <= in_end sp
  /\ in_end sp - in_start sp = out_end sp - out_start sp.

Definition sorted_both (l : list Span) : Prop :=
  StronglySorted
    (fun a b => in_start a < in_start b /\ out_start a < out_start b) l.

Definition inputs_disjoint (l : list Span) : Prop :=
  StronglySorted (fun a b => in_end a < in_start b) l.

Definition outputs_disjoint (l : list Span) : Prop :=
  StronglySorted (fun a b => out_end a < out_start b) l.

(** The output sides cover [0, Lout-1] and nothing else. *)
Definition outputs_cover (m : IndexMap) : Prop :=
  forall j, 0 <= j <= out_len m - 1 <->
            exists sp, In sp (kept m) /\ out_start sp <= j <= out_end sp.

(** The invariant of an Index Map: every span is a pair of proper intervals
    of equal length; the spans ascend in both spaces at once; their input
    sides do not overlap; their output sides do not overlap and fill
    [0, Lout-1]. *)
Definition kept_span_invariant (m : IndexMap) : Prop :=
  Forall span_wf (kept m)
  /\ sorted_both (kept m)
  /\ inputs_disjoint (kept m)
  /\ outputs_disjoint (kept m)
  /\ outputs_cover m.

(** The same invariant in the form the proofs use: the output sides are laid
    end to end from [pos] on, and every later span starts after the input
    side of an earlier one (lemma [invariant_chain]). *)
Fixpoint chained (pos : Z) (l : list Span) : Prop :=
  match l with
  | [] => True
  | sp :: rest =>
      out_start sp = pos /\ span_wf sp
      /\ Forall (fun sp' => in_end sp < in_start sp') rest
      /\ chained (out_end sp + 1) rest
  end.

(** A decision procedure for [chained], to settle concrete maps. *)
Fixpoint chainedb (pos : Z) (l : list Span) : bool :=
  match l with
  | [] => true
  | sp :: rest =>
      (out_start sp =? pos) && (in_start sp <=? in_end sp)
      && (in_end sp - in_start sp =? out_end sp - out_start sp)
      && forallb (fun sp' => in_end sp <? in_start sp') rest
      && chainedb (out_end sp + 1) rest
  end.

(** Position [i] of the input lies in a kept span. *)
Definition in_kept (m : IndexMap) (i : Z) : Prop :=
  exists sp, In sp (kept m) /\ in_start sp <= i <= in_end sp.

(** Number of kept input positions below [x]. *)
Fixpoint kept_below (l : list Span) (x : Z) : Z :=
  match l with
  | [] => 0
  | sp :: rest => Z.max 0 (Z.min (in_end sp + 1) x - in_start sp) + kept_below rest x
  end.

(** The translated image of the part of [s, e] that survives in one span. *)
Definition image_in_span (s e : Z) (sp : Span) : list Interval :=
  let lo := Z.max s (in_start sp) in
  let hi := Z.min e (in_end sp) in
  if lo <=? hi
  then [(out_start sp + (lo - in_start sp), out_start sp + (hi - in_start sp))]
  else [].

(** The sub-runs of [s, e] that survive, span by span, translated. *)
Definition surviving_images (m : IndexMap) (s e : Z) : list Interval :=
  flat_map (image_in_span s e) (kept m).

(** *** Signals *)

Definition sample_at {A : Type} (x : list A) (i : Z) : option A :=
  if i <? 0 then None else nth_error x (Z.to_nat i).

(** The samples of [x] at the positions of an interval, in order. *)
Definition restrict_to {A : Type} (x : list A) (iv : Interval) : list A :=
  flat_map (fun k => match sample_at x (fst iv + Z.of_nat k) with
                     | Some a => [a]
                     | None => []
                     end)
           (seq 0 (Z.to_nat (interval_len iv))).

(** *** Maps used in the examples *)

(** Removing [(2,4)] from a signal of length 10. *)
Definition map_remove_2_4 : IndexMap := from_removed_ranges [(2, 4)] 10.

(** Removing nothing from a signal of length 10. *)
Definition map_identity_10 : IndexMap := from_removed_ranges [] 10.

(** Removing [(5,9)] from a signal of length 15, and [(0,4)] from one of
    length 10. *)
Definition map_remove_5_9 : IndexMap := from_removed_ranges [(5, 9)] 15.
Definition map_remove_0_4 : IndexMap := from_removed_ranges [(0, 4)] 10.

(** *** The walks with the fuel the projections give them *)

Definition forward_from (spans : list Span) (e cur : Z) : list Interval :=
  forward_walk (walk_fuel cur e) spans e cur.

Definition backward_from (spans : list Span) (e cur : Z) : list Interval :=
  backward_walk (walk_fuel cur e) spans e cur.

(** *** Calls that may fail *)

(** What a call ends in: a value, or an exception. *)
Inductive outcome (A : Type) : Type :=
| returned (a : A)
| raised.
Arguments returned {A} a.
Arguments raised {A}.

(** [project_intervals_output_to_input] as a call.  Its body holds no
    [raise], and what it does (unpacking pairs, integer arithmetic and
    comparison, [list.append], [normalize_intervals]) raises nothing on
    lists of pairs of integers: the call returns on every input. *)
Definition call_project_intervals_output_to_input (m : IndexMap)
  (intervals_out : list Interval) : outcome (list Interval) :=
  returned (project_intervals_output_to_input m intervals_out).

(** An interval that touches a position outside [0, Lout-1]. *)
Definition touches_outside (m : IndexMap) (iv : Interval) : Prop :=
  exists j, fst iv <= j <= snd iv /\ ~ (0 <= j <= out_len m - 1).

(** *** Auxiliary notions of the proofs about [compose] *)

(** Intervals laid end to end, from [a] up to [z]. *)
Fixpoint contiguous (a : Z) (l : list Interval) (z : Z) : Prop :=
  match l with
  | [] => z = a - 1
  | (x, y) :: rest => x = a /\ x <= y /\ contiguous (y + 1) rest z
  end.

(** The final loop of [compose] read from the front: [cur] is [merged[-1]]
    (lemma [merge_adjacent_coalesce]). *)
Fixpoint coalesce (cur : Span) (rest : list Span) : list Span :=
  match rest with
  | [] => [cur]
  | seg :: rest' =>
      let '(pi_s, pi_e, po_s, po_e) := cur in
      let '(ci_s, ci_e, co_s, co_e) := seg in
      if (pi_e + 1 =? ci_s) && (po_e + 1 =? co_s)
      then coalesce (pi_s, ci_e, po_s, co_e) rest'
      else cur :: coalesce seg rest'
  end.

(** Ascending proper intervals that do not overlap (they may touch). *)
Definition ascending_disjoint (l : list Interval) : Prop :=
  Forall proper l /\ StronglySorted (fun a b => snd a < fst b) l.

(** [remove_gaps] of [steps.py]; [x.copy()] is [x]. *)
Definition remove_gaps {A : Type} (x : list A) (gaps : list Interval)
  : list A * IndexMap :=
  match gaps with
  | [] =>
      let kept_iv := if 0 <? Z.of_nat (length x)
                     then [(0, Z.of_nat (length x) - 1)]
                     else [] in
      (x, from_kept_ranges kept_iv)
  | _ => remove_intervals_and_build_map x gaps
  end.

(* ================================================================= *)
(** ** Detectors ([steps.py])

    A detector computes an array in floating point (z-score, sliding
    variance, sliding absolute deviation), tests every entry of it, and
    goes on, in integers, with [hits], the ascending list of the positions
    that pass ([np.where(...)[0].tolist()]).  The test is a parameter:
    [flagged x i] tells whether position [i] of the array computed from [x]
    passes; the number of entries of the array is modelled. *)

Definition hits_of {A : Type} (flagged : list A -> nat -> bool) (x : list A)
  : list Z :=
  map Z.of_nat (filter (flagged x) (seq 0 (length x))).

(** [detect_outliers]; [z_exceeds x i] stands for [z[i] > z_thresh]. *)
Definition detect_outliers {A : Type} (z_exceeds : list A -> nat -> bool)
  (x : list A) (min_len merge_gap : Z) : list Interval :=
  if Z.of_nat (length x) =? 0 then []
  else
    let hits := hits_of z_exceeds x in
    match hits with
    | [] => []
    | _ =>
        let half := Z.max 1 (min_len / 2) in
        let spans := map (fun i => (Z.max 0 (i - half),
                                    Z.min (Z.of_nat (length x) - 1) (i + half)))
                         hits in
        merge_intervals spans merge_gap
    end.

(** The loop of [detect_rdropouts] and [detect_motions] over [hits[1:]]:
    consecutive hits form a run from [start] to [prev]. *)
Fixpoint runs_loop (n half start prev : Z) (rest : list Z) : list Interval :=
  match rest with
  | [] => [(Z.max 0 (start - half), Z.min (n - 1) (prev + half))]
  | i :: rest' =>
      if i =? prev + 1
      then runs_loop n half start i rest'
      else (Z.max 0 (start - half), Z.min (n - 1) (prev + half))
             :: runs_loop n half i i rest'
  end.

(** [np.convolve(a, v, mode="same")] has [max(len(a), len(v))] entries:
    with a kernel of [win] ones, as many as the signal has samples or, for
    a signal shorter than the window, [win]. *)
Definition convolve_same_len (n win : Z) : Z := Z.max n win.

(** The number of entries of [a - b] for one-dimensional arrays of [la] and
    [lb] entries; [None] is the [ValueError] that NumPy raises when the two
    cannot be broadcast. *)
Definition broadcast_len (la lb : Z) : option Z :=
  if la =? lb then Some la
  else if la =? 1 then Some lb
  else if lb =? 1 then Some la
  else None.

(** [np.where(test)[0].tolist()] for a tested array of [m] entries:
    [flagged x i] is the test at position [i], for [i] below [m]. *)
Definition hits_below {A : Type} (flagged : list A -> nat -> bool) (x : list A)
  (m : Z) : list Z :=
  map Z.of_nat (filter (flagged x) (seq 0 (Z.to_nat m))).

(** From [hits] on, [detect_rdropouts] and [detect_motions] are the same
    code: nothing for no hit, else the loop and [merge_intervals]. *)
Definition spans_of_hits (n win merge_gap : Z) (hits : list Z) : list Interval :=
  match hits with
  | [] => []
  | h :: rest => merge_intervals (runs_loop n (win / 2) h h rest) merge_gap
  end.

(** [detect_rdropouts]; [low_variance win x i] stands for
    [var[i] < var_thresh].  [mean], [mean2] and [var] come from
    [np.convolve(..., mode="same")] and have [max(len(x), win)] entries, so
    that on a signal shorter than the window the hits go beyond the
    signal. *)
Definition detect_rdropouts {A : Type} (low_variance : Z -> list A -> nat -> bool)
  (x : list A) (win merge_gap : Z) : list Interval :=
  let n := Z.of_nat (length x) in
  if n =? 0 then []
  else
    let win := Z.max 2 win in
    let var_len := convolve_same_len n win in
    let hits := hits_below (low_variance win) x var_len in
    spans_of_hits n win merge_gap hits.

(** [detect_motions]; [high_deviation win x i] stands for
    [rstd[i] > std_thresh].  [mean] has [max(len(x), win)] entries and
    [x - mean] raises [ValueError] when [x] has more than one sample and
    fewer than [win]: the result is [None] then. *)
Definition detect_motions {A : Type} (high_deviation : Z -> list A -> nat -> bool)
  (x : list A) (win merge_gap : Z) : option (list Interval) :=
  let n := Z.of_nat (length x) in
  if n =? 0 then Some []
  else
    let win := Z.max 2 win in
    let mean_len := convolve_same_len n win in
    match broadcast_len n mean_len with
    | None => None
    | Some dev_len =>
        let rstd_len := convolve_same_len dev_len win in
        let hits := hits_below (high_deviation win) x rstd_len in
        Some (spans_of_hits n win merge_gap hits)
    end.

(* ================================================================= *)
(** ** The pipeline ([pipeline.py], [config.py])

    Of the configuration, the fields that the integer part of the pipeline
    reads; the thresholds and the filter's parameters are floating-point
    numbers and live in the tests and in the filter. *)

Record OutliersParams : Type :=
  { outliers_enabled : bool; outliers_min_len : Z; outliers_merge_gap : Z }.

Record RDropoutsParams : Type :=
  { rdropouts_enabled : bool; rdropouts_win : Z; rdropouts_merge_gap : Z }.

Record MotionsParams : Type :=
  { motions_enabled : bool; motions_win : Z; motions_merge_gap : Z }.

Record PipelineConfig : Type :=
  { filter_enabled : bool;
    cfg_outliers : OutliersParams;
    cfg_rdropouts : RDropoutsParams;
    cfg_motions : MotionsParams }.

Record PipelineResult (A : Type) : Type :=
  { ecg_orig : list A;
    ecg_start : list A;
    ecg_final : list A;
    map_gaps : IndexMap;
    map_outliers : IndexMap;
    map_rdropouts : IndexMap;
    map_motions : IndexMap;
    gaps_indices : list Interval;
    outliers_indices_start : list Interval;
    rdropouts_indices_nout : list Interval;
    motions_indices_nrd : list Interval;
    projected_to_orig : list (string * list Interval);
    projected_to_start : list (string * list Interval) }.
Arguments ecg_orig {A} _.
Arguments ecg_start {A} _.
Arguments ecg_final {A} _.
Arguments map_gaps {A} _.
Arguments map_outliers {A} _.
Arguments map_rdropouts {A} _.
Arguments map_motions {A} _.
Arguments gaps_indices {A} _.
Arguments outliers_indices_start {A} _.
Arguments rdropouts_indices_nout {A} _.
Arguments motions_indices_nrd {A} _.
Arguments projected_to_orig {A} _.
Arguments projected_to_start {A} _.

(** A dictionary with string keys, in insertion order; [d[k]]. *)
Fixpoint dict_get {V : Type} (d : list (string * V)) (k : string) : option V :=
  match d with
  | [] => None
  | (k', v) :: d' => if String.eqb k k' then Some v else dict_get d' k
  end.

Section Pipeline.
Context {A : Type}.

(** [filter_ecg] with the parameters of the configuration, and the three
    floating-point tests. *)
Variable filter_ecg : list A -> list A.
Variable z_exceeds : list A -> nat -> bool.
Variable low_variance : Z -> list A -> nat -> bool.
Variable high_deviation : Z -> list A -> nat -> bool.

(** [ECGDenoisingPipeline.run].  The conversion of the samples to [float],
    the copies and the release of buffers under [memory_lean] change no
    value.  [None] is the [ValueError] of [detect_motions], which nothing
    in [run] catches. *)
Definition run (cfg : PipelineConfig) (ecg_orig : list A)
  (gaps_indices : list Interval) : option (PipelineResult A) :=
  let x_orig := ecg_orig in
  let n_orig := Z.of_nat (length x_orig) in
  let gaps := remove_gaps x_orig (normalize_intervals gaps_indices (Some n_orig)) in
  let x_nogaps := fst gaps in
  let map_gaps := snd gaps in
  let x_start := if filter_enabled cfg then filter_ecg x_nogaps else x_nogaps in
  let ecg_start := x_start in
  let oparams := cfg_outliers cfg in
  let outliers_idx :=
    if outliers_enabled oparams
    then normalize_intervals
           (detect_outliers z_exceeds x_start (outliers_min_len oparams)
                            (outliers_merge_gap oparams))
           (Some (Z.of_nat (length x_start)))
    else [] in
  let no_outl := remove_intervals_and_build_map x_start outliers_idx in
  let x_no_outl := fst no_outl in
  let map_outliers := snd no_outl in
  let rparams := cfg_rdropouts cfg in
  let rdrop_idx :=
    if rdropouts_enabled rparams
    then normalize_intervals
           (detect_rdropouts low_variance x_no_outl (rdropouts_win rparams)
                             (rdropouts_merge_gap rparams))
           (Some (Z.of_nat (length x_no_outl)))
    else [] in
  let no_rdrop := remove_intervals_and_build_map x_no_outl rdrop_idx in
  let x_no_rdrop := fst no_rdrop in
  let map_rdrop := snd no_rdrop in
  let mparams := cfg_motions cfg in
  match (if motions_enabled mparams
         then match detect_motions high_deviation x_no_rdrop
                      (motions_win mparams) (motions_merge_gap mparams) with
              | Some detected =>
                  Some (normalize_intervals detected
                          (Some (Z.of_nat (length x_no_rdrop))))
              | None => None
              end
         else Some []) with
  | None => None
  | Some motion_idx =>
  let final := remove_intervals_and_build_map x_no_rdrop motion_idx in
  let x_final := fst final in
  let map_motions := snd final in
  let outl_on_orig := project_intervals_output_to_input map_gaps outliers_idx in
  let rdrop_on_start := project_intervals_output_to_input map_outliers rdrop_idx in
  let rdrop_on_orig := project_intervals_output_to_input map_gaps rdrop_on_start in
  let mot_on_nout := project_intervals_output_to_input map_rdrop motion_idx in
  let mot_on_start := project_intervals_output_to_input map_outliers mot_on_nout in
  let mot_on_orig := project_intervals_output_to_input map_gaps mot_on_start in
  let projected_to_orig :=
    [("gaps"%string, normalize_intervals gaps_indices (Some n_orig));
     ("outliers"%string, outl_on_orig);
     ("rdropouts"%string, rdrop_on_orig);
     ("motions"%string, mot_on_orig)] in
  let projected_to_start :=
    [("gaps"%string, []);
     ("outliers"%string, outliers_idx);
     ("rdropouts"%string, rdrop_on_start);
     ("motions"%string, mot_on_start)] in
  Some
  {| ecg_orig := x_orig;
     ecg_start := ecg_start;
     ecg_final := x_final;
     map_gaps := map_gaps;
     map_outliers := map_outliers;
     map_rdropouts := map_rdrop;
     map_motions := map_motions;
     gaps_indices := normalize_intervals gaps_indices (Some n_orig);
     outliers_indices_start := outliers_idx;
     rdropouts_indices_nout := rdrop_idx;
     motions_indices_nrd := motion_idx;
     projected_to_orig := projected_to_orig;
     projected_to_start := projected_to_start |}
  end.

End Pipeline.

(** [ECGDenoisingPipeline._compose_back_to_start], on the maps that a [run]
    that returned has left in the instance, which are those of its
    result. *)
Definition compose_back_to_start {A : Type} (res : PipelineResult A) : IndexMap :=
  compose (compose (map_outliers res) (map_rdropouts res)) (map_motions res).

(** *** Further notions *)

(** Position [j] lies between the two ends of an interval of [l], whichever
    way round the interval is written. *)
Definition spanned (l : list Interval) (j : Z) : Prop :=
  exists iv, In iv l /\ Z.min (fst iv) (snd iv) <= j <= Z.max (fst iv) (snd iv).

(** Every span has input and output sides of the same length (nothing is
    asked of their order). *)
Definition lengths_agree (m : IndexMap) : Prop :=
  Forall (fun sp => in_end sp - in_start sp = out_end sp - out_start sp) (kept m).

(** Consecutive kept spans leave at least one removed position between
    their input sides. *)
Definition inputs_apart (m : IndexMap) : Prop :=
  StronglySorted (fun a b => in_end a + 1 < in_start b) (kept m).

(** The translated preimage of the part of [s, e] that lies in the output
    side of one span. *)
Definition preimage_in_span (s e : Z) (sp : Span) : list Interval :=
  let lo := Z.max s (out_start sp) in
  let hi := Z.min e (out_end sp) in
  if lo <=? hi
  then [(in_start sp + (lo - out_start sp), in_start sp + (hi - out_start sp))]
  else [].

(** *** A run used in the examples *)

(** Twenty samples with a spike at position 7 and a flat stretch at 12 and
    13; tests that find them; a configuration without filter. *)
Definition example_signal : list Z :=
  [1; 2; 3; 4; 5; 6; 7; 200; 9; 10; 11; 12; 0; 0; 15; 16; 17; 18; 19; 20].

Definition above_100 (x : list Z) (i : nat) : bool :=
  match nth_error x i with
  | Some v => 100 <? v
  | None => false
  end.

Definition is_zero (win : Z) (x : list Z) (i : nat) : bool :=
  match nth_error x i with
  | Some v => v =? 0
  | None => false
  end.

Definition example_config : PipelineConfig :=
  {| filter_enabled := false;
     cfg_outliers := {| outliers_enabled := true; outliers_min_len := 2;
                        outliers_merge_gap := 0 |};
     cfg_rdropouts := {| rdropouts_enabled := true; rdropouts_win := 2;
                         rdropouts_merge_gap := 0 |};
     cfg_motions := {| motions_enabled := false; motions_win := 2;
                       motions_merge_gap := 0 |} |}.

Definition example_run : option (PipelineResult Z) :=
  run (fun y => y) above_100 is_zero is_zero example_config example_signal
      [(0, 1)].

(** The configuration with the detection of motions switched off. *)
Definition without_motions (cfg : PipelineConfig) : PipelineConfig :=
  {| filter_enabled := filter_enabled cfg;
     cfg_outliers := cfg_outliers cfg;
     cfg_rdropouts := cfg_rdropouts cfg;
     cfg_motions := {| motions_enabled := false;
                       motions_win := motions_win (cfg_motions cfg);
                       motions_merge_gap := motions_merge_gap (cfg_motions cfg) |} |}.

(* ================================================================= *)
(** * Proofs *)

(** ** Lists in order *)

Lemma strongly_sorted_weaken {A : Type} (R Q : A -> A -> Prop) (l : list A) :
  (forall a b, R a b -> Q a b) -> StronglySorted R l -> StronglySorted Q l.
Proof.
  intros HRQ H. induction H as [|a l Hl IH Ha]; constructor; auto.
  eapply Forall_impl; [ | exact Ha]. auto.
Qed.

Lemma strongly_sorted_app {A : Type} (R : A -> A -> Prop) (l1 l2 : list A) :
  StronglySorted R l1 -> StronglySorted R l2 ->
  (forall a b, In a l1 -> In b l2 -> R a b) ->
  StronglySorted R (l1 ++ l2).
Proof.
  intros H1 H2 H12. induction H1 as [|a l Hl IH Ha]; simpl; auto.
  constructor.
  - apply IH. intros x y Hx Hy. apply H12; simpl; auto.
  - apply Forall_app. split; auto.
    apply Forall_forall. intros y Hy. apply H12; simpl; auto.
Qed.

(** Two members of a list in strict order are equal or related. *)
Lemma strongly_sorted_in {A : Type} (R : A -> A -> Prop) (l : list A) (a b : A) :
  StronglySorted R l -> In a l -> In b l -> a = b \/ R a b \/ R b a.
Proof.
  intros H. induction H as [|x l Hl IH Hx]; simpl; [tauto|].
  rewrite Forall_forall in Hx.
  intros [Ha|Ha] [Hb|Hb]; subst; auto.
Qed.

Section StableSortFacts.
Context {A : Type} (leb : A -> A -> bool).

Lemma insert_sorted_in (x y : A) (l : list A) :
  In y (insert_sorted leb x l) <-> y = x \/ In y l.
Proof.
  induction l as [|z l IH]; simpl.
  - intuition congruence.
  - destruct (leb x z); simpl; rewrite ?IH; intuition congruence.
Qed.

Lemma stable_sort_in (y : A) (l : list A) :
  In y (stable_sort leb l) <-> In y l.
Proof.
  induction l as [|x l IH]; simpl; [tauto|].
  rewrite insert_sorted_in, IH. intuition congruence.
Qed.

Lemma stable_sort_forall (P : A -> Prop) (l : list A) :
  Forall P l -> Forall P (stable_sort leb l).
Proof.
  rewrite !Forall_forall. intros H y Hy. apply H, stable_sort_in, Hy.
Qed.

(** A list that is already in order is left as it is. *)
Lemma stable_sort_sorted (l : list A) :
  StronglySorted (fun a b => leb a b = true) l -> stable_sort leb l = l.
Proof.
  intros H. induction H as [|x l Hl IH Hx]; simpl; auto.
  rewrite IH. destruct l as [|y l']; simpl; auto.
  inversion Hx as [|? ? Hxy _]; subst. now rewrite Hxy.
Qed.

Hypothesis leb_total : forall a b, leb a b = true \/ leb b a = true.
Hypothesis leb_trans :
  forall a b c, leb a b = true -> leb b c = true -> leb a c = true.

Lemma insert_sorted_ordered (x : A) (l : list A) :
  StronglySorted (fun a b => leb a b = true) l ->
  StronglySorted (fun a b => leb a b = true) (insert_sorted leb x l).
Proof.
  intros H. induction H as [|y l Hl IH Hy]; simpl.
  - repeat constructor.
  - destruct (leb x y) eqn:Hxy.
    + constructor; [constructor; auto|].
      constructor; auto.
      eapply Forall_impl; [ | exact Hy]. intros z Hz. eauto.
    + constructor; auto.
      apply Forall_forall. intros z Hz.
      apply insert_sorted_in in Hz. destruct Hz as [->|Hz].
      * destruct (leb_total x y); congruence.
      * rewrite Forall_forall in Hy. auto.
Qed.

Lemma stable_sort_ordered (l : list A) :
  StronglySorted (fun a b => leb a b = true) (stable_sort leb l).
Proof.
  induction l as [|x l IH]; simpl; [constructor|].
  now apply insert_sorted_ordered.
Qed.
End StableSortFacts.

Lemma sort_by_start_ordered (l : list Interval) :
  StronglySorted (fun a b => fst a <= fst b) (stable_sort leb_start l).
Proof.
  eapply strongly_sorted_weaken;
    [ | apply (stable_sort_ordered leb_start)].
  - intros a b H. unfold leb_start in H. lia.
  - intros a b. unfold leb_start. lia.
  - intros a b c. unfold leb_start. lia.
Qed.

Lemma sort_by_start_id (l : list Interval) :
  StronglySorted (fun a b => fst a <= fst b) l -> stable_sort leb_start l = l.
Proof.
  intros H. apply stable_sort_sorted.
  eapply strongly_sorted_weaken; [ | exact H].
  intros a b Hab. cbv beta in Hab. unfold leb_start. lia.
Qed.

(** ** The merge loop *)

Lemma merge_loop_lower (g lo : Z) (rest : list Interval) :
  forall cs ce, lo <= cs -> Forall (fun iv => lo <= fst iv) rest ->
  Forall (fun iv => lo <= fst iv) (merge_loop g cs ce rest).
Proof.
  induction rest as [|[s e] rest IH]; intros cs ce Hcs Hrest; simpl.
  - constructor; auto.
  - inversion Hrest as [|? ? Hs Hrest']; subst. simpl in Hs.
    destruct (s <=? ce + g + 1); [apply IH; auto|].
    constructor; [exact Hcs|apply IH; auto].
Qed.

Lemma merge_loop_upper (g hi : Z) (rest : list Interval) :
  forall cs ce, ce <= hi -> Forall (fun iv => snd iv <= hi) rest ->
  Forall (fun iv => snd iv <= hi) (merge_loop g cs ce rest).
Proof.
  induction rest as [|[s e] rest IH]; intros cs ce Hce Hrest; simpl.
  - constructor; auto.
  - inversion Hrest as [|? ? He Hrest']; subst. simpl in He.
    destruct (s <=? ce + g + 1); [apply IH; auto; lia|].
    constructor; [exact Hce|apply IH; auto].
Qed.

Lemma merge_loop_proper (g : Z) (rest : list Interval) :
  forall cs ce, cs <= ce -> Forall proper rest ->
  Forall proper (merge_loop g cs ce rest).
Proof.
  induction rest as [|[s e] rest IH]; intros cs ce Hc Hrest; simpl.
  - constructor; auto.
  - inversion Hrest as [|? ? Hse Hrest']; subst. unfold proper in Hse. simpl in Hse.
    destruct (s <=? ce + g + 1); [apply IH; auto; lia|].
    constructor; [exact Hc|apply IH; auto].
Qed.

(** Consecutive runs of the result are more than [merge_gap + 1] apart. *)
Lemma merge_loop_apart (g : Z) (rest : list Interval) :
  forall cs ce,
  StronglySorted (fun a b => fst a <= fst b) rest ->
  StronglySorted (fun a b => snd a + g + 1 < fst b) (merge_loop g cs ce rest).
Proof.
  induction rest as [|[s e] rest IH]; intros cs ce Hs; simpl.
  - repeat constructor.
  - inversion Hs as [|? ? Hs' Hhd]; subst.
    destruct (s <=? ce + g + 1) eqn:Hm; [apply IH; auto|].
    constructor; [apply IH; auto|].
    apply Z.leb_gt in Hm.
    eapply Forall_impl; [ | apply (merge_loop_lower g s rest s e); [lia|exact Hhd]].
    simpl. intros iv Hiv. lia.
Qed.

(** Runs that are already far enough apart are left alone. *)
Lemma merge_loop_id (g : Z) (rest : list Interval) :
  forall cs ce,
  StronglySorted (fun a b => snd a + g + 1 < fst b) ((cs, ce) :: rest) ->
  merge_loop g cs ce rest = (cs, ce) :: rest.
Proof.
  induction rest as [|[s e] rest IH]; intros cs ce H; simpl; auto.
  inversion H as [|? ? Hrest Hhd]; subst.
  inversion Hhd as [|? ? Hse _]; subst. simpl in Hse.
  destruct (s <=? ce + g + 1) eqn:Hm; [apply Z.leb_le in Hm; lia|].
  f_equal. apply IH. exact Hrest.
Qed.

(** ** Normalization *)

Lemma strongly_sorted_filter {A : Type} (R : A -> A -> Prop) (f : A -> bool)
  (l : list A) :
  StronglySorted R l -> StronglySorted R (filter f l).
Proof.
  intros H. induction H as [|a l Hl IH Ha]; simpl; [constructor|].
  destruct (f a); auto. constructor; auto.
  rewrite Forall_forall in *. intros y Hy.
  apply filter_In in Hy. apply Ha. tauto.
Qed.

Lemma strongly_sorted_map {A B : Type} (R : A -> A -> Prop) (Q : B -> B -> Prop)
  (f : A -> B) (l : list A) :
  (forall a b, R a b -> Q (f a) (f b)) ->
  StronglySorted R l -> StronglySorted Q (map f l).
Proof.
  intros HRQ H. induction H as [|a l Hl IH Ha]; simpl; constructor; auto.
  rewrite Forall_forall in *. intros y Hy.
  apply in_map_iff in Hy. destruct Hy as (x & <- & Hx). auto.
Qed.

Lemma orient_proper (iv : Interval) : proper (orient iv).
Proof.
  destruct iv as [s e]. unfold orient, proper.
  destruct (e <? s) eqn:H; simpl; lia.
Qed.

Lemma orient_id (iv : Interval) : proper iv -> orient iv = iv.
Proof.
  destruct iv as [s e]. unfold orient, proper. simpl. intros H.
  destruct (e <? s) eqn:Hlt; auto. lia.
Qed.

Lemma map_orient_id (l : list Interval) : Forall proper l -> map orient l = l.
Proof.
  intros H. induction H as [|iv l Hiv _ IH]; simpl; auto.
  now rewrite orient_id, IH.
Qed.

Lemma clamp_to_sorted (L : Z) (xs : list Interval) :
  StronglySorted (fun a b => fst a <= fst b) xs ->
  StronglySorted (fun a b => fst a <= fst b) (clamp_to L xs).
Proof.
  intros H. unfold clamp_to.
  eapply strongly_sorted_map; [ | apply strongly_sorted_filter; exact H].
  intros [s e] [s' e']. simpl. lia.
Qed.

Lemma clamp_to_within (L : Z) (xs : list Interval) :
  Forall (within L) (clamp_to L xs).
Proof.
  unfold clamp_to. apply Forall_forall. intros iv Hiv.
  apply in_map_iff in Hiv. destruct Hiv as ([s e] & <- & _).
  unfold within. simpl. lia.
Qed.

Lemma clamp_to_proper (L : Z) (xs : list Interval) :
  1 <= L -> Forall proper xs -> Forall proper (clamp_to L xs).
Proof.
  intros HL H. unfold clamp_to. apply Forall_forall. intros iv Hiv.
  apply in_map_iff in Hiv. destruct Hiv as ([s e] & <- & Hin).
  apply filter_In in Hin. destruct Hin as [Hin Hf].
  rewrite Forall_forall in H. specialize (H _ Hin).
  unfold proper in *. simpl in *. lia.
Qed.

Lemma clamp_to_id (L : Z) (xs : list Interval) :
  Forall proper xs -> Forall (within L) xs -> clamp_to L xs = xs.
Proof.
  unfold clamp_to. intros Hp. induction Hp as [|[s e] xs Hse _ IH]; auto.
  intros Hw. inversion Hw as [|? ? Hb Hw']; subst.
  unfold proper, within in Hse, Hb. cbn [fst snd] in Hse, Hb.
  assert (H1 : (s <? L) = true) by (apply Z.ltb_lt; lia).
  assert (H2 : (0 <=? e) = true) by (apply Z.leb_le; lia).
  cbn [filter]. rewrite H1, H2. cbn [andb map].
  rewrite IH by assumption.
  rewrite Z.max_r, Z.min_r by lia. reflexivity.
Qed.

(** The two shapes of [normalize_intervals]; the test for an empty input is
    subsumed, an empty list being sorted and clamped to the empty list. *)
Lemma normalize_bounded_eq (l : list Interval) (L : Z) :
  normalize_intervals l (Some L) =
  match clamp_to L (stable_sort leb_start (map orient l)) with
  | [] => []
  | (cs, ce) :: rest => merge_loop 0 cs ce rest
  end.
Proof. destruct l; reflexivity. Qed.

Lemma normalize_unbounded_eq (l : list Interval) :
  normalize_intervals l None =
  match stable_sort leb_start (map orient l) with
  | [] => []
  | (cs, ce) :: rest => merge_loop 0 cs ce rest
  end.
Proof. destruct l; reflexivity. Qed.

Lemma normalized_ascending (l : list Interval) :
  normalized l -> ascending_starts l.
Proof.
  intros [Hp Hs]. unfold ascending_starts.
  induction Hs as [|a l Hl IH Ha]; constructor.
  - apply IH. now inversion Hp.
  - inversion Hp as [|? ? Hpa _]; subst.
    eapply Forall_impl; [ | exact Ha].
    unfold apart, proper in *. intros b Hb. lia.
Qed.

Lemma normalized_sorted_starts (l : list Interval) :
  normalized l -> StronglySorted (fun a b => fst a <= fst b) l.
Proof.
  intros H. apply normalized_ascending in H.
  eapply strongly_sorted_weaken; [ | exact H]. simpl. intros; lia.
Qed.

Lemma merge_loop_normalized (cs ce : Z) (rest : list Interval) :
  cs <= ce -> Forall proper rest ->
  StronglySorted (fun a b => fst a <= fst b) rest ->
  normalized (merge_loop 0 cs ce rest).
Proof.
  intros Hc Hp Hs. split.
  - now apply merge_loop_proper.
  - eapply strongly_sorted_weaken; [ | apply merge_loop_apart; exact Hs].
    unfold apart. simpl. intros; lia.
Qed.

(** On a bound of at least one sample, the result of [normalize_intervals]
    is in canonical form and inside the bound. *)
Lemma normalize_bounded_spec (l : list Interval) (L : Z) :
  1 <= L ->
  normalized (normalize_intervals l (Some L))
  /\ Forall (within L) (normalize_intervals l (Some L)).
Proof.
  intros HL. rewrite normalize_bounded_eq.
  pose proof (clamp_to_sorted L _ (sort_by_start_ordered (map orient l))) as Hs.
  pose proof (clamp_to_within L (stable_sort leb_start (map orient l))) as Hw.
  assert (Hp : Forall proper (clamp_to L (stable_sort leb_start (map orient l)))).
  { apply clamp_to_proper; auto. apply stable_sort_forall.
    apply Forall_forall. intros iv Hiv. apply in_map_iff in Hiv.
    destruct Hiv as (x & <- & _). apply orient_proper. }
  destruct (clamp_to L (stable_sort leb_start (map orient l))) as [|[cs ce] rest].
  - repeat constructor.
  - inversion Hs as [|? ? Hs' Hhd]; subst.
    inversion Hw as [|? ? Hwc Hw']; subst.
    inversion Hp as [|? ? Hpc Hp']; subst.
    unfold within, proper in Hwc, Hpc. simpl in Hwc, Hpc.
    split.
    + apply merge_loop_normalized; auto.
    + pose proof (merge_loop_lower 0 0 rest cs ce) as Hlo.
      pose proof (merge_loop_upper 0 (L - 1) rest cs ce) as Hhi.
      assert (H1 : Forall (fun iv => 0 <= fst iv) (merge_loop 0 cs ce rest)).
      { apply Hlo; [lia|]. eapply Forall_impl; [ | exact Hw']. unfold within. tauto. }
      assert (H2 : Forall (fun iv => snd iv <= L - 1) (merge_loop 0 cs ce rest)).
      { apply Hhi; [lia|]. eapply Forall_impl; [ | exact Hw']. unfold within. tauto. }
      rewrite Forall_forall in *. intros iv Hiv. split; auto.
Qed.

(** A set already in canonical form inside the bound is a fixed point. *)
Lemma normalize_bounded_id (l : list Interval) (L : Z) :
  normalized l -> Forall (within L) l -> normalize_intervals l (Some L) = l.
Proof.
  intros Hn Hw. rewrite normalize_bounded_eq.
  rewrite map_orient_id by apply Hn.
  rewrite sort_by_start_id by now apply normalized_sorted_starts.
  rewrite clamp_to_id by (auto; apply Hn).
  destruct l as [|[cs ce] rest]; auto.
  apply merge_loop_id.
  eapply strongly_sorted_weaken; [ | apply Hn]. unfold apart. simpl. intros; lia.
Qed.

Lemma normalize_unbounded_id (l : list Interval) :
  normalized l -> normalize_intervals l None = l.
Proof.
  intros Hn. rewrite normalize_unbounded_eq.
  rewrite map_orient_id by apply Hn.
  rewrite sort_by_start_id by now apply normalized_sorted_starts.
  destruct l as [|[cs ce] rest]; auto.
  apply merge_loop_id.
  eapply strongly_sorted_weaken; [ | apply Hn]. unfold apart. simpl. intros; lia.
Qed.

(** C8 (code at the failing input).  On the bound 0 the filter
    [s < length and e >= 0] keeps an interval that starts below 0 and ends
    at or after 0, and the clamp turns it into [(0, -1)]: the result is not
    a list of intervals with start <= end inside [0, length-1].  The
    property holds on every bound of at least 1
    ([normalize_bounded_spec]). *)
Theorem normalize_intervals_bound_zero :
  normalize_intervals [(-1, 0)] (Some 0) = [(0, -1)]
  /\ ~ Forall (fun iv => proper iv /\ within 0 iv)
              (normalize_intervals [(-1, 0)] (Some 0)).
Proof.
  split; [reflexivity|].
  intros H. inversion H as [|? ? [Hp _] _]; subst.
  unfold proper in Hp. simpl in Hp. lia.
Qed.

(** ** Merging with a gap tolerance *)

Lemma insert_sorted_permutation {T : Type} (leb : T -> T -> bool) (x : T)
  (l : list T) :
  Permutation (x :: l) (insert_sorted leb x l).
Proof.
  induction l as [|y l IH]; cbn [insert_sorted]; [reflexivity|].
  destruct (leb x y); [reflexivity|].
  rewrite perm_swap. now apply perm_skip.
Qed.

Lemma stable_sort_permutation {T : Type} (leb : T -> T -> bool) (l : list T) :
  Permutation l (stable_sort leb l).
Proof.
  induction l as [|x l IH]; [reflexivity|].
  change (stable_sort leb (x :: l)) with (insert_sorted leb x (stable_sort leb l)).
  rewrite <- insert_sorted_permutation. now apply perm_skip.
Qed.

(** The sort is stable: the intervals of one start keep their order. *)
Lemma insert_sorted_same_start (s : Z) (x : Interval) (l : list Interval) :
  filter (fun iv => fst iv =? s) (insert_sorted leb_start x l)
  = filter (fun iv => fst iv =? s) (x :: l).
Proof.
  induction l as [|y l IH]; cbn [insert_sorted]; [reflexivity|].
  unfold leb_start at 1. destruct (fst x <=? fst y) eqn:Hle; [reflexivity|].
  apply Z.leb_gt in Hle.
  cbn [filter] in IH |- *. rewrite IH.
  destruct (Z.eqb_spec (fst x) s) as [Hx|Hx];
    destruct (Z.eqb_spec (fst y) s) as [Hy|Hy]; try reflexivity.
  lia.
Qed.

Lemma stable_sort_same_start (s : Z) (l : list Interval) :
  filter (fun iv => fst iv =? s) (stable_sort leb_start l)
  = filter (fun iv => fst iv =? s) l.
Proof.
  induction l as [|x l IH]; [reflexivity|].
  change (stable_sort leb_start (x :: l))
    with (insert_sorted leb_start x (stable_sort leb_start l)).
  rewrite insert_sorted_same_start. cbn [filter]. now rewrite IH.
Qed.

Lemma merge_intervals_sorted (l : list Interval) (g : Z) :
  merge_intervals (stable_sort leb_start l) g = merge_intervals l g.
Proof.
  unfold merge_intervals.
  now rewrite (sort_by_start_id _ (sort_by_start_ordered l)).
Qed.

Lemma merge_intervals_step (s1 e1 s2 e2 : Z) (rest : list Interval) (g : Z) :
  StronglySorted (fun a b => fst a <= fst b) ((s1, e1) :: (s2, e2) :: rest) ->
  merge_intervals ((s1, e1) :: (s2, e2) :: rest) g =
  if s2 <=? e1 + g + 1
  then merge_intervals ((s1, Z.max e1 e2) :: rest) g
  else (s1, e1) :: merge_intervals ((s2, e2) :: rest) g.
Proof.
  intros Hs. inversion Hs as [|? ? Hs2 Hall]; subst.
  inversion Hs2 as [|? ? Hs3 Hall2]; subst.
  inversion Hall as [|? ? Hle Hall1]; subst.
  assert (Hs1 : StronglySorted (fun a b => fst a <= fst b)
                               ((s1, Z.max e1 e2) :: rest))
    by (constructor; assumption).
  unfold merge_intervals.
  rewrite (sort_by_start_id _ Hs), (sort_by_start_id _ Hs1),
    (sort_by_start_id _ Hs2).
  cbn [merge_loop]. destruct (s2 <=? e1 + g + 1); reflexivity.
Qed.

(** C9.  The rule of the pass, on lists of any length.  In a list in
    ascending order of start the second interval is merged into the first
    exactly when its start is at most the end of the first plus
    [merge_gap + 1], and the pass goes on from the merged interval, or from
    the second when it is not merged: with the results on the empty list
    and on one interval this fixes the result on every such list.  Any list
    is first put in ascending order of start, the intervals of one start
    in the order they came in.  For two intervals, and in the three
    scenarios of the specification, the results are as stated. *)
Theorem merge_intervals_rule :
  (forall merge_gap, merge_intervals [] merge_gap = [])
  /\ (forall iv merge_gap, merge_intervals [iv] merge_gap = [iv])
  /\ (forall s1 e1 s2 e2 rest merge_gap,
        StronglySorted (fun a b => fst a <= fst b)
                       ((s1, e1) :: (s2, e2) :: rest) ->
        merge_intervals ((s1, e1) :: (s2, e2) :: rest) merge_gap =
        if s2 <=? e1 + merge_gap + 1
        then merge_intervals ((s1, Z.max e1 e2) :: rest) merge_gap
        else (s1, e1) :: merge_intervals ((s2, e2) :: rest) merge_gap)
  /\ (forall l merge_gap, exists l',
        Permutation l l'
        /\ StronglySorted (fun a b => fst a <= fst b) l'
        /\ (forall s, filter (fun iv => fst iv =? s) l'
                      = filter (fun iv => fst iv =? s) l)
        /\ merge_intervals l merge_gap = merge_intervals l' merge_gap)
  /\ (forall s1 e1 s2 e2 merge_gap, s1 <= s2 ->
        merge_intervals [(s1, e1); (s2, e2)] merge_gap =
        if s2 <=? e1 + merge_gap + 1
        then [(s1, Z.max e1 e2)]
        else [(s1, e1); (s2, e2)])
  /\ merge_intervals [(0, 5); (6, 10)] 0 = [(0, 10)]
  /\ merge_intervals [(0, 5); (8, 10)] 0 = [(0, 5); (8, 10)]
  /\ (forall merge_gap, 2 <= merge_gap ->
        merge_intervals [(0, 5); (8, 10)] merge_gap = [(0, 10)]).
Proof.
  assert (Hpair : forall s1 e1 s2 e2 g, s1 <= s2 ->
     merge_intervals [(s1, e1); (s2, e2)] g =
     if s2 <=? e1 + g + 1 then [(s1, Z.max e1 e2)] else [(s1, e1); (s2, e2)]).
  { intros s1 e1 s2 e2 g H. unfold merge_intervals, stable_sort.
    cbn [fold_right insert_sorted]. unfold leb_start. cbn [fst].
    destruct (s1 <=? s2) eqn:Hle; [reflexivity|lia]. }
  split; [reflexivity|].
  split; [intros [s e] g; reflexivity|].
  split; [exact merge_intervals_step|].
  split.
  { intros l g. exists (stable_sort leb_start l).
    split; [apply stable_sort_permutation|].
    split; [apply sort_by_start_ordered|].
    split; [intros s; apply stable_sort_same_start|].
    symmetry. apply merge_intervals_sorted. }
  split; [exact Hpair|].
  split; [reflexivity|]. split; [reflexivity|].
  intros g Hg. rewrite Hpair by lia.
  destruct (8 <=? 5 + g + 1) eqn:Hle; [reflexivity|lia].
Qed.

Lemma merge_intervals_rule_witness :
  merge_intervals [(0, 5); (6, 10); (11, 12)] 0 = [(0, 12)]
  /\ merge_intervals [(0, 5); (8, 10)] 1 = [(0, 5); (8, 10)]
  /\ merge_intervals [(0, 5); (8, 10)] 2 = [(0, 10)].
Proof.
  destruct merge_intervals_rule as (_ & _ & Hstep & _ & Hpair & _ & _ & Hgap).
  split; [|split].
  - rewrite (Hstep 0 5 6 10 [(11, 12)] 0).
    + change (6 <=? 5 + 0 + 1) with true. cbv iota.
      change (Z.max 5 10) with 10. apply (Hpair 0 10 11 12 0). lia.
    + repeat constructor; cbn [fst]; lia.
  - apply (Hpair 0 5 8 10 1). lia.
  - apply (Hgap 2). lia.
Defined.

(** ** The complement *)

(** C7 (code at the failing input).  With nothing removed the early return
    of [invert_to_kept] answers [(0, length-1)] whatever the length, also
    for the empty signal, where it is the improper interval [(0, -1)] and
    not the empty list. *)
Theorem invert_to_kept_nothing_removed :
  (forall length, invert_to_kept [] length = [(0, length - 1)])
  /\ invert_to_kept [] 0 = [(0, -1)]
  /\ invert_to_kept [] 0 <> [].
Proof.
  repeat split. discriminate.
Qed.

(** ** The walks of the two projections *)

Lemma covers_in_spec (cur : Z) (sp : Span) :
  covers_in cur sp = true <-> in_start sp <= cur <= in_end sp.
Proof. unfold covers_in. rewrite andb_true_iff, !Z.leb_le. tauto. Qed.

Lemma covers_out_spec (cur : Z) (sp : Span) :
  covers_out cur sp = true <-> out_start sp <= cur <= out_end sp.
Proof. unfold covers_out. rewrite andb_true_iff, !Z.leb_le. tauto. Qed.

Lemma starts_after_spec (cur : Z) (sp : Span) :
  starts_after cur sp = true <-> cur < in_start sp.
Proof. unfold starts_after. apply Z.ltb_lt. Qed.

Lemma find_none_iff {A : Type} (f : A -> bool) (l : list A) :
  find f l = None <-> forall x, In x l -> f x = false.
Proof.
  split; [apply find_none|].
  induction l as [|a l IH]; simpl; auto.
  intros H. rewrite (H a) by auto. apply IH. auto.
Qed.

(** The fuel [walk_fuel cur e] is enough: more fuel changes nothing, so the
    walk never stops for lack of it. *)
Lemma forward_walk_fuel_irrelevant (spans : list Span) (e : Z) (f1 : nat) :
  forall f2 cur, (walk_fuel cur e <= f1)%nat -> (walk_fuel cur e <= f2)%nat ->
  forward_walk f1 spans e cur = forward_walk f2 spans e cur.
Proof.
  unfold walk_fuel.
  induction f1 as [|f1 IH]; intros f2 cur H1 H2.
  - destruct f2 as [|f2]; cbn [forward_walk]; auto.
    destruct (cur <=? e) eqn:Hle; auto. apply Z.leb_le in Hle. lia.
  - destruct f2 as [|f2]; cbn [forward_walk].
    + destruct (cur <=? e) eqn:Hle; auto. apply Z.leb_le in Hle. lia.
    + destruct (cur <=? e) eqn:Hle; auto. apply Z.leb_le in Hle.
      destruct (find (covers_in cur) spans) as [[[[si ei] so] eo]|] eqn:Hf.
      * apply find_some in Hf. destruct Hf as [_ Hc].
        apply covers_in_spec in Hc. cbn [in_start in_end] in Hc.
        f_equal. apply IH; lia.
      * destruct (find (starts_after cur) spans) as [sp2|] eqn:Hn.
        -- apply find_some in Hn. destruct Hn as [_ Hn].
           apply starts_after_spec in Hn. apply IH; lia.
        -- apply IH; lia.
Qed.

Lemma forward_walk_fuel (spans : list Span) (e cur : Z) (fuel : nat) :
  (walk_fuel cur e <= fuel)%nat ->
  forward_walk fuel spans e cur = forward_from spans e cur.
Proof.
  intros H. unfold forward_from. now apply forward_walk_fuel_irrelevant.
Qed.

(** The equation of the [while] loop. *)
Lemma forward_from_eq (spans : list Span) (e cur : Z) :
  forward_from spans e cur =
  if cur <=? e then
    match find (covers_in cur) spans with
    | Some (si, ei, so, eo) =>
        (so + (cur - si), so + (Z.min e ei - si))
          :: forward_from spans e (Z.min e ei + 1)
    | None =>
        match find (starts_after cur) spans with
        | None => forward_from spans e (e + 1)
        | Some sp2 => forward_from spans e (in_start sp2)
        end
    end
  else [].
Proof.
  unfold forward_from at 1. unfold walk_fuel.
  destruct (cur <=? e) eqn:Hle.
  - apply Z.leb_le in Hle.
    destruct (Z.to_nat (e + 1 - cur)) as [|k] eqn:Hk; [lia|].
    cbn [forward_walk]. apply Z.leb_le in Hle. rewrite Hle. apply Z.leb_le in Hle.
    destruct (find (covers_in cur) spans) as [[[[si ei] so] eo]|] eqn:Hf.
    + apply find_some in Hf. destruct Hf as [_ Hc].
      apply covers_in_spec in Hc. cbn [in_start in_end] in Hc.
      f_equal. apply forward_walk_fuel. unfold walk_fuel. lia.
    + destruct (find (starts_after cur) spans) as [sp2|] eqn:Hn.
      * apply find_some in Hn. destruct Hn as [_ Hn].
        apply starts_after_spec in Hn.
        apply forward_walk_fuel. unfold walk_fuel. lia.
      * apply forward_walk_fuel. unfold walk_fuel. lia.
  - apply Z.leb_gt in Hle.
    destruct (Z.to_nat (e + 1 - cur)) as [|k] eqn:Hk; [reflexivity|lia].
Qed.

Lemma forward_from_done (spans : list Span) (e cur : Z) :
  e < cur -> forward_from spans e cur = [].
Proof.
  intros H. rewrite forward_from_eq.
  destruct (cur <=? e) eqn:Hle; auto. apply Z.leb_le in Hle. lia.
Qed.

Lemma backward_walk_fuel_irrelevant (spans : list Span) (e : Z) (f1 : nat) :
  forall f2 cur, (walk_fuel cur e <= f1)%nat -> (walk_fuel cur e <= f2)%nat ->
  backward_walk f1 spans e cur = backward_walk f2 spans e cur.
Proof.
  unfold walk_fuel.
  induction f1 as [|f1 IH]; intros f2 cur H1 H2.
  - destruct f2 as [|f2]; cbn [backward_walk]; auto.
    destruct (cur <=? e) eqn:Hle; auto. apply Z.leb_le in Hle. lia.
  - destruct f2 as [|f2]; cbn [backward_walk].
    + destruct (cur <=? e) eqn:Hle; auto. apply Z.leb_le in Hle. lia.
    + destruct (cur <=? e) eqn:Hle; auto. apply Z.leb_le in Hle.
      destruct (find (covers_out cur) spans) as [[[[si ei] so] eo]|] eqn:Hf.
      * apply find_some in Hf. destruct Hf as [_ Hc].
        apply covers_out_spec in Hc. cbn [out_start out_end] in Hc.
        f_equal. apply IH; lia.
      * apply IH; lia.
Qed.

Lemma backward_walk_fuel (spans : list Span) (e cur : Z) (fuel : nat) :
  (walk_fuel cur e <= fuel)%nat ->
  backward_walk fuel spans e cur = backward_from spans e cur.
Proof.
  intros H. unfold backward_from. now apply backward_walk_fuel_irrelevant.
Qed.

Lemma backward_from_eq (spans : list Span) (e cur : Z) :
  backward_from spans e cur =
  if cur <=? e then
    match find (covers_out cur) spans with
    | Some (si, ei, so, eo) =>
        (si + (cur - so), si + (Z.min e eo - so))
          :: backward_from spans e (Z.min e eo + 1)
    | None => backward_from spans e (e + 1)
    end
  else [].
Proof.
  unfold backward_from at 1. unfold walk_fuel.
  destruct (cur <=? e) eqn:Hle.
  - apply Z.leb_le in Hle.
    destruct (Z.to_nat (e + 1 - cur)) as [|k] eqn:Hk; [lia|].
    cbn [backward_walk]. apply Z.leb_le in Hle. rewrite Hle. apply Z.leb_le in Hle.
    destruct (find (covers_out cur) spans) as [[[[si ei] so] eo]|] eqn:Hf.
    + apply find_some in Hf. destruct Hf as [_ Hc].
      apply covers_out_spec in Hc. cbn [out_start out_end] in Hc.
      f_equal. apply backward_walk_fuel. unfold walk_fuel. lia.
    + apply backward_walk_fuel. unfold walk_fuel. lia.
  - apply Z.leb_gt in Hle.
    destruct (Z.to_nat (e + 1 - cur)) as [|k] eqn:Hk; [reflexivity|lia].
Qed.

Lemma backward_from_done (spans : list Span) (e cur : Z) :
  e < cur -> backward_from spans e cur = [].
Proof.
  intros H. rewrite backward_from_eq.
  destruct (cur <=? e) eqn:Hle; auto. apply Z.leb_le in Hle. lia.
Qed.

(** The projections of a single interval. *)
Lemma project_forward_one (m : IndexMap) (s e : Z) :
  project_intervals_input_to_output m [(s, e)] =
  normalize_intervals (forward_from (kept m) e s) None.
Proof.
  unfold project_intervals_input_to_output, forward_from.
  cbn [flat_map]. now rewrite app_nil_r.
Qed.

Lemma project_backward_one (m : IndexMap) (s e : Z) :
  project_intervals_output_to_input m [(s, e)] =
  normalize_intervals (backward_from (kept m) e s) None.
Proof.
  unfold project_intervals_output_to_input, backward_from.
  cbn [flat_map]. now rewrite app_nil_r.
Qed.

Lemma normalize_single (a b : Z) :
  a <= b -> normalize_intervals [(a, b)] None = [(a, b)].
Proof.
  intros H. apply normalize_unbounded_id. split.
  - repeat constructor. exact H.
  - repeat constructor.
Qed.

(** ** The invariant, laid end to end *)

Lemma span_wf_len (sp : Span) : span_wf sp -> 1 <= span_len sp.
Proof. unfold span_wf, span_len. lia. Qed.

Lemma span_wf_out_end (sp : Span) :
  span_wf sp -> out_end sp = out_start sp + span_len sp - 1.
Proof. unfold span_wf, span_len. lia. Qed.

Lemma out_len_cons (sp : Span) (l : list Span) :
  out_len (mkIndexMap (sp :: l)) = span_len sp + out_len (mkIndexMap l).
Proof. reflexivity. Qed.

Lemma chained_wf (l : list Span) : forall pos, chained pos l -> Forall span_wf l.
Proof.
  induction l as [|sp l IH]; intros pos H; [constructor|].
  destruct H as (_ & Hwf & _ & Hl). constructor; eauto.
Qed.

Lemma out_len_nonneg (l : list Span) :
  Forall span_wf l -> 0 <= out_len (mkIndexMap l).
Proof.
  intros H. induction H as [|sp l Hsp _ IH]; [reflexivity|].
  rewrite out_len_cons. apply span_wf_len in Hsp. lia.
Qed.

Lemma chained_out_lower (l : list Span) :
  forall pos, chained pos l -> Forall (fun sp => pos <= out_start sp) l.
Proof.
  induction l as [|sp l IH]; intros pos H; [constructor|].
  destruct H as (Hpos & Hwf & _ & Hl). constructor; [lia|].
  eapply Forall_impl; [ | apply (IH _ Hl)].
  intros sp' H'. cbv beta in H'. unfold span_wf in Hwf. lia.
Qed.

Lemma chained_out_after (sp : Span) (l : list Span) (pos : Z) :
  chained pos (sp :: l) -> Forall (fun sp' => out_end sp < out_start sp') l.
Proof.
  intros (_ & _ & _ & Hl).
  eapply Forall_impl; [ | apply (chained_out_lower _ _ Hl)].
  intros sp' H'. cbv beta in H'. lia.
Qed.

Lemma chained_in_after (sp : Span) (l : list Span) (pos : Z) :
  chained pos (sp :: l) -> Forall (fun sp' => in_end sp < in_start sp') l.
Proof. intros (_ & _ & H & _). exact H. Qed.

Lemma chained_tail (sp : Span) (l : list Span) (pos : Z) :
  chained pos (sp :: l) -> chained (out_end sp + 1) l.
Proof. intros (_ & _ & _ & H). exact H. Qed.

Lemma chained_inputs_disjoint (l : list Span) :
  forall pos, chained pos l -> inputs_disjoint l.
Proof.
  induction l as [|sp l IH]; intros pos H; [constructor|].
  constructor.
  - eapply IH, chained_tail, H.
  - eapply chained_in_after, H.
Qed.

Lemma chained_outputs_disjoint (l : list Span) :
  forall pos, chained pos l -> outputs_disjoint l.
Proof.
  induction l as [|sp l IH]; intros pos H; [constructor|].
  constructor.
  - eapply IH, chained_tail, H.
  - eapply chained_out_after, H.
Qed.

Lemma chained_sorted_both (l : list Span) :
  forall pos, chained pos l -> sorted_both l.
Proof.
  induction l as [|sp l IH]; intros pos H; [constructor|].
  constructor.
  - eapply IH, chained_tail, H.
  - pose proof (chained_in_after _ _ _ H) as Hi.
    pose proof (chained_out_after _ _ _ H) as Ho.
    destruct H as (_ & Hwf & _ & _). unfold span_wf in Hwf.
    rewrite Forall_forall in *. intros sp' Hin.
    specialize (Hi _ Hin). specialize (Ho _ Hin). lia.
Qed.

Lemma chained_cover (l : list Span) :
  forall pos, chained pos l ->
  forall j, pos <= j <= pos + out_len (mkIndexMap l) - 1 <->
            exists sp, In sp l /\ out_start sp <= j <= out_end sp.
Proof.
  induction l as [|sp l IH]; intros pos H j.
  - unfold out_len. simpl. split; [lia|]. intros (sp & [] & _).
  - pose proof (chained_wf _ _ (chained_tail _ _ _ H)) as Hwfl.
    apply out_len_nonneg in Hwfl.
    destruct H as (Hpos & Hwf & _ & Hl).
    specialize (IH _ Hl j). rewrite out_len_cons.
    pose proof (span_wf_out_end _ Hwf) as Heo.
    pose proof (span_wf_len _ Hwf) as Hlen.
    split.
    + intros Hj. destruct (Z_le_gt_dec j (out_end sp)) as [Hle|Hgt].
      * exists sp. split; [now left|lia].
      * destruct IH as [IH _]. destruct IH as (sp' & Hin & Hc); [lia|].
        exists sp'. split; [now right|exact Hc].
    + intros (sp' & [<-|Hin] & Hc); [lia|].
      destruct IH as [_ IH]. specialize (IH (ex_intro _ sp' (conj Hin Hc))). lia.
Qed.

(** Conversely, disjoint proper output sides that cover exactly a range
    [pos .. top] lie end to end from [pos] on. *)
Lemma cover_chained (l : list Span) :
  forall pos top,
  Forall span_wf l -> inputs_disjoint l -> outputs_disjoint l ->
  (forall j, pos <= j <= top <->
             exists sp, In sp l /\ out_start sp <= j <= out_end sp) ->
  chained pos l.
Proof.
  induction l as [|sp l IH]; intros pos top Hwf Hin Hout Hcov; [exact I|].
  inversion Hwf as [|? ? Hsp Hwf']; subst.
  inversion Hin as [|? ? Hin' Hin_hd]; subst.
  inversion Hout as [|? ? Hout' Hout_hd]; subst.
  assert (Hso : pos <= out_start sp <= top).
  { apply Hcov. exists sp. split; [now left|]. unfold span_wf in Hsp. lia. }
  assert (Hpos : out_start sp = pos).
  { destruct (proj1 (Hcov pos)) as (sp' & [<-|Hsp'] & Hc); [lia|lia|].
    rewrite Forall_forall in Hout_hd. specialize (Hout_hd _ Hsp').
    unfold span_wf in Hsp. lia. }
  cbn [chained]. repeat split; try apply Hsp; auto.
  apply (IH _ top); auto.
  unfold span_wf in Hsp.
  intros j. split.
  - intros Hj. destruct (proj1 (Hcov j)) as (sp' & [<-|Hsp'] & Hc); [lia|lia|].
    exists sp'. auto.
  - intros (sp' & Hsp' & Hc).
    assert (Hj : pos <= j <= top).
    { apply Hcov. exists sp'. split; [now right|exact Hc]. }
    rewrite Forall_forall in Hout_hd. specialize (Hout_hd _ Hsp'). lia.
Qed.

(** The invariant of the specification and its end-to-end form agree. *)
Lemma invariant_chain (m : IndexMap) :
  kept_span_invariant m <-> chained 0 (kept m).
Proof.
  split.
  - intros (Hwf & _ & Hin & Hout & Hcov).
    apply (cover_chained _ 0 (out_len m - 1)); auto.
  - intros H. split; [|split; [|split; [|split]]].
    + eapply chained_wf, H.
    + eapply chained_sorted_both, H.
    + eapply chained_inputs_disjoint, H.
    + eapply chained_outputs_disjoint, H.
    + intros j. pose proof (chained_cover _ _ H j) as Hc. destruct m as [l].
      cbn [kept] in *. rewrite <- Hc. lia.
Qed.

Lemma chainedb_spec (l : list Span) :
  forall pos, chainedb pos l = true <-> chained pos l.
Proof.
  induction l as [|sp l IH]; intros pos; cbn [chainedb chained]; [tauto|].
  rewrite !andb_true_iff, IH, forallb_forall, Forall_forall.
  unfold span_wf. rewrite Z.eqb_eq, Z.leb_le, Z.eqb_eq.
  split.
  - intros ((((H1 & H2) & H3) & H4) & H5). repeat split; auto.
    intros x Hx. apply Z.ltb_lt. auto.
  - intros (H1 & (H2 & H3) & H4 & H5). repeat split; auto.
    intros x Hx. apply Z.ltb_lt. auto.
Qed.

Lemma chainedb_invariant (m : IndexMap) :
  chainedb 0 (kept m) = true -> kept_span_invariant m.
Proof. intros H. apply invariant_chain, chainedb_spec, H. Qed.

(** In a map that satisfies the invariant a position lies in at most one
    span, on either side: the scan finds that span. *)
Lemma find_covers_in_chained (l : list Span) (i : Z) (sp : Span) :
  forall pos, chained pos l -> In sp l -> in_start sp <= i <= in_end sp ->
  find (covers_in i) l = Some sp.
Proof.
  induction l as [|sp0 l IH]; intros pos H Hin Hi; [destruct Hin|].
  cbn [find]. destruct (covers_in i sp0) eqn:Hc.
  - destruct Hin as [->|Hin]; auto.
    apply covers_in_spec in Hc.
    pose proof (chained_in_after _ _ _ H) as Ha.
    rewrite Forall_forall in Ha. specialize (Ha _ Hin). lia.
  - destruct Hin as [->|Hin].
    + apply covers_in_spec in Hi. congruence.
    + apply (IH _ (chained_tail _ _ _ H)); auto.
Qed.

Lemma find_covers_out_chained (l : list Span) (j : Z) (sp : Span) :
  forall pos, chained pos l -> In sp l -> out_start sp <= j <= out_end sp ->
  find (covers_out j) l = Some sp.
Proof.
  induction l as [|sp0 l IH]; intros pos H Hin Hj; [destruct Hin|].
  cbn [find]. destruct (covers_out j sp0) eqn:Hc.
  - destruct Hin as [->|Hin]; auto.
    apply covers_out_spec in Hc.
    pose proof (chained_out_after _ _ _ H) as Ha.
    rewrite Forall_forall in Ha. specialize (Ha _ Hin). lia.
  - destruct Hin as [->|Hin].
    + apply covers_out_spec in Hj. congruence.
    + apply (IH _ (chained_tail _ _ _ H)); auto.
Qed.

(** Induction along a walk: [cur] only moves forward, and beyond [e] the
    walk is over. *)
Lemma walk_ind (e : Z) (P : Z -> Prop) :
  (forall cur, e < cur -> P cur) ->
  (forall cur, cur <= e -> (forall cur', cur < cur' -> P cur') -> P cur) ->
  forall cur, P cur.
Proof.
  intros Hdone Hstep.
  assert (H : forall n cur, (Z.to_nat (e + 1 - cur) <= n)%nat -> P cur).
  { induction n as [|n IH]; intros cur Hn.
    - apply Hdone. lia.
    - destruct (Z_lt_le_dec e cur) as [Hlt|Hle]; [now apply Hdone|].
      apply Hstep; auto. intros cur' Hc. apply IH. lia. }
  intros cur. apply (H (Z.to_nat (e + 1 - cur))). lia.
Qed.

(** ** Round trip *)

(** C3.  In a map that satisfies the kept-span invariant, the forward
    projection of a kept input position [i] is a single point, and the
    backward projection of that result is [(i, i)] again. *)
Theorem forward_backward_round_trip (m : IndexMap) (i : Z) :
  kept_span_invariant m -> in_kept m i ->
  (exists j, project_intervals_input_to_output m [(i, i)] = [(j, j)])
  /\ project_intervals_output_to_input m
       (project_intervals_input_to_output m [(i, i)]) = [(i, i)].
Proof.
  intros Hinv (sp & Hin & Hi). apply invariant_chain in Hinv.
  pose proof (find_covers_in_chained _ _ _ _ Hinv Hin Hi) as Hf.
  assert (Hwf : span_wf sp).
  { pose proof (chained_wf _ _ Hinv) as Hall.
    rewrite Forall_forall in Hall. auto. }
  destruct sp as [[[si ei] so] eo].
  unfold span_wf in Hwf. cbn [in_start in_end out_start out_end] in *.
  assert (Hfwd : project_intervals_input_to_output m [(i, i)]
                 = [(so + (i - si), so + (i - si))]).
  { rewrite project_forward_one, forward_from_eq, Z.leb_refl, Hf.
    rewrite forward_from_done by lia.
    rewrite Z.min_l by lia. apply normalize_single. lia. }
  split; [eauto|].
  rewrite Hfwd, project_backward_one, backward_from_eq, Z.leb_refl.
  rewrite (find_covers_out_chained _ _ (si, ei, so, eo) _ Hinv Hin)
    by (cbn [out_start out_end]; lia).
  rewrite backward_from_done by lia.
  rewrite Z.min_l by lia.
  replace (si + (so + (i - si) - so)) with i by lia.
  apply normalize_single. lia.
Qed.

Lemma forward_backward_round_trip_witness :
  (exists j, project_intervals_input_to_output map_remove_2_4 [(7, 7)] = [(j, j)])
  /\ project_intervals_output_to_input map_remove_2_4
       (project_intervals_input_to_output map_remove_2_4 [(7, 7)]) = [(7, 7)].
Proof.
  apply (forward_backward_round_trip map_remove_2_4 7).
  - apply chainedb_invariant. reflexivity.
  - exists (5, 9, 2, 6). split; [right; left; reflexivity|].
    cbn [in_start in_end]. lia.
Defined.

(** ** Backward projection outside the output range *)

(** C5, as stated, fails: on the map that removes [(2,4)] from ten samples
    ([Lout = 7]) the interval [(5, 8)] touches the positions 7 and 8, which
    are outside [0, 6], and the call returns [(8, 9)]: it does not fail. *)
Lemma backward_out_of_range_returns :
  out_len map_remove_2_4 = 7
  /\ touches_outside map_remove_2_4 (5, 8)
  /\ call_project_intervals_output_to_input map_remove_2_4 [(5, 8)]
     = returned [(8, 9)]
  /\ call_project_intervals_output_to_input map_remove_2_4 [(5, 8)] <> raised.
Proof.
  split; [reflexivity|]. split.
  - exists 8. cbn [fst snd]. split; [lia|].
    change (out_len map_remove_2_4) with 7. lia.
  - split; [reflexivity|discriminate].
Qed.

(** What one interval contributes to the backward projection when it
    leaves the output range. *)
Lemma backward_from_outside (m : IndexMap) (s e : Z) :
  outputs_cover m -> s < 0 \/ out_len m - 1 < s ->
  backward_from (kept m) e s = [].
Proof.
  intros Hcov Hs. rewrite backward_from_eq.
  destruct (s <=? e); [|reflexivity].
  destruct (find (covers_out s) (kept m)) as [sp|] eqn:Hf.
  - apply find_some in Hf. destruct Hf as [Hin Hc].
    apply covers_out_spec in Hc.
    assert (0 <= s <= out_len m - 1) by (apply Hcov; eauto). lia.
  - now rewrite backward_from_done by lia.
Qed.

Lemma backward_from_cut (m : IndexMap) (e : Z) :
  outputs_cover m -> out_len m - 1 < e ->
  forall cur, 0 <= cur <= out_len m ->
  backward_from (kept m) e cur = backward_from (kept m) (out_len m - 1) cur.
Proof.
  intros Hcov He.
  apply (walk_ind (out_len m - 1)
           (fun cur => 0 <= cur <= out_len m ->
              backward_from (kept m) e cur
              = backward_from (kept m) (out_len m - 1) cur)).
  - intros cur Hlt Hc.
    rewrite (backward_from_done _ (out_len m - 1)) by lia.
    apply backward_from_outside; [exact Hcov|lia].
  - intros cur Hle IH Hc.
    rewrite (backward_from_eq _ e), (backward_from_eq _ (out_len m - 1)).
    replace (cur <=? e) with true by lia.
    replace (cur <=? out_len m - 1) with true by lia.
    destruct (find (covers_out cur) (kept m)) as [[[[si ei] so] eo]|] eqn:Hf.
    + apply find_some in Hf. destruct Hf as [Hin Hc'].
      apply covers_out_spec in Hc'. cbn [out_start out_end] in Hc'.
      assert (Heo : 0 <= eo <= out_len m - 1).
      { apply Hcov. exists (si, ei, so, eo). split; auto.
        cbn [out_start out_end]. lia. }
      rewrite !(Z.min_r _ eo) by lia. f_equal. apply IH; lia.
    + exfalso. destruct (proj1 (Hcov cur)) as (sp & Hin & Hc'); [lia|].
      apply covers_out_spec in Hc'.
      rewrite find_none_iff in Hf. rewrite (Hf _ Hin) in Hc'. discriminate.
Qed.

Lemma project_backward_flat (m : IndexMap) (l : list Interval) :
  project_intervals_output_to_input m l =
  normalize_intervals
    (flat_map (fun '(s, e) => backward_from (kept m) e s) l) None.
Proof. destruct l; reflexivity. Qed.

(** C5, amended.  The backward projection never fails.  Among the
    intervals of a call, one whose start is outside [0, Lout-1] contributes
    nothing at all, and of one that starts inside and ends beyond [Lout-1]
    the part beyond is dropped without a signal. *)
Theorem backward_out_of_range_dropped (m : IndexMap)
  (before after : list Interval) (s e : Z) :
  kept_span_invariant m ->
  call_project_intervals_output_to_input m (before ++ (s, e) :: after)
    = returned (project_intervals_output_to_input m (before ++ (s, e) :: after))
  /\ (s < 0 \/ out_len m - 1 < s ->
      project_intervals_output_to_input m (before ++ (s, e) :: after)
      = project_intervals_output_to_input m (before ++ after))
  /\ (0 <= s <= out_len m - 1 -> out_len m - 1 < e ->
      project_intervals_output_to_input m (before ++ (s, e) :: after)
      = project_intervals_output_to_input m
          (before ++ (s, out_len m - 1) :: after)).
Proof.
  intros (_ & _ & _ & _ & Hcov). split; [reflexivity|]. split.
  - intros Hs. rewrite !project_backward_flat, !flat_map_app.
    cbn [flat_map]. now rewrite backward_from_outside.
  - intros Hs He. rewrite !project_backward_flat, !flat_map_app.
    cbn [flat_map]. rewrite (backward_from_cut m e) by (auto; lia).
    reflexivity.
Qed.

Lemma backward_out_of_range_dropped_witness :
  project_intervals_output_to_input map_remove_2_4 [(7, 8)] = []
  /\ project_intervals_output_to_input map_remove_2_4 [(0, 1); (5, 8)]
     = project_intervals_output_to_input map_remove_2_4 [(0, 1); (5, 6)].
Proof.
  destruct (backward_out_of_range_dropped map_remove_2_4 [] [] 7 8)
    as (_ & Hout & _); [apply chainedb_invariant; reflexivity|].
  destruct (backward_out_of_range_dropped map_remove_2_4 [(0, 1)] [] 5 8)
    as (_ & _ & Htail); [apply chainedb_invariant; reflexivity|].
  split.
  - apply Hout. right. change (out_len map_remove_2_4) with 7. lia.
  - apply Htail; change (out_len map_remove_2_4) with 7; lia.
Defined.

(** ** Forward projection and the removed regions *)

(** A walk over positions none of which is kept produces nothing, whatever
    the list of spans. *)
Lemma forward_from_nothing_kept (spans : list Span) (s e : Z) :
  (forall i sp, s <= i <= e -> In sp spans -> ~ in_start sp <= i <= in_end sp) ->
  forall cur, s <= cur -> forward_from spans e cur = [].
Proof.
  intros Hnone.
  apply (walk_ind e (fun cur => s <= cur -> forward_from spans e cur = [])).
  - intros cur Hlt _. now apply forward_from_done.
  - intros cur Hle IH Hs. rewrite forward_from_eq.
    replace (cur <=? e) with true by lia.
    destruct (find (covers_in cur) spans) as [sp|] eqn:Hf.
    + apply find_some in Hf. destruct Hf as [Hin Hc].
      apply covers_in_spec in Hc. exfalso.
      apply (Hnone cur sp); auto.
    + destruct (find (starts_after cur) spans) as [sp2|] eqn:Hn.
      * apply find_some in Hn. destruct Hn as [_ Hn].
        apply starts_after_spec in Hn. apply IH; lia.
      * apply IH; lia.
Qed.

Lemma image_in_span_beyond (s e : Z) (sp : Span) :
  e < s \/ e < in_start sp \/ in_end sp < s -> image_in_span s e sp = [].
Proof.
  intros H. unfold image_in_span.
  destruct (Z.max s (in_start sp) <=? Z.min e (in_end sp)) eqn:Hle; auto.
  apply Z.leb_le in Hle. lia.
Qed.

Lemma images_beyond (s e : Z) (l : list Span) :
  Forall (fun sp => e < s \/ e < in_start sp \/ in_end sp < s) l ->
  flat_map (image_in_span s e) l = [].
Proof.
  intros H. induction H as [|sp l Hsp _ IH]; cbn [flat_map]; auto.
  now rewrite image_in_span_beyond, IH.
Qed.

(** Spans that start at or after both [c1] and [c2] do not tell the two
    starts apart. *)
Lemma images_shift (c1 c2 e : Z) (l : list Span) :
  Forall (fun sp => c1 <= in_start sp /\ c2 <= in_start sp) l ->
  flat_map (image_in_span c1 e) l = flat_map (image_in_span c2 e) l.
Proof.
  intros H. induction H as [|sp l Hsp _ IH]; cbn [flat_map]; auto.
  rewrite IH. f_equal. unfold image_in_span.
  rewrite !Z.max_r by lia. reflexivity.
Qed.

(** A span that ends before [cur] plays no part in the rest of the walk. *)
Lemma forward_from_skip (sp0 : Span) (l : list Span) (e : Z) :
  in_start sp0 <= in_end sp0 ->
  forall cur, in_end sp0 < cur ->
  forward_from (sp0 :: l) e cur = forward_from l e cur.
Proof.
  intros Hwf.
  apply (walk_ind e (fun cur => in_end sp0 < cur ->
           forward_from (sp0 :: l) e cur = forward_from l e cur)).
  - intros cur Hlt _. now rewrite !forward_from_done.
  - intros cur Hle IH Hc.
    rewrite (forward_from_eq (sp0 :: l)), (forward_from_eq l).
    destruct (cur <=? e); [|reflexivity]. cbn [find].
    assert (H1 : covers_in cur sp0 = false).
    { destruct (covers_in cur sp0) eqn:Hcov; auto.
      apply covers_in_spec in Hcov. lia. }
    assert (H2 : starts_after cur sp0 = false).
    { destruct (starts_after cur sp0) eqn:Hst; auto.
      apply starts_after_spec in Hst. lia. }
    rewrite H1, H2.
    destruct (find (covers_in cur) l) as [[[[si ei] so] eo]|] eqn:Hf.
    + apply find_some in Hf. destruct Hf as [_ Hcov].
      apply covers_in_spec in Hcov. cbn [in_start in_end] in Hcov.
      f_equal. apply IH; lia.
    + destruct (find (starts_after cur) l) as [sp2|] eqn:Hn.
      * apply find_some in Hn. destruct Hn as [_ Hn].
        apply starts_after_spec in Hn. apply IH; lia.
      * apply IH; lia.
Qed.

(** What the walk appends: span by span, the translated image of what is
    left of the interval in that span. *)
Lemma forward_from_images (l : list Span) (e : Z) :
  forall pos, chained pos l ->
  forall cur, forward_from l e cur = flat_map (image_in_span cur e) l.
Proof.
  induction l as [|sp0 l IH]; intros pos H cur.
  - cbn [flat_map]. rewrite forward_from_eq. cbn [find].
    destruct (cur <=? e); [|reflexivity]. apply forward_from_done. lia.
  - pose proof (chained_in_after _ _ _ H) as Hafter.
    pose proof (chained_tail _ _ _ H) as Htail.
    destruct H as (_ & Hwf & _ & _).
    destruct sp0 as [[[si ei] so] eo].
    unfold span_wf in Hwf. cbn [in_start in_end out_start out_end] in *.
    specialize (IH _ Htail).
    (* the walk stands inside the first span *)
    assert (Hinside : forall c, si <= c <= ei -> c <= e ->
              forward_from ((si, ei, so, eo) :: l) e c
              = flat_map (image_in_span c e) ((si, ei, so, eo) :: l)).
    { intros c Hc Hce. rewrite forward_from_eq.
      replace (c <=? e) with true by lia. cbn [find].
      replace (covers_in c (si, ei, so, eo)) with true
        by (symmetry; apply covers_in_spec; cbn [in_start in_end]; lia).
      cbn [flat_map]. unfold image_in_span at 1.
      cbn [in_start in_end out_start].
      replace (Z.max c si <=? Z.min e ei) with true by lia.
      rewrite (Z.max_l c si) by lia. cbn [app].
      destruct (Z_lt_le_dec ei e) as [Hlt|Hge].
      - rewrite Z.min_r by lia.
        rewrite forward_from_skip by (cbn [in_start in_end]; lia).
        rewrite IH. apply (f_equal (@cons Interval _)). apply images_shift.
        eapply Forall_impl; [ | exact Hafter]. intros sp' Hsp'.
        cbv beta in Hsp'. lia.
      - rewrite Z.min_l by lia. rewrite forward_from_done by lia.
        apply (f_equal (@cons Interval _)). symmetry. apply images_beyond.
        eapply Forall_impl; [ | exact Hafter]. intros sp' Hsp'.
        cbv beta in Hsp'. lia. }
    destruct (Z_lt_le_dec e cur) as [Hdone|Hle].
    { rewrite forward_from_done by lia. symmetry. apply images_beyond.
      apply Forall_forall. intros; lia. }
    destruct (Z_lt_le_dec ei cur) as [Hpast|Hnot].
    { rewrite forward_from_skip by (cbn [in_start in_end]; lia).
      rewrite IH. cbn [flat_map].
      rewrite image_in_span_beyond by (cbn [in_start in_end]; lia).
      reflexivity. }
    destruct (Z_lt_le_dec cur si) as [Hbefore|Hin]; [|apply Hinside; lia].
    rewrite forward_from_eq. replace (cur <=? e) with true by lia.
    assert (Hnone : find (covers_in cur) ((si, ei, so, eo) :: l) = None).
    { apply find_none_iff. intros sp' [<-|Hsp'].
      - destruct (covers_in cur (si, ei, so, eo)) eqn:Hc; auto.
        apply covers_in_spec in Hc. cbn [in_start in_end] in Hc. lia.
      - rewrite Forall_forall in Hafter. specialize (Hafter _ Hsp').
        destruct (covers_in cur sp') eqn:Hc; auto.
        apply covers_in_spec in Hc. lia. }
    rewrite Hnone. cbn [find].
    replace (starts_after cur (si, ei, so, eo)) with true
      by (symmetry; apply starts_after_spec; cbn [in_start]; lia).
    cbn [in_start].
    assert (Hshift : flat_map (image_in_span si e) ((si, ei, so, eo) :: l)
                     = flat_map (image_in_span cur e) ((si, ei, so, eo) :: l)).
    { apply images_shift. constructor; [cbn [in_start]; lia|].
      eapply Forall_impl; [ | exact Hafter]. intros sp' Hsp'.
      cbv beta in Hsp'. lia. }
    rewrite <- Hshift.
    destruct (Z_lt_le_dec e si) as [Hout|Hin2].
    + rewrite forward_from_done by lia. symmetry. apply images_beyond.
      constructor; [cbn [in_start]; lia|].
      eapply Forall_impl; [ | exact Hafter]. intros sp' Hsp'.
      cbv beta in Hsp'. lia.
    + apply Hinside; lia.
Qed.

(** Merging keeps the set of covered positions. *)
Lemma covered_cons (iv : Interval) (l : list Interval) (j : Z) :
  covered (iv :: l) j <-> fst iv <= j <= snd iv \/ covered l j.
Proof.
  unfold covered. split.
  - intros (x & [<-|Hin] & Hj); eauto.
  - intros [Hj|(x & Hin & Hj)]; [exists iv|exists x]; simpl; auto.
Qed.

Lemma merge_loop_covered (rest : list Interval) (j : Z) :
  forall cs ce, cs <= ce ->
  Forall proper rest -> Forall (fun iv => cs <= fst iv) rest ->
  StronglySorted (fun a b => fst a <= fst b) rest ->
  covered (merge_loop 0 cs ce rest) j <-> covered ((cs, ce) :: rest) j.
Proof.
  induction rest as [|[s e] rest IH]; intros cs ce Hc Hp Hlo Hs;
    cbn [merge_loop]; [tauto|].
  inversion Hp as [|? ? Hse Hp']; subst.
  inversion Hlo as [|? ? Hcs Hlo']; subst.
  inversion Hs as [|? ? Hs' Hhd]; subst.
  unfold proper in Hse. cbn [fst snd] in Hse, Hcs.
  destruct (s <=? ce + 0 + 1) eqn:Hm.
  - apply Z.leb_le in Hm. rewrite IH by (auto; lia).
    rewrite !covered_cons. cbn [fst snd]. intuition lia.
  - rewrite covered_cons, IH by auto.
    rewrite !covered_cons. tauto.
Qed.

Lemma normalize_covered (l : list Interval) (j : Z) :
  Forall proper l -> covered (normalize_intervals l None) j <-> covered l j.
Proof.
  intros Hp. rewrite normalize_unbounded_eq, map_orient_id by assumption.
  pose proof (sort_by_start_ordered l) as Hs.
  pose proof (stable_sort_forall leb_start proper l Hp) as Hps.
  assert (Hin : covered (stable_sort leb_start l) j <-> covered l j).
  { unfold covered. split; intros (x & Hx & Hj); exists x; split; auto;
      now apply (stable_sort_in leb_start). }
  rewrite <- Hin.
  destruct (stable_sort leb_start l) as [|[cs ce] rest]; [tauto|].
  inversion Hs as [|? ? Hs' Hhd]; subst.
  inversion Hps as [|? ? Hc Hps']; subst.
  apply merge_loop_covered; auto.
Qed.

Lemma image_in_span_proper (s e : Z) (sp : Span) :
  Forall proper (image_in_span s e sp).
Proof.
  unfold image_in_span.
  destruct (Z.max s (in_start sp) <=? Z.min e (in_end sp)) eqn:H;
    constructor; auto.
  apply Z.leb_le in H. unfold proper. cbn [fst snd]. lia.
Qed.

Lemma surviving_images_proper (m : IndexMap) (s e : Z) :
  Forall proper (surviving_images m s e).
Proof.
  unfold surviving_images. induction (kept m) as [|sp l IH]; cbn [flat_map].
  - constructor.
  - apply Forall_app. split; auto. apply image_in_span_proper.
Qed.

Lemma surviving_images_covered (m : IndexMap) (s e j : Z) :
  covered (surviving_images m s e) j <->
  exists i, s <= i <= e /\
    exists sp, In sp (kept m) /\ in_start sp <= i <= in_end sp
               /\ j = out_start sp + (i - in_start sp).
Proof.
  unfold surviving_images, covered. split.
  - intros (iv & Hin & Hj). apply in_flat_map in Hin.
    destruct Hin as (sp & Hsp & Hiv). unfold image_in_span in Hiv.
    destruct (Z.max s (in_start sp) <=? Z.min e (in_end sp)) eqn:Hle;
      [|destruct Hiv].
    destruct Hiv as [<-|[]]. cbn [fst snd] in Hj. apply Z.leb_le in Hle.
    exists (j - out_start sp + in_start sp). split; [lia|].
    exists sp. repeat split; auto; lia.
  - intros (i & Hi & sp & Hsp & Hin & ->).
    exists (out_start sp + (Z.max s (in_start sp) - in_start sp),
            out_start sp + (Z.min e (in_end sp) - in_start sp)).
    split; [|cbn [fst snd]; lia].
    apply in_flat_map. exists sp. split; auto. unfold image_in_span.
    replace (Z.max s (in_start sp) <=? Z.min e (in_end sp)) with true by lia.
    now left.
Qed.

(** C6.  An input interval that meets no kept span is projected to the
    empty set, in any map.  In a map that satisfies the invariant the
    projection of an interval is the normalized list of the translated
    images of its surviving sub-runs, and covers exactly the images of the
    kept positions of the interval.  On the map that removes [(2,4)] from
    ten samples, [(3,3)] is projected to []. *)
Theorem forward_drops_removed :
  (forall m s e, (forall i, s <= i <= e -> ~ in_kept m i) ->
     project_intervals_input_to_output m [(s, e)] = [])
  /\ (forall m s e, kept_span_invariant m ->
        project_intervals_input_to_output m [(s, e)]
        = normalize_intervals (surviving_images m s e) None
        /\ forall j, covered (project_intervals_input_to_output m [(s, e)]) j <->
             exists i, s <= i <= e /\
               exists sp, In sp (kept m) /\ in_start sp <= i <= in_end sp
                          /\ j = out_start sp + (i - in_start sp))
  /\ project_intervals_input_to_output map_remove_2_4 [(3, 3)] = [].
Proof.
  split; [|split].
  - intros m s e Hnone. rewrite project_forward_one.
    rewrite (forward_from_nothing_kept (kept m) s e); [reflexivity| |lia].
    intros i sp Hi Hin Hc. apply (Hnone i Hi). exists sp. auto.
  - intros m s e Hinv. apply invariant_chain in Hinv.
    assert (Heq : project_intervals_input_to_output m [(s, e)]
                  = normalize_intervals (surviving_images m s e) None).
    { rewrite project_forward_one.
      now rewrite (forward_from_images _ _ _ Hinv). }
    split; [exact Heq|]. intros j.
    rewrite Heq, normalize_covered by apply surviving_images_proper.
    apply surviving_images_covered.
  - reflexivity.
Qed.

Lemma forward_drops_removed_witness :
  project_intervals_input_to_output map_remove_2_4 [(2, 4)] = []
  /\ project_intervals_input_to_output map_remove_2_4 [(1, 6)]
     = normalize_intervals (surviving_images map_remove_2_4 1 6) None.
Proof.
  destruct forward_drops_removed as (Hnone & Hpart & _).
  split.
  - apply Hnone. intros i Hi (sp & Hin & Hc).
    destruct Hin as [<-|[<-|[]]]; cbn [in_start in_end] in Hc; lia.
  - apply (Hpart map_remove_2_4 1 6). apply chainedb_invariant. reflexivity.
Defined.

(** ** The constructions keep the invariant *)

Lemma normalized_ascending_disjoint (l : list Interval) :
  normalized l -> ascending_disjoint l.
Proof.
  intros [Hp Hs]. split; auto.
  eapply strongly_sorted_weaken; [ | exact Hs]. unfold apart. intros; lia.
Qed.

Lemma from_kept_loop_in_start (P : Z -> Prop) (l : list Interval) :
  forall pos, Forall (fun iv => P (fst iv)) l ->
  Forall (fun sp => P (in_start sp)) (from_kept_loop pos l).
Proof.
  induction l as [|[s e] l IH]; intros pos H; cbn [from_kept_loop]; auto.
  inversion H; subst. constructor; auto.
Qed.

Lemma from_kept_loop_chained (l : list Interval) :
  forall pos, ascending_disjoint l -> chained pos (from_kept_loop pos l).
Proof.
  induction l as [|[s e] l IH]; intros pos [Hp Hs]; [exact I|].
  inversion Hp as [|? ? Hse Hp']; subst.
  inversion Hs as [|? ? Hs' Hhd]; subst.
  unfold proper in Hse. cbn [fst snd] in Hse.
  cbn [from_kept_loop chained in_start in_end out_start out_end].
  repeat split.
  - exact Hse.
  - cbn [in_start in_end out_start out_end]. lia.
  - apply (from_kept_loop_in_start (fun x => e < x)). exact Hhd.
  - replace (pos + (e - s + 1) - 1 + 1) with (pos + (e - s + 1)) by lia.
    apply IH. split; auto.
Qed.

Lemma from_kept_ranges_invariant (kept_in : list Interval) :
  ascending_disjoint kept_in -> kept_span_invariant (from_kept_ranges kept_in).
Proof.
  intros H. apply invariant_chain. now apply from_kept_loop_chained.
Qed.

(** The loop of [invert_to_kept] on a removed set in canonical form. *)
Lemma kept_loop_lower (L : Z) (removed : list Interval) :
  forall cur, Forall (fun iv => cur <= fst iv) removed ->
  StronglySorted apart removed -> Forall proper removed ->
  Forall (fun iv => cur <= fst iv) (kept_loop L cur removed).
Proof.
  induction removed as [|[s e] rest IH]; intros cur Hlo Hs Hp; cbn [kept_loop].
  - destruct (cur <? L); repeat constructor. cbn [fst]. lia.
  - inversion Hlo as [|? ? Hcs _]; subst.
    inversion Hs as [|? ? Hs' Hhd]; subst.
    inversion Hp as [|? ? Hse Hp']; subst.
    unfold proper in Hse. cbn [fst snd] in Hcs, Hse.
    apply Forall_app. split.
    + destruct (cur <? s); repeat constructor. cbn [fst]. lia.
    + eapply Forall_impl; [ | apply (IH (e + 1)); auto].
      * intros iv Hiv. cbv beta in Hiv. lia.
      * eapply Forall_impl; [ | exact Hhd]. unfold apart. cbn [snd].
        intros iv Hiv. lia.
Qed.

Lemma kept_loop_ascending (L : Z) (removed : list Interval) :
  forall cur, Forall (fun iv => cur <= fst iv) removed ->
  StronglySorted apart removed -> Forall proper removed ->
  Forall (fun iv => snd iv <= L - 1) removed ->
  ascending_disjoint (kept_loop L cur removed)
  /\ Forall (fun iv => snd iv <= L - 1) (kept_loop L cur removed).
Proof.
  induction removed as [|[s e] rest IH]; intros cur Hlo Hs Hp Hup;
    cbn [kept_loop].
  - destruct (cur <? L) eqn:Hc.
    + apply Z.ltb_lt in Hc. repeat split; repeat constructor.
      * unfold proper. cbn [fst snd]. lia.
      * cbn [snd]. lia.
    + repeat split; constructor.
  - inversion Hlo as [|? ? Hcs _]; subst.
    inversion Hs as [|? ? Hs' Hhd]; subst.
    inversion Hp as [|? ? Hse Hp']; subst.
    inversion Hup as [|? ? He Hup']; subst.
    unfold proper in Hse. cbn [fst snd] in Hcs, Hse, He.
    assert (Hnext : Forall (fun iv => e + 1 <= fst iv) rest).
    { eapply Forall_impl; [ | exact Hhd]. unfold apart. cbn [snd].
      intros iv Hiv. lia. }
    destruct (IH (e + 1) Hnext Hs' Hp' Hup') as [[IHp IHs] IHu].
    pose proof (kept_loop_lower L rest (e + 1) Hnext Hs' Hp') as Hlow.
    destruct (cur <? s) eqn:Hc; cbn [app]; [|repeat split; auto].
    apply Z.ltb_lt in Hc. repeat split.
    + constructor; auto. unfold proper. cbn [fst snd]. lia.
    + constructor; auto. eapply Forall_impl; [ | exact Hlow].
      cbn [snd]. intros iv Hiv. lia.
    + constructor; auto. cbn [snd]. lia.
Qed.

(** On a signal of at least one sample the kept intervals are proper,
    ascending, disjoint and inside the signal. *)
Lemma invert_to_kept_ascending (removed : list Interval) (L : Z) :
  1 <= L ->
  ascending_disjoint (invert_to_kept removed L)
  /\ Forall (within L) (invert_to_kept removed L).
Proof.
  intros HL. unfold invert_to_kept.
  destruct (normalize_bounded_spec removed L HL) as [[Hp Hs] Hw].
  destruct (normalize_intervals removed (Some L)) as [|iv rest] eqn:Hr.
  - repeat split; repeat constructor; unfold proper; cbn [fst snd]; lia.
  - assert (Hlo : Forall (fun iv => 0 <= fst iv) (iv :: rest)).
    { eapply Forall_impl; [ | exact Hw]. unfold within. tauto. }
    assert (Hup : Forall (fun iv => snd iv <= L - 1) (iv :: rest)).
    { eapply Forall_impl; [ | exact Hw]. unfold within. tauto. }
    destruct (kept_loop_ascending L (iv :: rest) 0 Hlo Hs Hp Hup) as [Ha Hu].
    pose proof (kept_loop_lower L (iv :: rest) 0 Hlo Hs Hp) as Hl.
    split; auto.
    rewrite Forall_forall in *. intros x Hx. split; auto.
Qed.

(** *** Counting kept positions *)

Lemma kept_below_mono (l : list Span) (x y : Z) :
  x <= y -> kept_below l x <= kept_below l y.
Proof.
  intros H. induction l as [|sp l IH]; cbn [kept_below]; lia.
Qed.

Lemma kept_below_before (l : list Span) (x : Z) :
  Forall (fun sp => x <= in_start sp) l -> kept_below l x = 0.
Proof.
  intros H. induction H as [|sp l Hsp _ IH]; cbn [kept_below]; lia.
Qed.

Lemma kept_below_gap (l : list Span) (x y : Z) :
  x <= y ->
  Forall (fun sp => in_end sp < x \/ y <= in_start sp) l ->
  kept_below l x = kept_below l y.
Proof.
  intros Hxy H. induction H as [|sp l Hsp _ IH]; cbn [kept_below]; lia.
Qed.

Lemma kept_below_lipschitz (l : list Span) :
  forall pos, chained pos l ->
  forall x y, x <= y -> kept_below l y - kept_below l x <= y - x.
Proof.
  induction l as [|sp l IH]; intros pos H x y Hxy; cbn [kept_below]; [lia|].
  pose proof (chained_in_after _ _ _ H) as Hafter.
  pose proof (chained_tail _ _ _ H) as Htail.
  destruct H as (_ & Hwf & _ & _). unfold span_wf in Hwf.
  assert (Hzero : forall z, z <= in_end sp + 1 -> kept_below l z = 0).
  { intros z Hz. apply kept_below_before.
    eapply Forall_impl; [ | exact Hafter]. intros sp' Hsp'.
    cbv beta in Hsp'. lia. }
  destruct (Z_le_gt_dec y (in_end sp + 1)) as [Hy|Hy].
  - rewrite (Hzero x), (Hzero y) by lia. lia.
  - destruct (Z_le_gt_dec x (in_end sp + 1)) as [Hx|Hx].
    + rewrite (Hzero x) by lia.
      pose proof (IH _ Htail (in_end sp + 1) y ltac:(lia)) as Hl.
      rewrite (Hzero (in_end sp + 1)) in Hl by lia. lia.
    + pose proof (IH _ Htail x y Hxy). lia.
Qed.

(** *** The forward image of an interval is one run *)

Lemma contiguous_eq (a a' z z' : Z) (l : list Interval) :
  a = a' -> z = z' -> contiguous a l z -> contiguous a' l z'.
Proof. intros -> ->. auto. Qed.

Lemma contiguous_upper (l : list Interval) :
  forall a z, contiguous a l z -> a - 1 <= z.
Proof.
  induction l as [|[x y] l IH]; intros a z H; cbn [contiguous] in H; [lia|].
  destruct H as (-> & Hxy & Hl). apply IH in Hl. lia.
Qed.

Lemma contiguous_shape (l : list Interval) :
  forall a z, contiguous a l z ->
  Forall (fun iv => a <= fst iv) l /\ Forall proper l
  /\ StronglySorted (fun p q => fst p <= fst q) l.
Proof.
  induction l as [|[x y] l IH]; intros a z H; cbn [contiguous] in H.
  - repeat split; constructor.
  - destruct H as (-> & Hxy & Hl).
    destruct (IH _ _ Hl) as (Hlo & Hp & Hs).
    assert (Hlo' : Forall (fun iv : Interval => a <= fst iv) l).
    { eapply Forall_impl; [ | exact Hlo]. intros iv Hiv.
      cbv beta in Hiv. lia. }
    repeat split; constructor; auto. cbn [fst]. lia.
Qed.

Lemma merge_loop_contiguous (rest : list Interval) :
  forall cs ce z, contiguous (ce + 1) rest z ->
  merge_loop 0 cs ce rest = [(cs, z)].
Proof.
  induction rest as [|[x y] rest IH]; intros cs ce z H;
    cbn [contiguous merge_loop] in *.
  - replace z with ce by lia. reflexivity.
  - destruct H as (-> & Hxy & Hl).
    replace (ce + 1 <=? ce + 0 + 1) with true by lia.
    rewrite Z.max_r by lia. now apply IH.
Qed.

Lemma normalize_contiguous (l : list Interval) (a z : Z) :
  contiguous a l z ->
  normalize_intervals l None = if a <=? z then [(a, z)] else [].
Proof.
  intros H. destruct (contiguous_shape _ _ _ H) as (_ & Hp & Hs).
  rewrite normalize_unbounded_eq, map_orient_id, sort_by_start_id by assumption.
  destruct l as [|[x y] l]; cbn [contiguous] in H.
  - replace (a <=? z) with false by lia. reflexivity.
  - destruct H as (-> & Hxy & Hl).
    pose proof (contiguous_upper _ _ _ Hl).
    replace (a <=? z) with true by lia. now apply merge_loop_contiguous.
Qed.

Lemma images_contiguous (l : list Span) :
  forall pos, chained pos l ->
  forall s e, s <= e + 1 ->
  contiguous (pos + kept_below l s)
             (flat_map (image_in_span s e) l)
             (pos + kept_below l (e + 1) - 1).
Proof.
  induction l as [|sp l IH]; intros pos H s e Hse.
  - cbn [flat_map kept_below contiguous]. lia.
  - pose proof (chained_in_after _ _ _ H) as Hafter.
    pose proof (chained_tail _ _ _ H) as Htail.
    destruct H as (Hpos & Hwf & _ & _).
    destruct sp as [[[si ei] so] eo]. unfold span_wf in Hwf.
    cbn [in_start in_end out_start out_end] in *.
    specialize (IH _ Htail s e Hse).
    assert (Hzero : forall z, z <= ei + 1 -> kept_below l z = 0).
    { intros z Hz. apply kept_below_before.
      eapply Forall_impl; [ | exact Hafter]. intros sp' Hsp'.
      cbv beta in Hsp'. lia. }
    assert (Hempty : e <= ei -> flat_map (image_in_span s e) l = []).
    { intros He. apply images_beyond.
      eapply Forall_impl; [ | exact Hafter]. intros sp' Hsp'.
      cbv beta in Hsp'. lia. }
    cbn [flat_map kept_below in_start in_end]. unfold image_in_span at 1.
    cbn [in_start in_end out_start].
    destruct (Z.max s si <=? Z.min e ei) eqn:Hov.
    + apply Z.leb_le in Hov. cbn [app contiguous]. split; [|split].
      * rewrite (Hzero s) by lia. lia.
      * lia.
      * destruct (Z_lt_le_dec e ei) as [Hlt|Hge].
        -- rewrite Hempty by lia. cbn [contiguous].
           rewrite (Hzero (e + 1)) by lia. lia.
        -- rewrite (Hzero s) in IH by lia.
           eapply contiguous_eq; [ | | exact IH]; lia.
    + apply Z.leb_gt in Hov. cbn [app].
      destruct (Z_lt_le_dec ei s) as [Hpast|Hin].
      * eapply contiguous_eq; [ | | exact IH]; lia.
      * rewrite Hempty by lia. cbn [contiguous].
        rewrite (Hzero s), (Hzero (e + 1)) by lia. lia.
Qed.

(** In a map that satisfies the invariant the forward projection of an
    interval is one run of outputs, or nothing. *)
Lemma project_forward_chained (m : IndexMap) (pos s e : Z) :
  chained pos (kept m) -> s <= e + 1 ->
  project_intervals_input_to_output m [(s, e)] =
  if pos + kept_below (kept m) s <=? pos + kept_below (kept m) (e + 1) - 1
  then [(pos + kept_below (kept m) s, pos + kept_below (kept m) (e + 1) - 1)]
  else [].
Proof.
  intros H Hse. rewrite project_forward_one.
  rewrite (forward_from_images _ _ _ H).
  apply normalize_contiguous. now apply images_contiguous.
Qed.

(** *** Composition *)

(** What one kept span of [self] contributes to [composed_kept]. *)
Lemma composed_span_shape (other : IndexMap) (pos si so eo : Z) :
  chained pos (kept other) -> so <= eo + 1 ->
  consume_chunks si 0 (project_intervals_input_to_output other [(so, eo)]) =
  if kept_below (kept other) so <? kept_below (kept other) (eo + 1)
  then [(si, si + (kept_below (kept other) (eo + 1)
                   - kept_below (kept other) so) - 1,
         pos + kept_below (kept other) so,
         pos + kept_below (kept other) (eo + 1) - 1)]
  else [].
Proof.
  intros H Hse. rewrite (project_forward_chained _ pos) by assumption.
  destruct (kept_below (kept other) so <? kept_below (kept other) (eo + 1)) eqn:Hlt.
  - apply Z.ltb_lt in Hlt.
    replace (pos + kept_below (kept other) so
             <=? pos + kept_below (kept other) (eo + 1) - 1) with true by lia.
    cbn [consume_chunks].
    replace (si + 0) with si by lia.
    replace (pos + kept_below (kept other) (eo + 1) - 1
             - (pos + kept_below (kept other) so) + 1)
      with (kept_below (kept other) (eo + 1) - kept_below (kept other) so)
      by lia.
    reflexivity.
  - apply Z.ltb_ge in Hlt.
    replace (pos + kept_below (kept other) so
             <=? pos + kept_below (kept other) (eo + 1) - 1) with false by lia.
    reflexivity.
Qed.

Lemma composed_kept_in_start (other : IndexMap) (pos : Z) (P : Z -> Prop)
  (l : list Span) :
  chained pos (kept other) -> Forall span_wf l ->
  Forall (fun sp => P (in_start sp)) l ->
  Forall (fun sp => P (in_start sp)) (kept (mkIndexMap (composed_kept (mkIndexMap l) other))).
Proof.
  intros H Hwf HP. cbn [kept]. unfold composed_kept. cbn [kept].
  induction HP as [|[[[si ei] so] eo] l Hsp _ IH]; cbn [flat_map]; [constructor|].
  inversion Hwf as [|? ? Hw Hwf']; subst. unfold span_wf in Hw.
  cbn [in_start in_end out_start out_end] in *.
  apply Forall_app. split; [|now apply IH].
  rewrite (composed_span_shape _ pos) by (auto; lia).
  destruct (kept_below (kept other) so <? kept_below (kept other) (eo + 1));
    repeat constructor. exact Hsp.
Qed.

Lemma composed_kept_chained (other : IndexMap) (pos2 : Z) (l : list Span) :
  chained pos2 (kept other) ->
  forall pos1, chained pos1 l ->
  chained (pos2 + kept_below (kept other) pos1)
          (composed_kept (mkIndexMap l) other).
Proof.
  intros H2. unfold composed_kept. cbn [kept].
  induction l as [|sp l IH]; intros pos1 H1; [exact I|].
  pose proof (chained_in_after _ _ _ H1) as Hafter.
  pose proof (chained_tail _ _ _ H1) as Htail.
  pose proof (chained_wf _ _ Htail) as Hwfl.
  destruct H1 as (Hpos & Hwf & _ & _).
  destruct sp as [[[si ei] so] eo]. unfold span_wf in Hwf.
  cbn [in_start in_end out_start out_end] in *. subst so.
  specialize (IH _ Htail). cbn [flat_map].
  rewrite (composed_span_shape _ pos2) by (auto; lia).
  pose proof (kept_below_mono (kept other) pos1 (eo + 1) ltac:(lia)) as Hmono.
  pose proof (kept_below_lipschitz _ _ H2 pos1 (eo + 1) ltac:(lia)) as Hlip.
  destruct (kept_below (kept other) pos1 <? kept_below (kept other) (eo + 1)) eqn:Hlt.
  - apply Z.ltb_lt in Hlt. cbn [app chained in_start in_end out_start out_end].
    split; [reflexivity|]. split; [unfold span_wf; cbn [in_start in_end out_start out_end]; lia|].
    split.
    + pose proof (composed_kept_in_start other pos2
                    (fun x => si + (kept_below (kept other) (eo + 1)
                                    - kept_below (kept other) pos1) - 1 < x)
                    l H2 Hwfl) as Hst.
      unfold composed_kept in Hst. cbn [kept] in Hst. apply Hst.
      eapply Forall_impl; [ | exact Hafter]. intros sp' Hsp'.
      cbv beta in Hsp'. lia.
    + replace (pos2 + kept_below (kept other) (eo + 1) - 1 + 1)
        with (pos2 + kept_below (kept other) (eo + 1)) by lia.
      exact IH.
  - apply Z.ltb_ge in Hlt. cbn [app].
    replace (kept_below (kept other) pos1)
      with (kept_below (kept other) (eo + 1)) by lia.
    exact IH.
Qed.

Lemma chained_sorted_leb (l : list Span) (pos : Z) :
  chained pos l -> StronglySorted (fun a b => leb_in_out a b = true) l.
Proof.
  intros H. eapply strongly_sorted_weaken; [ | eapply chained_sorted_both, H].
  intros a b [Hin _]. unfold leb_in_out.
  apply orb_true_iff. left. now apply Z.ltb_lt.
Qed.

(** The final loop of [compose], read from the front. *)
Lemma merge_adjacent_fold (rest : list Span) :
  forall cur acc,
  rev (fold_left merge_adjacent rest (cur :: acc)) = rev acc ++ coalesce cur rest.
Proof.
  induction rest as [|seg rest IH]; intros cur acc; cbn [fold_left coalesce].
  - reflexivity.
  - destruct cur as [[[pi_s pi_e] po_s] po_e].
    destruct seg as [[[ci_s ci_e] co_s] co_e]. cbn [merge_adjacent].
    destruct ((pi_e + 1 =? ci_s) && (po_e + 1 =? co_s)).
    + apply IH.
    + rewrite IH. cbn [rev]. now rewrite <- app_assoc.
Qed.

Lemma merge_adjacent_coalesce (l : list Span) :
  rev (fold_left merge_adjacent l []) =
  match l with
  | [] => []
  | cur :: rest => coalesce cur rest
  end.
Proof.
  destruct l as [|cur rest]; [reflexivity|].
  cbn [fold_left merge_adjacent]. apply (merge_adjacent_fold rest cur []).
Qed.

Lemma coalesce_in_start (P : Z -> Prop) (rest : list Span) :
  forall cur, Forall (fun sp => P (in_start sp)) (cur :: rest) ->
  Forall (fun sp => P (in_start sp)) (coalesce cur rest).
Proof.
  induction rest as [|seg rest IH]; intros cur H; cbn [coalesce]; auto.
  destruct cur as [[[pi_s pi_e] po_s] po_e].
  destruct seg as [[[ci_s ci_e] co_s] co_e].
  inversion H as [|? ? Hc Hr]; subst. inversion Hr as [|? ? Hs Hr']; subst.
  destruct ((pi_e + 1 =? ci_s) && (po_e + 1 =? co_s)).
  - apply IH. constructor; auto.
  - constructor; auto.
Qed.

Lemma coalesce_chained (rest : list Span) :
  forall cur pos, chained pos (cur :: rest) -> chained pos (coalesce cur rest).
Proof.
  induction rest as [|seg rest IH]; intros cur pos H; cbn [coalesce]; auto.
  destruct cur as [[[pi_s pi_e] po_s] po_e].
  destruct seg as [[[ci_s ci_e] co_s] co_e].
  destruct H as (Hpos & Hwf & Hafter & Hpos' & Hwf' & Hafter' & Htail).
  unfold span_wf in Hwf, Hwf'.
  cbn [in_start in_end out_start out_end] in *.
  destruct ((pi_e + 1 =? ci_s) && (po_e + 1 =? co_s)) eqn:Hc.
  - apply andb_true_iff in Hc. destruct Hc as [Hi Ho].
    apply Z.eqb_eq in Hi. apply Z.eqb_eq in Ho.
    apply IH. cbn [chained in_start in_end out_start out_end].
    unfold span_wf. cbn [in_start in_end out_start out_end].
    repeat split; auto; lia.
  - cbn [chained in_start in_end out_start out_end].
    unfold span_wf. cbn [in_start in_end out_start out_end].
    repeat split; auto; try lia.
    + apply (coalesce_in_start (fun x => pi_e < x)). exact Hafter.
    + apply IH. cbn [chained in_start in_end out_start out_end].
      unfold span_wf. cbn [in_start in_end out_start out_end].
      repeat split; auto; lia.
Qed.

Lemma compose_chained (m1 m2 : IndexMap) :
  chained 0 (kept m1) -> chained 0 (kept m2) ->
  Forall (fun sp => 0 <= in_start sp) (kept m2) ->
  chained 0 (kept (compose m1 m2)).
Proof.
  intros H1 H2 Hnn. unfold compose. cbn [kept].
  pose proof (composed_kept_chained m2 0 (kept m1) H2 0 H1) as Hc.
  rewrite (kept_below_before (kept m2) 0) in Hc by exact Hnn.
  destruct m1 as [l1]. cbn [kept] in *.
  rewrite (stable_sort_sorted leb_in_out) by (eapply chained_sorted_leb, Hc).
  rewrite merge_adjacent_coalesce.
  destruct (composed_kept {| kept := l1 |} m2) as [|cur rest]; [exact I|].
  now apply coalesce_chained.
Qed.

(** C4, as stated, fails in two places.  A map whose kept spans sit at
    negative input positions satisfies the listed invariant, and composing
    the identity on ten samples with it yields [(0,1,5,6)], whose output
    side is not [0, 1].  And removing nothing from the empty signal yields
    the span [(0,-1,0,-1)], which is not an interval at all. *)
Lemma invariant_lost_examples :
  normalized [(0, 9)] /\ normalized [(-5, -1); (3, 4)]
  /\ kept_span_invariant (from_kept_ranges [(0, 9)])
  /\ kept_span_invariant (from_kept_ranges [(-5, -1); (3, 4)])
  /\ compose (from_kept_ranges [(0, 9)]) (from_kept_ranges [(-5, -1); (3, 4)])
     = mkIndexMap [(0, 1, 5, 6)]
  /\ ~ kept_span_invariant
       (compose (from_kept_ranges [(0, 9)])
                (from_kept_ranges [(-5, -1); (3, 4)]))
  /\ from_removed_ranges [] 0 = mkIndexMap [(0, -1, 0, -1)]
  /\ ~ kept_span_invariant (from_removed_ranges [] 0).
Proof.
  assert (Hn1 : normalized [(0, 9)]).
  { split; repeat constructor. unfold proper. cbn [fst snd]. lia. }
  assert (Hn2 : normalized [(-5, -1); (3, 4)]).
  { split; repeat constructor; unfold proper, apart; cbn [fst snd]; lia. }
  split; [exact Hn1|]. split; [exact Hn2|].
  split; [apply chainedb_invariant; reflexivity|].
  split; [apply chainedb_invariant; reflexivity|].
  split; [reflexivity|]. split; [|split; [reflexivity|]].
  - intros H. apply invariant_chain, chainedb_spec in H. discriminate H.
  - intros H. apply invariant_chain, chainedb_spec in H. discriminate H.
Qed.

(** C4, amended.  The invariant holds for [from_kept_ranges] on a set in
    canonical form, for [from_removed_ranges] on a signal of at least one
    sample, and for [compose] of two maps that satisfy it when the second
    has no kept span at a negative input position (as is the case when its
    input space is the output space of the first). *)
Theorem constructions_keep_invariant :
  (forall kept_in, normalized kept_in ->
     kept_span_invariant (from_kept_ranges kept_in))
  /\ (forall removed_in in_len, 1 <= in_len ->
        kept_span_invariant (from_removed_ranges removed_in in_len))
  /\ (forall m1 m2, kept_span_invariant m1 -> kept_span_invariant m2 ->
        Forall (fun sp => 0 <= in_start sp) (kept m2) ->
        kept_span_invariant (compose m1 m2)).
Proof.
  split; [|split].
  - intros kept_in H. apply from_kept_ranges_invariant.
    now apply normalized_ascending_disjoint.
  - intros removed_in in_len H. unfold from_removed_ranges.
    apply from_kept_ranges_invariant. now apply invert_to_kept_ascending.
  - intros m1 m2 H1 H2 Hnn. apply invariant_chain.
    apply compose_chained; auto; now apply invariant_chain.
Qed.

Lemma constructions_keep_invariant_witness :
  kept_span_invariant (from_kept_ranges [(0, 1); (5, 9)])
  /\ kept_span_invariant (from_removed_ranges [(2, 4)] 10)
  /\ kept_span_invariant (compose map_identity_10 map_remove_2_4).
Proof.
  destruct constructions_keep_invariant as (Hkept & Hremoved & Hcompose).
  split; [|split].
  - apply Hkept. split; repeat constructor;
      unfold proper, apart; cbn [fst snd]; lia.
  - apply Hremoved. lia.
  - apply Hcompose.
    + apply chainedb_invariant. reflexivity.
    + apply chainedb_invariant. reflexivity.
    + repeat constructor; cbn [in_start]; lia.
Defined.

(** ** Composition against the chain of projections *)

(** C1 (code at the failing input).  Nothing is removed by the first map
    and [(2,4)] by the second; position 5 is kept by both, and its image is
    2.  [compose] hands out the A-side positions of a span by counting the
    samples that survive, without skipping those the second map removes,
    and so keeps [0..6] in place: the composed map sends 5 to 5. *)
Theorem compose_disagrees_with_chain :
  kept_span_invariant map_identity_10
  /\ kept_span_invariant map_remove_2_4
  /\ out_len map_identity_10 = 10
  /\ Forall (fun sp => 0 <= in_start sp /\ in_end sp <= 10 - 1)
            (kept map_remove_2_4)
  /\ in_kept map_identity_10 5
  /\ project_intervals_input_to_output map_identity_10 [(5, 5)] = [(5, 5)]
  /\ in_kept map_remove_2_4 5
  /\ compose map_identity_10 map_remove_2_4 = mkIndexMap [(0, 6, 0, 6)]
  /\ project_intervals_input_to_output
       (compose map_identity_10 map_remove_2_4) [(5, 5)] = [(5, 5)]
  /\ project_intervals_input_to_output map_remove_2_4
       (project_intervals_input_to_output map_identity_10 [(5, 5)]) = [(2, 2)].
Proof.
  split; [apply chainedb_invariant; reflexivity|].
  split; [apply chainedb_invariant; reflexivity|].
  split; [reflexivity|].
  split; [repeat constructor; cbn [in_start in_end]; lia|].
  split.
  { exists (0, 9, 0, 9). split; [now left|]. cbn [in_start in_end]. lia. }
  split; [reflexivity|]. split.
  { exists (5, 9, 2, 6). split; [right; now left|]. cbn [in_start in_end]. lia. }
  repeat split.
Qed.

(** C2 (code at the failing input).  With [m1] removing [(5,9)] of fifteen
    samples, [m2] removing nothing of ten and [m3] removing [(0,4)] of ten,
    the lengths match along the chain and the two groupings give different
    maps: the inner [compose m2 m3] keeps [0..4] where [5..9] survive. *)
Theorem compose_grouping_matters :
  kept_span_invariant map_remove_5_9
  /\ kept_span_invariant map_identity_10
  /\ kept_span_invariant map_remove_0_4
  /\ out_len map_remove_5_9 = 10
  /\ Forall (fun sp => 0 <= in_start sp /\ in_end sp <= 10 - 1)
            (kept map_identity_10)
  /\ out_len map_identity_10 = 10
  /\ Forall (fun sp => 0 <= in_start sp /\ in_end sp <= 10 - 1)
            (kept map_remove_0_4)
  /\ compose (compose map_remove_5_9 map_identity_10) map_remove_0_4
     = mkIndexMap [(10, 14, 0, 4)]
  /\ compose map_remove_5_9 (compose map_identity_10 map_remove_0_4)
     = mkIndexMap [(0, 4, 0, 4)]
  /\ compose (compose map_remove_5_9 map_identity_10) map_remove_0_4
     <> compose map_remove_5_9 (compose map_identity_10 map_remove_0_4).
Proof.
  split; [apply chainedb_invariant; reflexivity|].
  split; [apply chainedb_invariant; reflexivity|].
  split; [apply chainedb_invariant; reflexivity|].
  split; [reflexivity|].
  split; [repeat constructor; cbn [in_start in_end]; lia|].
  split; [reflexivity|].
  split; [repeat constructor; cbn [in_start in_end]; lia|].
  split; [reflexivity|]. split; [reflexivity|].
  intros H. discriminate H.
Qed.

(** ** Removing intervals from a signal *)

Lemma total_len_app (l1 l2 : list Interval) :
  total_len (l1 ++ l2) = total_len l1 + total_len l2.
Proof.
  unfold total_len. induction l1 as [|iv l1 IH]; cbn [app fold_right]; lia.
Qed.

Lemma total_len_cons (iv : Interval) (l : list Interval) :
  total_len (iv :: l) = interval_len iv + total_len l.
Proof. reflexivity. Qed.

Lemma kept_loop_total (L : Z) (removed : list Interval) :
  forall cur, cur <= L ->
  Forall (fun iv => cur <= fst iv) removed ->
  StronglySorted apart removed -> Forall proper removed ->
  Forall (fun iv => snd iv <= L - 1) removed ->
  total_len (kept_loop L cur removed) = L - cur - total_len removed.
Proof.
  induction removed as [|[s e] rest IH]; intros cur HcL Hlo Hs Hp Hup;
    cbn [kept_loop].
  - unfold total_len, interval_len.
    destruct (cur <? L) eqn:Hc; cbn [fold_right fst snd]; lia.
  - inversion Hlo as [|? ? Hcs _]; subst.
    inversion Hs as [|? ? Hs' Hhd]; subst.
    inversion Hp as [|? ? Hse Hp']; subst.
    inversion Hup as [|? ? He Hup']; subst.
    unfold proper in Hse. cbn [fst snd] in Hcs, Hse, He.
    rewrite total_len_app, (IH (e + 1)); auto; try lia.
    + rewrite (total_len_cons (s, e)). unfold interval_len. cbn [fst snd].
      destruct (cur <? s) eqn:Hc.
      * rewrite total_len_cons. unfold interval_len. cbn [fst snd].
        change (total_len []) with 0. lia.
      * change (total_len []) with 0. lia.
    + eapply Forall_impl; [ | exact Hhd]. unfold apart. cbn [snd].
      intros iv Hiv. lia.
Qed.

(** On the empty signal a removed set normalizes to nothing or to the
    improper interval [(0, -1)]. *)
Lemma normalize_bound_zero (l : list Interval) :
  normalize_intervals l (Some 0) = []
  \/ normalize_intervals l (Some 0) = [(0, -1)].
Proof.
  rewrite normalize_bounded_eq.
  assert (Hall : Forall (fun iv => iv = (0, -1))
                   (clamp_to 0 (stable_sort leb_start (map orient l)))).
  { unfold clamp_to. apply Forall_forall. intros iv Hiv.
    apply in_map_iff in Hiv. destruct Hiv as ([s e] & <- & Hin).
    apply filter_In in Hin. destruct Hin as [_ Hf].
    apply andb_true_iff in Hf. destruct Hf as [Hs He].
    apply Z.ltb_lt in Hs. apply Z.leb_le in He.
    rewrite Z.max_l, Z.min_l by lia. reflexivity. }
  destruct (clamp_to 0 (stable_sort leb_start (map orient l))) as [|iv rest];
    [now left|right].
  inversion Hall as [|? ? Hiv Hrest]; subst.
  clear Hall. induction Hrest as [|iv rest Hiv _ IH]; [reflexivity|].
  subst iv. exact IH.
Qed.

(** The kept intervals of a removed set that is already normalized. *)
Lemma invert_to_kept_normalized (removed : list Interval) (L : Z) :
  1 <= L ->
  invert_to_kept (normalize_intervals removed (Some L)) L =
  match normalize_intervals removed (Some L) with
  | [] => [(0, L - 1)]
  | removed' => kept_loop L 0 removed'
  end.
Proof.
  intros HL. unfold invert_to_kept.
  destruct (normalize_bounded_spec removed L HL) as [Hn Hw].
  now rewrite normalize_bounded_id.
Qed.

Lemma invert_to_kept_total (removed : list Interval) (L : Z) :
  1 <= L ->
  total_len (invert_to_kept (normalize_intervals removed (Some L)) L)
  = L - total_len (normalize_intervals removed (Some L)).
Proof.
  intros HL. rewrite invert_to_kept_normalized by assumption.
  destruct (normalize_bounded_spec removed L HL) as [[Hp Hs] Hw].
  destruct (normalize_intervals removed (Some L)) as [|iv rest].
  - unfold total_len, interval_len. cbn [fold_right fst snd]. lia.
  - rewrite kept_loop_total; auto; try lia.
    + eapply Forall_impl; [ | exact Hw]. unfold within. tauto.
    + eapply Forall_impl; [ | exact Hw]. unfold within. tauto.
Qed.

(** The kept intervals are the complement of the removed ones in the
    signal. *)
Lemma covered_app (l1 l2 : list Interval) (j : Z) :
  covered (l1 ++ l2) j <-> covered l1 j \/ covered l2 j.
Proof.
  induction l1 as [|iv l1 IH]; cbn [app].
  - split; [now right|]. intros [(x & [] & _)|H]; exact H.
  - rewrite !covered_cons, IH. tauto.
Qed.

Lemma covered_nil (j : Z) : ~ covered [] j.
Proof. intros (x & [] & _). Qed.

Lemma kept_loop_covered (L : Z) (removed : list Interval) (i : Z) :
  forall cur,
  Forall (fun iv => cur <= fst iv) removed ->
  StronglySorted apart removed -> Forall proper removed ->
  Forall (fun iv => snd iv <= L - 1) removed ->
  covered (kept_loop L cur removed) i <->
  cur <= i <= L - 1 /\ ~ covered removed i.
Proof.
  induction removed as [|[s e] rest IH]; intros cur Hlo Hs Hp Hup;
    cbn [kept_loop].
  - pose proof (covered_nil i) as Hnil.
    destruct (cur <? L) eqn:Hc.
    + rewrite covered_cons. cbn [fst snd]. tauto.
    + apply Z.ltb_ge in Hc. split; [tauto|lia].
  - inversion Hlo as [|? ? Hcs _]; subst.
    inversion Hs as [|? ? Hs' Hhd]; subst.
    inversion Hp as [|? ? Hse Hp']; subst.
    inversion Hup as [|? ? He Hup']; subst.
    unfold proper in Hse. cbn [fst snd] in Hcs, Hse, He.
    assert (Hnext : Forall (fun iv => e + 1 <= fst iv) rest).
    { eapply Forall_impl; [ | exact Hhd]. unfold apart. cbn [snd].
      intros iv Hiv. lia. }
    assert (Hrest : covered rest i -> e + 1 <= i).
    { intros (iv & Hin & Hi). rewrite Forall_forall in Hnext.
      specialize (Hnext _ Hin). lia. }
    rewrite covered_app, (IH (e + 1)) by assumption.
    rewrite (covered_cons (s, e)). cbn [fst snd].
    pose proof (covered_nil i) as Hnil.
    destruct (cur <? s) eqn:Hc.
    + apply Z.ltb_lt in Hc. rewrite covered_cons. cbn [fst snd]. split.
      * intros [[H|H]|[H1 H2]].
        -- split; [lia|]. intros [H'|H']; [lia|apply Hrest in H'; lia].
        -- now apply Hnil in H.
        -- split; [lia|]. intros [H'|H']; [lia|auto].
      * intros [H1 H2]. destruct (Z_lt_le_dec i s) as [Hlt|Hge].
        -- left. left. lia.
        -- right. split.
           ++ destruct (Z_le_gt_dec i e) as [Hle|Hgt]; [|lia].
              exfalso. apply H2. left. lia.
           ++ intros H'. apply H2. now right.
    + apply Z.ltb_ge in Hc. split.
      * intros [H|[H1 H2]]; [now apply Hnil in H|].
        split; [lia|]. intros [H'|H']; [lia|auto].
      * intros [H1 H2]. right. split.
        -- destruct (Z_le_gt_dec i e) as [Hle|Hgt]; [|lia].
           exfalso. apply H2. left. lia.
        -- intros H'. apply H2. now right.
Qed.

Lemma invert_to_kept_complement (removed : list Interval) (L i : Z) :
  1 <= L ->
  covered (invert_to_kept removed L) i <->
  0 <= i <= L - 1 /\ ~ covered (normalize_intervals removed (Some L)) i.
Proof.
  intros HL. unfold invert_to_kept.
  destruct (normalize_bounded_spec removed L HL) as [[Hp Hs] Hw].
  destruct (normalize_intervals removed (Some L)) as [|iv rest].
  - pose proof (covered_nil i). rewrite covered_cons. cbn [fst snd]. tauto.
  - apply kept_loop_covered; auto.
    + eapply Forall_impl; [ | exact Hw]. unfold within. tauto.
    + eapply Forall_impl; [ | exact Hw]. unfold within. tauto.
Qed.

(** *** Slices *)

Lemma skipn_nth_error {A : Type} (x : list A) :
  forall a v, nth_error x a = Some v -> skipn a x = v :: skipn (S a) x.
Proof.
  induction x as [|w x IH]; intros [|a] v H; cbn in H; try discriminate.
  - now inversion H.
  - cbn [skipn]. rewrite (IH _ _ H). reflexivity.
Qed.

Lemma flat_map_after_map {A B C : Type} (g : A -> B) (f : B -> list C)
  (l : list A) :
  flat_map f (map g l) = flat_map (fun a => f (g a)) l.
Proof.
  induction l as [|a l IH]; cbn [map flat_map]; auto. now rewrite IH.
Qed.

Lemma firstn_skipn_samples {A : Type} (x : list A) (k : nat) :
  forall a, (a + k <= length x)%nat ->
  firstn k (skipn a x) =
  flat_map (fun j => match nth_error x (a + j) with
                     | Some v => [v]
                     | None => []
                     end) (seq 0 k).
Proof.
  induction k as [|k IH]; intros a Hak; [reflexivity|].
  destruct (nth_error x a) as [v|] eqn:Hv.
  - rewrite (skipn_nth_error _ _ _ Hv). cbn [firstn seq flat_map].
    rewrite Nat.add_0_r, Hv. cbn [app]. f_equal.
    rewrite IH by lia. rewrite <- seq_shift, flat_map_after_map.
    apply flat_map_ext. intros j. now rewrite Nat.add_succ_r.
  - apply nth_error_None in Hv. lia.
Qed.

Lemma py_slice_restrict {A : Type} (x : list A) (s e : Z) :
  0 <= s -> s <= e + 1 -> e <= Z.of_nat (length x) - 1 ->
  py_slice x s (e + 1) = restrict_to x (s, e).
Proof.
  intros Hs Hse He. unfold py_slice, slice_bound, restrict_to, interval_len.
  cbn [fst snd].
  replace (s <? 0) with false by lia. replace (e + 1 <? 0) with false by lia.
  rewrite !Z.min_l by lia.
  replace (Z.to_nat (e - s + 1)) with (Z.to_nat (e + 1 - s)) by lia.
  rewrite firstn_skipn_samples by lia.
  apply flat_map_ext. intros j. unfold sample_at.
  assert (Hj : (s + Z.of_nat j <? 0) = false) by (apply Z.ltb_ge; lia).
  rewrite Hj.
  replace (Z.to_nat (s + Z.of_nat j)) with (Z.to_nat s + j)%nat by lia.
  reflexivity.
Qed.

Lemma restrict_to_length {A : Type} (x : list A) (s e : Z) :
  0 <= s -> s <= e + 1 -> e <= Z.of_nat (length x) - 1 ->
  Z.of_nat (length (restrict_to x (s, e))) = interval_len (s, e).
Proof.
  intros Hs Hse He. rewrite <- py_slice_restrict by assumption.
  unfold py_slice, slice_bound, interval_len. cbn [fst snd].
  replace (s <? 0) with false by lia. replace (e + 1 <? 0) with false by lia.
  rewrite !Z.min_l by lia.
  rewrite length_firstn, length_skipn. lia.
Qed.

Lemma flat_map_ext_in {A B : Type} (f g : A -> list B) (l : list A) :
  (forall a, In a l -> f a = g a) -> flat_map f l = flat_map g l.
Proof.
  induction l as [|a l IH]; intros H; cbn [flat_map]; auto.
  rewrite (H a) by (now left). rewrite IH; auto.
  intros b Hb. apply H. now right.
Qed.

Lemma restricted_length {A : Type} (x : list A) (l : list Interval) :
  Forall (fun iv => 0 <= fst iv /\ fst iv <= snd iv + 1
                    /\ snd iv <= Z.of_nat (length x) - 1) l ->
  Z.of_nat (length (flat_map (restrict_to x) l)) = total_len l.
Proof.
  intros H. induction H as [|[s e] l Hiv _ IH]; [reflexivity|].
  cbn [flat_map]. rewrite length_app, Nat2Z.inj_add, IH.
  cbn [fst snd] in Hiv. rewrite restrict_to_length by lia. reflexivity.
Qed.

(** The signal returned is the concatenation of the slices, whatever the
    number of kept intervals. *)
Lemma remove_intervals_shape {A : Type} (x : list A) (removed : list Interval) :
  remove_intervals_and_build_map x removed =
  (let kept_iv := invert_to_kept
                    (normalize_intervals removed (Some (Z.of_nat (length x))))
                    (Z.of_nat (length x)) in
   (flat_map (fun '(s, e) => py_slice x s (e + 1)) kept_iv,
    from_kept_ranges kept_iv)).
Proof.
  unfold remove_intervals_and_build_map. cbv zeta.
  destruct (invert_to_kept _ _) as [|[s e] [|iv2 rest]].
  - reflexivity.
  - cbn [map flat_map]. now rewrite app_nil_r.
  - now rewrite flat_map_concat_map.
Qed.

Lemma from_kept_loop_inputs (l : list Interval) :
  forall pos,
  map (fun sp => (in_start sp, in_end sp)) (from_kept_loop pos l) = l.
Proof.
  induction l as [|[s e] l IH]; intros pos; cbn [from_kept_loop map]; auto.
  now rewrite IH.
Qed.

(** The kept intervals lie inside the signal; on the empty signal the only
    one there can be is [(0, -1)]. *)
Lemma invert_to_kept_inside (removed : list Interval) (n : nat) :
  Forall (fun iv => 0 <= fst iv /\ fst iv <= snd iv + 1
                    /\ snd iv <= Z.of_nat n - 1)
         (invert_to_kept (normalize_intervals removed (Some (Z.of_nat n)))
                         (Z.of_nat n)).
Proof.
  destruct n as [|n].
  - change (Z.of_nat 0) with 0.
    destruct (normalize_bound_zero removed) as [-> | ->].
    + repeat constructor; cbn [fst snd]; lia.
    + constructor.
  - destruct (invert_to_kept_ascending
                (normalize_intervals removed (Some (Z.of_nat (S n))))
                (Z.of_nat (S n)) ltac:(lia)) as [[Hp _] Hw].
    rewrite Forall_forall in *. intros iv Hiv.
    specialize (Hp _ Hiv). specialize (Hw _ Hiv).
    unfold proper, within in *. lia.
Qed.

(** C10.  The signal returned has the length of [x] less the number of
    samples of the removed intervals, normalized and clamped to [x]; it is
    the concatenation, in order, of the samples of [x] at the kept
    intervals; and the input sides of the kept spans of the map returned
    are those kept intervals. *)
Theorem remove_intervals_and_build_map_spec {A : Type} (x : list A)
  (removed : list Interval) :
  let n := Z.of_nat (length x) in
  let removed_n := normalize_intervals removed (Some n) in
  let kept_iv := invert_to_kept removed_n n in
  let y := fst (remove_intervals_and_build_map x removed) in
  let idx_map := snd (remove_intervals_and_build_map x removed) in
  Z.of_nat (length y) = n - total_len removed_n
  /\ y = flat_map (restrict_to x) kept_iv
  /\ map (fun sp => (in_start sp, in_end sp)) (kept idx_map) = kept_iv.
Proof.
  cbv zeta. rewrite remove_intervals_shape. cbv zeta. cbn [fst snd].
  pose proof (invert_to_kept_inside removed (length x)) as Hin.
  assert (Hy : flat_map (fun '(s, e) => py_slice x s (e + 1))
                 (invert_to_kept
                    (normalize_intervals removed (Some (Z.of_nat (length x))))
                    (Z.of_nat (length x)))
               = flat_map (restrict_to x)
                   (invert_to_kept
                      (normalize_intervals removed (Some (Z.of_nat (length x))))
                      (Z.of_nat (length x)))).
  { apply flat_map_ext_in. intros [s e] Hiv.
    rewrite Forall_forall in Hin. specialize (Hin _ Hiv). cbn [fst snd] in Hin.
    apply py_slice_restrict; lia. }
  split; [|split].
  - rewrite Hy, restricted_length by exact Hin.
    destruct (length x) as [|k] eqn:Hlen.
    + change (Z.of_nat 0) with 0.
      destruct (normalize_bound_zero removed) as [-> | ->]; reflexivity.
    + rewrite invert_to_kept_total by lia. reflexivity.
  - exact Hy.
  - unfold from_kept_ranges. cbn [kept]. apply from_kept_loop_inputs.
Qed.

(* ================================================================= *)
(** * Further properties of the code *)

(** ** Normalization *)

Lemma covered_map_orient (l : list Interval) (j : Z) :
  covered (map orient l) j <-> spanned l j.
Proof.
  unfold covered, spanned. split.
  - intros (iv & Hin & Hj). apply in_map_iff in Hin.
    destruct Hin as ([s e] & <- & Hin). exists (s, e). split; auto.
    unfold orient in Hj. cbn [fst snd] in *.
    destruct (e <? s) eqn:Hlt; cbn [fst snd] in Hj; lia.
  - intros ([s e] & Hin & Hj). exists (orient (s, e)). split.
    + now apply in_map.
    + unfold orient. cbn [fst snd] in *.
      destruct (e <? s) eqn:Hlt; cbn [fst snd]; lia.
Qed.

Lemma map_orient_proper (l : list Interval) : Forall proper (map orient l).
Proof.
  apply Forall_forall. intros iv Hiv. apply in_map_iff in Hiv.
  destruct Hiv as (x & <- & _). apply orient_proper.
Qed.

Lemma normalize_unbounded_orient (l : list Interval) :
  normalize_intervals l None = normalize_intervals (map orient l) None.
Proof.
  rewrite !normalize_unbounded_eq.
  now rewrite (map_orient_id (map orient l)) by apply map_orient_proper.
Qed.

Lemma normalize_bounded_orient (l : list Interval) (L : Z) :
  normalize_intervals l (Some L) = normalize_intervals (map orient l) (Some L).
Proof.
  rewrite !normalize_bounded_eq.
  now rewrite (map_orient_id (map orient l)) by apply map_orient_proper.
Qed.

Lemma clamp_to_covered (L : Z) (xs : list Interval) (j : Z) :
  covered (clamp_to L xs) j <-> 0 <= j <= L - 1 /\ covered xs j.
Proof.
  unfold clamp_to, covered. split.
  - intros (iv & Hin & Hj). apply in_map_iff in Hin.
    destruct Hin as ([s e] & <- & Hin). apply filter_In in Hin.
    destruct Hin as [Hin _]. cbn [fst snd] in Hj.
    split; [lia|]. exists (s, e). split; auto. cbn [fst snd]. lia.
  - intros (Hj & [s e] & Hin & Hse). cbn [fst snd] in Hse.
    exists (Z.max 0 s, Z.min (L - 1) e). split; [|cbn [fst snd]; lia].
    apply in_map_iff. exists (s, e). split; auto.
    apply filter_In. split; auto.
    apply andb_true_iff. split; [apply Z.ltb_lt|apply Z.leb_le]; lia.
Qed.

Lemma stable_sort_covered (l : list Interval) (j : Z) :
  covered (stable_sort leb_start l) j <-> covered l j.
Proof.
  unfold covered. split; intros (x & Hx & Hj); exists x; split; auto;
    now apply (stable_sort_in leb_start).
Qed.

Lemma normalize_bounded_covered (l : list Interval) (L j : Z) :
  1 <= L -> Forall proper l ->
  covered (normalize_intervals l (Some L)) j <-> 0 <= j <= L - 1 /\ covered l j.
Proof.
  intros HL Hp. rewrite normalize_bounded_eq, map_orient_id by assumption.
  rewrite <- (stable_sort_covered l j), <- clamp_to_covered.
  pose proof (clamp_to_sorted L _ (sort_by_start_ordered l)) as Hs.
  pose proof (clamp_to_proper L _ HL
                (stable_sort_forall leb_start proper l Hp)) as Hps.
  destruct (clamp_to L (stable_sort leb_start l)) as [|[cs ce] rest]; [tauto|].
  inversion Hs as [|? ? Hs' Hhd]; subst.
  inversion Hps as [|? ? Hc Hps']; subst.
  apply merge_loop_covered; auto.
Qed.

Lemma normalize_unbounded_normalized (l : list Interval) :
  normalized (normalize_intervals l None).
Proof.
  rewrite normalize_unbounded_eq.
  pose proof (sort_by_start_ordered (map orient l)) as Hs.
  pose proof (stable_sort_forall leb_start proper _ (map_orient_proper l))
    as Hp.
  destruct (stable_sort leb_start (map orient l)) as [|[cs ce] rest].
  - split; constructor.
  - inversion Hs; subst. inversion Hp; subst.
    now apply merge_loop_normalized.
Qed.

(** X1.  Without a bound the result of [normalize_intervals] is always in
    canonical form; with a bound of at least one sample it is in canonical
    form and inside the bound. *)
Theorem normalize_canonical :
  (forall l, normalized (normalize_intervals l None))
  /\ (forall l L, 1 <= L ->
        normalized (normalize_intervals l (Some L))
        /\ ascending_starts (normalize_intervals l (Some L))
        /\ Forall (within L) (normalize_intervals l (Some L))).
Proof.
  split; [exact normalize_unbounded_normalized|].
  intros l L HL. destruct (normalize_bounded_spec l L HL) as [Hn Hw].
  repeat split; try apply Hn; auto. now apply normalized_ascending.
Qed.

Lemma normalize_canonical_witness :
  normalized (normalize_intervals [(7, 3); (0, 2); (20, 30)] (Some 10))
  /\ Forall (within 10) (normalize_intervals [(7, 3); (0, 2); (20, 30)] (Some 10)).
Proof.
  destruct normalize_canonical as [_ H].
  destruct (H [(7, 3); (0, 2); (20, 30)] 10) as (Hn & _ & Hw); [lia|].
  split; assumption.
Defined.

Lemma normalize_unbounded_spanned (l : list Interval) (j : Z) :
  covered (normalize_intervals l None) j <-> spanned l j.
Proof.
  rewrite normalize_unbounded_orient.
  rewrite normalize_covered by apply map_orient_proper.
  apply covered_map_orient.
Qed.

Lemma normalize_bounded_spanned (l : list Interval) (L j : Z) :
  0 <= L ->
  covered (normalize_intervals l (Some L)) j <-> 0 <= j <= L - 1 /\ spanned l j.
Proof.
  intros HL. destruct (Z.eq_dec L 0) as [->|HL0].
  - split; [|lia].
    destruct (normalize_bound_zero l) as [-> | ->].
    + intros H. now apply covered_nil in H.
    + intros (iv & [<-|[]] & Hj). cbn [fst snd] in Hj. lia.
  - rewrite normalize_bounded_orient.
    rewrite normalize_bounded_covered by (try apply map_orient_proper; lia).
    now rewrite covered_map_orient.
Qed.

(** X2.  Normalizing neither loses nor invents positions: the result covers
    exactly the positions spanned by the given intervals (reversed pairs
    included), cut to [0, length-1] when a length is given. *)
Theorem normalize_keeps_positions (l : list Interval) (j : Z) :
  (covered (normalize_intervals l None) j <-> spanned l j)
  /\ (forall L, 0 <= L ->
        covered (normalize_intervals l (Some L)) j <->
        0 <= j <= L - 1 /\ spanned l j).
Proof.
  split; [apply normalize_unbounded_spanned|].
  intros L HL. now apply normalize_bounded_spanned.
Qed.

Lemma normalize_keeps_positions_witness :
  covered (normalize_intervals [(7, 3); (0, 2); (20, 30)] (Some 10)) 5
  <-> 0 <= 5 <= 10 - 1 /\ spanned [(7, 3); (0, 2); (20, 30)] 5.
Proof.
  destruct (normalize_keeps_positions [(7, 3); (0, 2); (20, 30)] 5) as [_ H].
  apply H. lia.
Defined.

(** X3.  Normalizing twice is normalizing once, without a bound and with
    any bound that is a length. *)
Theorem normalize_idempotent :
  (forall l, normalize_intervals (normalize_intervals l None) None
             = normalize_intervals l None)
  /\ (forall l L, 0 <= L ->
        normalize_intervals (normalize_intervals l (Some L)) (Some L)
        = normalize_intervals l (Some L)).
Proof.
  split.
  - intros l. apply normalize_unbounded_id.
    apply normalize_unbounded_normalized.
  - intros l L HL. destruct (Z.eq_dec L 0) as [->|HL0].
    + destruct (normalize_bound_zero l) as [-> | ->]; reflexivity.
    + destruct (normalize_bounded_spec l L ltac:(lia)) as [Hn Hw].
      now apply normalize_bounded_id.
Qed.

Lemma normalize_idempotent_witness :
  normalize_intervals (normalize_intervals [(-1, 0)] (Some 0)) (Some 0)
  = normalize_intervals [(-1, 0)] (Some 0).
Proof.
  destruct normalize_idempotent as [_ H]. apply H. lia.
Defined.

(** ** Merging with a gap tolerance *)

Lemma merge_intervals_eq (l : list Interval) (g : Z) :
  merge_intervals l g =
  match stable_sort leb_start l with
  | [] => []
  | (cs, ce) :: rest => merge_loop g cs ce rest
  end.
Proof. reflexivity. Qed.

Lemma merge_loop_keeps (g : Z) (rest : list Interval) (j : Z) :
  forall cs ce,
  Forall (fun iv => cs <= fst iv) rest ->
  StronglySorted (fun a b => fst a <= fst b) rest ->
  covered ((cs, ce) :: rest) j -> covered (merge_loop g cs ce rest) j.
Proof.
  induction rest as [|[s e] rest IH]; intros cs ce Hlo Hs Hc;
    cbn [merge_loop]; auto.
  inversion Hlo as [|? ? Hcs Hlo']; subst.
  inversion Hs as [|? ? Hs' Hhd]; subst. cbn [fst] in Hcs.
  rewrite !covered_cons in Hc. cbn [fst snd] in Hc.
  destruct (s <=? ce + g + 1).
  - apply IH; auto. rewrite covered_cons. cbn [fst snd].
    destruct Hc as [Hc|[Hc|Hc]]; [left; lia|left; lia|now right].
  - rewrite covered_cons. cbn [fst snd].
    destruct Hc as [Hc|Hc]; [now left|right].
    apply IH; auto. rewrite covered_cons. exact Hc.
Qed.

Lemma merge_intervals_apart (l : list Interval) (g : Z) :
  StronglySorted (fun a b => snd a + g + 1 < fst b) (merge_intervals l g).
Proof.
  rewrite merge_intervals_eq. pose proof (sort_by_start_ordered l) as Hs.
  destruct (stable_sort leb_start l) as [|[cs ce] rest]; [constructor|].
  inversion Hs; subst. now apply merge_loop_apart.
Qed.

Lemma merge_intervals_proper (l : list Interval) (g : Z) :
  Forall proper l -> Forall proper (merge_intervals l g).
Proof.
  intros Hp. rewrite merge_intervals_eq.
  pose proof (stable_sort_forall leb_start proper l Hp) as Hps.
  destruct (stable_sort leb_start l) as [|[cs ce] rest]; [constructor|].
  inversion Hps; subst. now apply merge_loop_proper.
Qed.

Lemma merge_intervals_within (l : list Interval) (g n : Z) :
  Forall (within n) l -> Forall (within n) (merge_intervals l g).
Proof.
  intros Hw. rewrite merge_intervals_eq.
  pose proof (stable_sort_forall leb_start (within n) l Hw) as Hws.
  destruct (stable_sort leb_start l) as [|[cs ce] rest]; [constructor|].
  inversion Hws as [|? ? Hc Hrest]; subst. unfold within in Hc.
  cbn [fst snd] in Hc.
  assert (H1 : Forall (fun iv => 0 <= fst iv) (merge_loop g cs ce rest)).
  { apply merge_loop_lower; [lia|].
    eapply Forall_impl; [ | exact Hrest]. unfold within. tauto. }
  assert (H2 : Forall (fun iv => snd iv <= n - 1) (merge_loop g cs ce rest)).
  { apply merge_loop_upper; [lia|].
    eapply Forall_impl; [ | exact Hrest]. unfold within. tauto. }
  rewrite Forall_forall in *. intros iv Hiv. split; auto.
Qed.

Lemma merge_intervals_keeps (l : list Interval) (g j : Z) :
  covered l j -> covered (merge_intervals l g) j.
Proof.
  intros Hc. apply stable_sort_covered in Hc. rewrite merge_intervals_eq.
  pose proof (sort_by_start_ordered l) as Hs.
  destruct (stable_sort leb_start l) as [|[cs ce] rest].
  - now apply covered_nil in Hc.
  - inversion Hs; subst. now apply merge_loop_keeps.
Qed.

(** X4.  The runs [merge_intervals] returns are more than [merge_gap + 1]
    apart from start to previous end; proper intervals give proper runs;
    intervals inside [0, n-1] give runs inside [0, n-1]; and no position
    covered by the given intervals is lost. *)
Theorem merge_intervals_sound (l : list Interval) (merge_gap : Z) :
  StronglySorted (fun a b => snd a + merge_gap + 1 < fst b)
                 (merge_intervals l merge_gap)
  /\ (Forall proper l -> Forall proper (merge_intervals l merge_gap))
  /\ (forall n, Forall (within n) l ->
        Forall (within n) (merge_intervals l merge_gap))
  /\ (forall j, covered l j -> covered (merge_intervals l merge_gap) j).
Proof.
  split; [apply merge_intervals_apart|].
  split; [apply merge_intervals_proper|].
  split; [intros n; apply merge_intervals_within|].
  intros j. apply merge_intervals_keeps.
Qed.

Lemma merge_intervals_sound_witness :
  Forall proper (merge_intervals [(4, 9); (0, 2); (12, 13)] 1)
  /\ Forall (within 20) (merge_intervals [(4, 9); (0, 2); (12, 13)] 1)
  /\ covered (merge_intervals [(4, 9); (0, 2); (12, 13)] 1) 12.
Proof.
  destruct (merge_intervals_sound [(4, 9); (0, 2); (12, 13)] 1)
    as (_ & Hp & Hw & Hc).
  split; [|split].
  - apply Hp. repeat constructor; unfold proper; cbn [fst snd]; lia.
  - apply Hw. repeat constructor; unfold within; cbn [fst snd]; lia.
  - apply Hc. exists (12, 13). split; [right; right; now left|].
    cbn [fst snd]. lia.
Defined.

(** X5.  On proper intervals, merging with gap 0 is normalizing without a
    bound. *)
Theorem merge_gap_zero_is_normalize (l : list Interval) :
  Forall proper l -> merge_intervals l 0 = normalize_intervals l None.
Proof.
  intros Hp. rewrite merge_intervals_eq, normalize_unbounded_eq.
  now rewrite map_orient_id.
Qed.

Lemma merge_gap_zero_is_normalize_witness :
  merge_intervals [(3, 5); (0, 2); (9, 9)] 0
  = normalize_intervals [(3, 5); (0, 2); (9, 9)] None.
Proof.
  apply merge_gap_zero_is_normalize.
  repeat constructor; unfold proper; cbn [fst snd]; lia.
Defined.

(** X6.  What [merge_intervals] returns for proper intervals inside
    [0, n-1] and a gap tolerance that is not negative is already normalized
    over [n]: the [normalize_intervals(..., n)] that the pipeline applies to
    a detector's result leaves it as it is. *)
Theorem merged_is_normalized (l : list Interval) (merge_gap n : Z) :
  0 <= merge_gap -> Forall proper l -> Forall (within n) l ->
  normalize_intervals (merge_intervals l merge_gap) (Some n)
  = merge_intervals l merge_gap.
Proof.
  intros Hg Hp Hw. apply normalize_bounded_id.
  - split; [now apply merge_intervals_proper|].
    eapply strongly_sorted_weaken; [ | apply merge_intervals_apart].
    unfold apart. cbv beta. intros a b H. lia.
  - now apply merge_intervals_within.
Qed.

Lemma merged_is_normalized_witness :
  normalize_intervals (merge_intervals [(4, 9); (0, 2); (12, 13)] 1) (Some 20)
  = merge_intervals [(4, 9); (0, 2); (12, 13)] 1.
Proof.
  apply merged_is_normalized.
  - lia.
  - repeat constructor; unfold proper; cbn [fst snd]; lia.
  - repeat constructor; unfold within; cbn [fst snd]; lia.
Defined.

(** ** The complement and the map built from it *)

Lemma kept_loop_apart (L : Z) (removed : list Interval) :
  forall cur, Forall (fun iv => cur <= fst iv) removed ->
  StronglySorted apart removed -> Forall proper removed ->
  StronglySorted apart (kept_loop L cur removed).
Proof.
  induction removed as [|[s e] rest IH]; intros cur Hlo Hs Hp; cbn [kept_loop].
  - destruct (cur <? L); repeat constructor.
  - inversion Hlo as [|? ? Hcs _]; subst.
    inversion Hs as [|? ? Hs' Hhd]; subst.
    inversion Hp as [|? ? Hse Hp']; subst.
    unfold proper in Hse. cbn [fst snd] in Hcs, Hse.
    assert (Hnext : Forall (fun iv => e + 1 <= fst iv) rest).
    { eapply Forall_impl; [ | exact Hhd]. unfold apart. cbn [snd].
      intros iv Hiv. lia. }
    pose proof (kept_loop_lower L rest (e + 1) Hnext Hs' Hp') as Hlow.
    destruct (cur <? s); cbn [app]; [|now apply IH].
    constructor; [now apply IH|].
    eapply Forall_impl; [ | exact Hlow]. unfold apart. cbn [snd].
    intros iv Hiv. lia.
Qed.

Lemma invert_to_kept_normalized_result (removed : list Interval) (L : Z) :
  1 <= L -> normalized (invert_to_kept removed L).
Proof.
  intros HL. split; [apply (invert_to_kept_ascending removed L HL)|].
  unfold invert_to_kept.
  destruct (normalize_bounded_spec removed L HL) as [[Hp Hs] Hw].
  destruct (normalize_intervals removed (Some L)) as [|iv rest];
    [repeat constructor|].
  apply kept_loop_apart; auto.
  eapply Forall_impl; [ | exact Hw]. unfold within. tauto.
Qed.

(** X7.  On a signal of at least one sample the kept intervals are in
    canonical form, lie inside the signal, and cover exactly the positions
    of the signal that no removed interval spans. *)
Theorem invert_to_kept_is_complement (removed : list Interval) (length : Z) :
  1 <= length ->
  normalized (invert_to_kept removed length)
  /\ Forall (within length) (invert_to_kept removed length)
  /\ forall i, covered (invert_to_kept removed length) i <->
               0 <= i <= length - 1 /\ ~ spanned removed i.
Proof.
  intros HL. split; [now apply invert_to_kept_normalized_result|].
  split; [apply (invert_to_kept_ascending removed length HL)|].
  intros i. rewrite invert_to_kept_complement by assumption.
  rewrite normalize_bounded_spanned by lia. tauto.
Qed.

Lemma invert_to_kept_is_complement_witness :
  normalized (invert_to_kept [(4, 2); (8, 20)] 10)
  /\ (covered (invert_to_kept [(4, 2); (8, 20)] 10) 5 <->
      0 <= 5 <= 10 - 1 /\ ~ spanned [(4, 2); (8, 20)] 5).
Proof.
  destruct (invert_to_kept_is_complement [(4, 2); (8, 20)] 10) as (Hn & _ & Hc);
    [lia|].
  split; [exact Hn|apply Hc].
Defined.

Lemma kept_loop_nil (L : Z) (removed : list Interval) :
  forall cur, 0 <= cur ->
  Forall (fun iv => cur <= fst iv) removed ->
  StronglySorted apart removed -> Forall proper removed ->
  Forall (fun iv => snd iv <= L - 1) removed ->
  kept_loop L cur removed = [] ->
  (removed = [] /\ L <= cur) \/ removed = [(cur, L - 1)].
Proof.
  intros cur Hcur Hlo Hs Hp Hup Hnil.
  destruct removed as [|[s e] rest]; cbn [kept_loop] in Hnil.
  - left. split; auto. destruct (cur <? L) eqn:Hc; [discriminate|].
    now apply Z.ltb_ge in Hc.
  - right. apply app_eq_nil in Hnil. destruct Hnil as [Hhead Htail].
    inversion Hlo as [|? ? Hcs _]; subst.
    inversion Hs as [|? ? Hs' Hhd]; subst.
    inversion Hp as [|? ? Hse Hp']; subst.
    inversion Hup as [|? ? He Hup']; subst.
    unfold proper in Hse. cbn [fst snd] in Hcs, Hse, He.
    destruct (cur <? s) eqn:Hc; [discriminate|]. apply Z.ltb_ge in Hc.
    destruct rest as [|[s' e'] rest']; cbn [kept_loop] in Htail.
    + destruct (e + 1 <? L) eqn:Hc'; [discriminate|]. apply Z.ltb_ge in Hc'.
      f_equal. f_equal; lia.
    + inversion Hhd as [|? ? Ha _]; subst. unfold apart in Ha.
      cbn [fst snd] in Ha.
      replace (e + 1 <? s') with true in Htail by lia. discriminate.
Qed.

(** X8.  On a signal of at least one sample no interval is kept exactly
    when the removed intervals normalize to the whole of [0, length-1]. *)
Theorem invert_to_kept_empty_iff (removed : list Interval) (length : Z) :
  1 <= length ->
  invert_to_kept removed length = [] <->
  normalize_intervals removed (Some length) = [(0, length - 1)].
Proof.
  intros HL. unfold invert_to_kept.
  destruct (normalize_bounded_spec removed length HL) as [[Hp Hs] Hw].
  destruct (normalize_intervals removed (Some length)) as [|iv rest] eqn:Hr.
  - split; discriminate.
  - split.
    + intros Hnil. apply kept_loop_nil in Hnil; auto; try lia.
      * destruct Hnil as [[H _]|H]; [discriminate|exact H].
      * eapply Forall_impl; [ | exact Hw]. unfold within. tauto.
      * eapply Forall_impl; [ | exact Hw]. unfold within. tauto.
    + intros H. rewrite H. cbn [kept_loop app].
      rewrite Z.ltb_irrefl. cbn [app].
      replace (length - 1 + 1 <? length) with false by lia. reflexivity.
Qed.

Lemma invert_to_kept_empty_iff_witness :
  invert_to_kept [(5, 30); (-3, 4)] 10 = [] <->
  normalize_intervals [(5, 30); (-3, 4)] (Some 10) = [(0, 10 - 1)].
Proof. apply invert_to_kept_empty_iff. lia. Defined.

Lemma out_len_from_kept_loop (l : list Interval) :
  forall pos, out_len (mkIndexMap (from_kept_loop pos l)) = total_len l.
Proof.
  induction l as [|[s e] l IH]; intros pos; [reflexivity|].
  cbn [from_kept_loop]. rewrite out_len_cons, total_len_cons, IH.
  reflexivity.
Qed.

Lemma invert_to_kept_total_raw (removed : list Interval) (L : Z) :
  0 <= L ->
  total_len (invert_to_kept removed L)
  = L - total_len (normalize_intervals removed (Some L)).
Proof.
  intros HL. destruct (Z.eq_dec L 0) as [->|HL0].
  - unfold invert_to_kept.
    destruct (normalize_bound_zero removed) as [-> | ->]; reflexivity.
  - unfold invert_to_kept.
    destruct (normalize_bounded_spec removed L ltac:(lia)) as [[Hp Hs] Hw].
    destruct (normalize_intervals removed (Some L)) as [|iv rest].
    + unfold total_len, interval_len. cbn [fold_right fst snd]. lia.
    + rewrite kept_loop_total; auto; try lia.
      * eapply Forall_impl; [ | exact Hw]. unfold within. tauto.
      * eapply Forall_impl; [ | exact Hw]. unfold within. tauto.
Qed.

(** X9.  The output length of the map that removes intervals from a signal
    of [in_len] samples is [in_len] less the number of samples of the
    removed intervals once normalized over [in_len]. *)
Theorem from_removed_ranges_out_len (removed_in : list Interval) (in_len : Z) :
  0 <= in_len ->
  out_len (from_removed_ranges removed_in in_len)
  = in_len - total_len (normalize_intervals removed_in (Some in_len)).
Proof.
  intros HL. unfold from_removed_ranges, from_kept_ranges.
  rewrite out_len_from_kept_loop. now apply invert_to_kept_total_raw.
Qed.

Lemma from_removed_ranges_out_len_witness :
  out_len (from_removed_ranges [(2, 4)] 10)
  = 10 - total_len (normalize_intervals [(2, 4)] (Some 10)).
Proof. apply from_removed_ranges_out_len. lia. Defined.

(** ** The backward projection *)

Lemma preimage_in_span_beyond (s e : Z) (sp : Span) :
  e < s \/ e < out_start sp \/ out_end sp < s -> preimage_in_span s e sp = [].
Proof.
  intros H. unfold preimage_in_span.
  destruct (Z.max s (out_start sp) <=? Z.min e (out_end sp)) eqn:Hle; auto.
  apply Z.leb_le in Hle. lia.
Qed.

Lemma preimages_beyond (s e : Z) (l : list Span) :
  Forall (fun sp => e < s \/ e < out_start sp \/ out_end sp < s) l ->
  flat_map (preimage_in_span s e) l = [].
Proof.
  intros H. induction H as [|sp l Hsp _ IH]; cbn [flat_map]; auto.
  now rewrite preimage_in_span_beyond, IH.
Qed.

Lemma preimages_shift (c1 c2 e : Z) (l : list Span) :
  Forall (fun sp => c1 <= out_start sp /\ c2 <= out_start sp) l ->
  flat_map (preimage_in_span c1 e) l = flat_map (preimage_in_span c2 e) l.
Proof.
  intros H. induction H as [|sp l Hsp _ IH]; cbn [flat_map]; auto.
  rewrite IH. f_equal. unfold preimage_in_span.
  rewrite !Z.max_r by lia. reflexivity.
Qed.

Lemma backward_from_skip (sp0 : Span) (l : list Span) (e : Z) :
  forall cur, out_end sp0 < cur ->
  backward_from (sp0 :: l) e cur = backward_from l e cur.
Proof.
  apply (walk_ind e (fun cur => out_end sp0 < cur ->
           backward_from (sp0 :: l) e cur = backward_from l e cur)).
  - intros cur Hlt _. now rewrite !backward_from_done.
  - intros cur Hle IH Hc.
    rewrite (backward_from_eq (sp0 :: l)), (backward_from_eq l).
    destruct (cur <=? e); [|reflexivity]. cbn [find].
    assert (H1 : covers_out cur sp0 = false).
    { destruct (covers_out cur sp0) eqn:Hcov; auto.
      apply covers_out_spec in Hcov. lia. }
    rewrite H1.
    destruct (find (covers_out cur) l) as [[[[si ei] so] eo]|] eqn:Hf.
    + apply find_some in Hf. destruct Hf as [_ Hcov].
      apply covers_out_spec in Hcov. cbn [out_start out_end] in Hcov.
      f_equal. apply IH; lia.
    + apply IH; lia.
Qed.

(** From a position at or after the first output position, the walk appends,
    span by span, the translated preimage of what is left of the interval. *)
Lemma backward_from_preimages (l : list Span) (e : Z) :
  forall pos, chained pos l ->
  forall cur, pos <= cur ->
  backward_from l e cur = flat_map (preimage_in_span cur e) l.
Proof.
  induction l as [|sp0 l IH]; intros pos H cur Hpos.
  - cbn [flat_map]. rewrite backward_from_eq. cbn [find].
    destruct (cur <=? e); [|reflexivity]. apply backward_from_done. lia.
  - pose proof (chained_out_after _ _ _ H) as Hafter.
    pose proof (chained_tail _ _ _ H) as Htail.
    destruct H as (Hso & Hwf & _ & _).
    destruct sp0 as [[[si ei] so] eo].
    unfold span_wf in Hwf. cbn [in_start in_end out_start out_end] in *.
    specialize (IH _ Htail). subst so.
    destruct (Z_lt_le_dec e cur) as [Hdone|Hle].
    { rewrite backward_from_done by lia. symmetry. apply preimages_beyond.
      apply Forall_forall. intros; lia. }
    destruct (Z_lt_le_dec eo cur) as [Hpast|Hin].
    { rewrite backward_from_skip by (cbn [out_end]; lia).
      rewrite IH by lia. cbn [flat_map].
      rewrite preimage_in_span_beyond by (cbn [out_start out_end]; lia).
      reflexivity. }
    rewrite backward_from_eq. replace (cur <=? e) with true by lia.
    cbn [find].
    replace (covers_out cur (si, ei, pos, eo)) with true
      by (symmetry; apply covers_out_spec; cbn [out_start out_end]; lia).
    cbn [flat_map]. unfold preimage_in_span at 1.
    cbn [in_start out_start out_end].
    replace (Z.max cur pos <=? Z.min e eo) with true by lia.
    rewrite (Z.max_l cur pos) by lia. cbn [app].
    destruct (Z_lt_le_dec eo e) as [Hlt|Hge].
    + rewrite Z.min_r by lia.
      rewrite backward_from_skip by (cbn [out_end]; lia).
      rewrite IH by lia. f_equal. apply preimages_shift.
      eapply Forall_impl; [ | exact Hafter]. intros sp' Hsp'.
      cbv beta in Hsp'. lia.
    + rewrite Z.min_l by lia. rewrite backward_from_done by lia.
      f_equal. symmetry. apply preimages_beyond.
      eapply Forall_impl; [ | exact Hafter]. intros sp' Hsp'.
      cbv beta in Hsp'. lia.
Qed.

Lemma preimage_in_span_proper (s e : Z) (sp : Span) :
  Forall proper (preimage_in_span s e sp).
Proof.
  unfold preimage_in_span.
  destruct (Z.max s (out_start sp) <=? Z.min e (out_end sp)) eqn:H;
    constructor; auto.
  apply Z.leb_le in H. unfold proper. cbn [fst snd]. lia.
Qed.

Lemma preimage_in_span_covered (s e : Z) (sp : Span) (i : Z) :
  covered (preimage_in_span s e sp) i <->
  exists j, s <= j <= e /\ out_start sp <= j <= out_end sp
            /\ i = in_start sp + (j - out_start sp).
Proof.
  unfold preimage_in_span, covered.
  destruct (Z.max s (out_start sp) <=? Z.min e (out_end sp)) eqn:Hle.
  - apply Z.leb_le in Hle. split.
    + intros (iv & [<-|[]] & Hi). cbn [fst snd] in Hi.
      exists (i - in_start sp + out_start sp). lia.
    + intros (j & Hj & Hsp & ->). eexists. split; [now left|].
      cbn [fst snd]. lia.
  - apply Z.leb_gt in Hle. split.
    + intros (iv & [] & _).
    + intros (j & Hj & Hsp & _). lia.
Qed.

Lemma covered_flat_map {A : Type} (f : A -> list Interval) (l : list A) (j : Z) :
  covered (flat_map f l) j <-> exists a, In a l /\ covered (f a) j.
Proof.
  unfold covered. split.
  - intros (iv & Hin & Hj). apply in_flat_map in Hin.
    destruct Hin as (a & Ha & Hiv). eauto.
  - intros (a & Ha & iv & Hiv & Hj). exists iv. split; auto.
    apply in_flat_map. eauto.
Qed.

Lemma forall_flat_map {A B : Type} (P : B -> Prop) (f : A -> list B)
  (l : list A) :
  (forall a, In a l -> Forall P (f a)) -> Forall P (flat_map f l).
Proof.
  intros H. apply Forall_forall. intros b Hb. apply in_flat_map in Hb.
  destruct Hb as (a & Ha & Hb). specialize (H a Ha).
  rewrite Forall_forall in H. auto.
Qed.

(** X10.  On a map that satisfies the invariant, the backward projection of
    intervals whose starts are not negative covers exactly the input
    positions whose images the intervals cover: every position of the
    intervals inside [0, Lout-1] is mapped back, and nothing else is. *)
Theorem backward_covers_preimages (m : IndexMap) (intervals_out : list Interval)
  (i : Z) :
  kept_span_invariant m ->
  Forall (fun iv => 0 <= fst iv) intervals_out ->
  covered (project_intervals_output_to_input m intervals_out) i <->
  exists j, covered intervals_out j /\
    exists sp, In sp (kept m) /\ out_start sp <= j <= out_end sp
               /\ i = in_start sp + (j - out_start sp).
Proof.
  intros Hinv Hnn. apply invariant_chain in Hinv.
  rewrite project_backward_flat.
  assert (Heq : flat_map (fun '(s, e) => backward_from (kept m) e s) intervals_out
                = flat_map (fun '(s, e) =>
                              flat_map (preimage_in_span s e) (kept m))
                           intervals_out).
  { apply flat_map_ext_in. intros [s e] Hin.
    rewrite Forall_forall in Hnn. specialize (Hnn _ Hin). cbn [fst] in Hnn.
    now apply (backward_from_preimages _ _ 0). }
  rewrite Heq. rewrite normalize_covered.
  - rewrite covered_flat_map. split.
    + intros ([s e] & Hin & Hc). apply covered_flat_map in Hc.
      destruct Hc as (sp & Hsp & Hc). apply preimage_in_span_covered in Hc.
      destruct Hc as (j & Hj & Hjs & ->). exists j. split.
      * exists (s, e). split; auto.
      * exists sp. auto.
    + intros (j & ([s e] & Hin & Hj) & sp & Hsp & Hjs & ->).
      exists (s, e). split; auto. apply covered_flat_map.
      exists sp. split; auto. apply preimage_in_span_covered.
      exists j. cbn [fst snd] in Hj. auto.
  - apply forall_flat_map. intros [s e] _. apply forall_flat_map.
    intros sp _. apply preimage_in_span_proper.
Qed.

Lemma backward_covers_preimages_witness :
  covered (project_intervals_output_to_input map_remove_2_4 [(1, 3)]) 6 <->
  exists j, covered [(1, 3)] j /\
    exists sp, In sp (kept map_remove_2_4) /\ out_start sp <= j <= out_end sp
               /\ 6 = in_start sp + (j - out_start sp).
Proof.
  apply backward_covers_preimages.
  - apply chainedb_invariant. reflexivity.
  - repeat constructor. cbn [fst]. lia.
Defined.

(** Every chunk the backward walk appends is a proper interval inside the
    input side of a kept span. *)
Lemma backward_from_inside (l : list Span) (e : Z) :
  Forall (fun sp => in_end sp - in_start sp = out_end sp - out_start sp) l ->
  forall cur,
  Forall (fun iv => proper iv /\
            exists sp, In sp l /\ in_start sp <= fst iv /\ snd iv <= in_end sp)
         (backward_from l e cur).
Proof.
  intros Hlen.
  apply (walk_ind e (fun cur =>
    Forall (fun iv => proper iv /\
              exists sp, In sp l /\ in_start sp <= fst iv /\ snd iv <= in_end sp)
           (backward_from l e cur))).
  - intros cur Hlt. rewrite backward_from_done by lia. constructor.
  - intros cur Hle IH. rewrite backward_from_eq.
    replace (cur <=? e) with true by lia.
    destruct (find (covers_out cur) l) as [[[[si ei] so] eo]|] eqn:Hf.
    + apply find_some in Hf. destruct Hf as [Hin Hc].
      apply covers_out_spec in Hc. cbn [out_start out_end] in Hc.
      rewrite Forall_forall in Hlen. pose proof (Hlen _ Hin) as Hl.
      cbn [in_start in_end out_start out_end] in Hl.
      constructor; [|apply IH; lia].
      split; [unfold proper; cbn [fst snd]; lia|].
      exists (si, ei, so, eo). split; auto.
      cbn [in_start in_end fst snd]. lia.
    + apply IH. lia.
Qed.

Lemma backward_in_kept (m : IndexMap) (intervals_out : list Interval) (i : Z) :
  lengths_agree m ->
  covered (project_intervals_output_to_input m intervals_out) i ->
  in_kept m i.
Proof.
  intros Hlen Hc. rewrite project_backward_flat in Hc.
  assert (Hall : Forall (fun iv => proper iv /\
                   exists sp, In sp (kept m)
                              /\ in_start sp <= fst iv /\ snd iv <= in_end sp)
                 (flat_map (fun '(s, e) => backward_from (kept m) e s)
                           intervals_out)).
  { apply forall_flat_map. intros [s e] _. now apply backward_from_inside. }
  rewrite normalize_covered in Hc.
  - destruct Hc as (iv & Hin & Hi). rewrite Forall_forall in Hall.
    destruct (Hall _ Hin) as (_ & sp & Hsp & Hlo & Hhi).
    exists sp. split; auto. lia.
  - eapply Forall_impl; [ | exact Hall]. cbv beta. tauto.
Qed.

(** X11.  Whatever intervals it is given, the backward projection of a map
    whose spans have sides of equal length covers kept input positions
    only. *)
Theorem backward_lands_in_kept (m : IndexMap) (intervals_out : list Interval)
  (i : Z) :
  lengths_agree m ->
  covered (project_intervals_output_to_input m intervals_out) i ->
  in_kept m i.
Proof. apply backward_in_kept. Qed.

Lemma backward_lands_in_kept_witness : in_kept map_remove_2_4 5.
Proof.
  apply (backward_lands_in_kept map_remove_2_4 [(0, 3)] 5).
  - repeat constructor.
  - exists (5, 6). split; [right; now left|]. cbn [fst snd]. lia.
Defined.

(** X12.  The round trip from the output side: in a map that satisfies the
    invariant every output position [j] of [0, Lout-1] is projected back to
    one kept input position, and forward again to [(j, j)]. *)
Theorem backward_forward_round_trip (m : IndexMap) (j : Z) :
  kept_span_invariant m -> 0 <= j <= out_len m - 1 ->
  (exists i, project_intervals_output_to_input m [(j, j)] = [(i, i)]
             /\ in_kept m i)
  /\ project_intervals_input_to_output m
       (project_intervals_output_to_input m [(j, j)]) = [(j, j)].
Proof.
  intros Hinv Hj. pose proof Hinv as (_ & _ & _ & _ & Hcov).
  apply invariant_chain in Hinv.
  destruct (proj1 (Hcov j) Hj) as (sp & Hin & Hc).
  pose proof (find_covers_out_chained _ _ _ _ Hinv Hin Hc) as Hf.
  assert (Hwf : span_wf sp).
  { pose proof (chained_wf _ _ Hinv) as Hall.
    rewrite Forall_forall in Hall. auto. }
  destruct sp as [[[si ei] so] eo].
  unfold span_wf in Hwf. cbn [in_start in_end out_start out_end] in *.
  assert (Hbwd : project_intervals_output_to_input m [(j, j)]
                 = [(si + (j - so), si + (j - so))]).
  { rewrite project_backward_one, backward_from_eq, Z.leb_refl, Hf.
    rewrite backward_from_done by lia.
    rewrite Z.min_l by lia. apply normalize_single. lia. }
  split.
  - exists (si + (j - so)). split; auto.
    exists (si, ei, so, eo). split; auto. cbn [in_start in_end]. lia.
  - rewrite Hbwd, project_forward_one, forward_from_eq, Z.leb_refl.
    rewrite (find_covers_in_chained _ _ (si, ei, so, eo) _ Hinv Hin)
      by (cbn [in_start in_end]; lia).
    rewrite forward_from_done by lia.
    rewrite Z.min_l by lia.
    replace (so + (si + (j - so) - si)) with j by lia.
    apply normalize_single. lia.
Qed.

Lemma backward_forward_round_trip_witness :
  project_intervals_input_to_output map_remove_2_4
    (project_intervals_output_to_input map_remove_2_4 [(4, 4)]) = [(4, 4)].
Proof.
  apply (backward_forward_round_trip map_remove_2_4 4).
  - apply chainedb_invariant. reflexivity.
  - change (out_len map_remove_2_4) with 7. lia.
Defined.

(** ** The forward projection *)

Lemma kept_below_nonneg (l : list Span) (x : Z) : 0 <= kept_below l x.
Proof. induction l as [|sp l IH]; cbn [kept_below]; lia. Qed.

Lemma kept_below_le_out_len (l : list Span) (x : Z) :
  Forall span_wf l -> kept_below l x <= out_len (mkIndexMap l).
Proof.
  intros H. induction H as [|sp l Hsp _ IH]; [reflexivity|].
  cbn [kept_below]. rewrite out_len_cons.
  unfold span_wf in Hsp. unfold span_len. lia.
Qed.

(** X13.  In a map that satisfies the invariant the forward projection of
    one interval is empty or a single interval; that interval lies inside
    [0, Lout-1] and is no longer than the interval projected. *)
Theorem forward_single_run (m : IndexMap) (s e : Z) :
  kept_span_invariant m -> s <= e ->
  project_intervals_input_to_output m [(s, e)] = []
  \/ exists a b, project_intervals_input_to_output m [(s, e)] = [(a, b)]
                 /\ 0 <= a <= b /\ b <= out_len m - 1 /\ b - a <= e - s.
Proof.
  intros Hinv Hse. apply invariant_chain in Hinv.
  rewrite (project_forward_chained m 0) by (auto; lia).
  destruct (0 + kept_below (kept m) s <=? 0 + kept_below (kept m) (e + 1) - 1)
    eqn:Hle; [right|now left].
  apply Z.leb_le in Hle. do 2 eexists. split; [reflexivity|].
  pose proof (kept_below_nonneg (kept m) s).
  pose proof (kept_below_le_out_len (kept m) (e + 1) (chained_wf _ _ Hinv)) as Hup.
  pose proof (kept_below_lipschitz _ _ Hinv s (e + 1) ltac:(lia)).
  destruct m as [l]. cbn [kept] in *. lia.
Qed.

Lemma forward_single_run_witness :
  project_intervals_input_to_output map_remove_2_4 [(1, 7)] = []
  \/ exists a b, project_intervals_input_to_output map_remove_2_4 [(1, 7)] = [(a, b)]
                 /\ 0 <= a <= b /\ b <= out_len map_remove_2_4 - 1
                 /\ b - a <= 7 - 1.
Proof.
  apply forward_single_run.
  - apply chainedb_invariant. reflexivity.
  - lia.
Defined.

(** ** Composition: what it gets right *)

Lemma out_len_app (l1 l2 : list Span) :
  out_len (mkIndexMap (l1 ++ l2))
  = out_len (mkIndexMap l1) + out_len (mkIndexMap l2).
Proof.
  induction l1 as [|sp l1 IH]; [reflexivity|].
  cbn [app]. rewrite !out_len_cons, IH. lia.
Qed.

Lemma span_eq (a b c d a' b' c' d' : Z) :
  a = a' -> b = b' -> c = c' -> d = d' -> (a, b, c, d) = (a', b', c', d').
Proof. intros -> -> -> ->. reflexivity. Qed.

Lemma composed_kept_out_len (other : IndexMap) (pos2 : Z) (l : list Span) :
  chained pos2 (kept other) ->
  forall pos1, chained pos1 l ->
  out_len (mkIndexMap (composed_kept (mkIndexMap l) other))
  = kept_below (kept other) (pos1 + out_len (mkIndexMap l))
    - kept_below (kept other) pos1.
Proof.
  intros H2. unfold composed_kept. cbn [kept].
  induction l as [|sp l IH]; intros pos1 H1.
  - cbn [flat_map]. unfold out_len at 1 2. cbn [kept fold_right].
    rewrite Z.add_0_r. lia.
  - pose proof (chained_tail _ _ _ H1) as Htail.
    destruct H1 as (Hpos & Hwf & _ & _).
    destruct sp as [[[si ei] so] eo]. unfold span_wf in Hwf.
    cbn [in_start in_end out_start out_end] in *. subst so.
    specialize (IH _ Htail). cbn [flat_map].
    rewrite out_len_app, IH, out_len_cons.
    rewrite (composed_span_shape _ pos2) by (auto; lia).
    unfold span_len at 1. cbn [in_start in_end].
    replace (pos1 + (ei - si + 1 + out_len {| kept := l |}))
      with (eo + 1 + out_len {| kept := l |}) by lia.
    pose proof (kept_below_mono (kept other) pos1 (eo + 1) ltac:(lia)) as Hmono.
    destruct (kept_below (kept other) pos1 <? kept_below (kept other) (eo + 1))
      eqn:Hlt.
    + rewrite out_len_cons. unfold span_len. cbn [in_start in_end].
      change (out_len {| kept := [] |}) with 0. lia.
    + apply Z.ltb_ge in Hlt. change (out_len {| kept := [] |}) with 0. lia.
Qed.

Lemma coalesce_out_len (rest : list Span) :
  forall cur, out_len (mkIndexMap (coalesce cur rest))
              = out_len (mkIndexMap (cur :: rest)).
Proof.
  induction rest as [|seg rest IH]; intros cur; cbn [coalesce]; auto.
  destruct cur as [[[pi_s pi_e] po_s] po_e].
  destruct seg as [[[ci_s ci_e] co_s] co_e].
  destruct ((pi_e + 1 =? ci_s) && (po_e + 1 =? co_s)) eqn:Hc.
  - apply andb_true_iff in Hc. destruct Hc as [Hi _]. apply Z.eqb_eq in Hi.
    rewrite IH, !out_len_cons. unfold span_len. cbn [in_start in_end]. lia.
  - rewrite !out_len_cons, IH, out_len_cons. reflexivity.
Qed.

Lemma kept_below_all (l : list Span) (x : Z) :
  Forall span_wf l -> Forall (fun sp => in_end sp + 1 <= x) l ->
  kept_below l x = out_len (mkIndexMap l).
Proof.
  intros Hwf. induction Hwf as [|sp l Hsp _ IH]; intros Hx; [reflexivity|].
  inversion Hx as [|? ? Hspx Hx']; subst.
  cbn [kept_below]. rewrite out_len_cons, IH by assumption.
  unfold span_wf in Hsp. unfold span_len. lia.
Qed.

Lemma compose_eq_coalesce (m1 m2 : IndexMap) (pos : Z) :
  chained pos (composed_kept m1 m2) ->
  kept (compose m1 m2) =
  match composed_kept m1 m2 with
  | [] => []
  | cur :: rest => coalesce cur rest
  end.
Proof.
  intros Hc. unfold compose. cbn [kept].
  rewrite (stable_sort_sorted leb_in_out) by (eapply chained_sorted_leb, Hc).
  apply merge_adjacent_coalesce.
Qed.

Lemma compose_out_len_chained (m1 m2 : IndexMap) :
  chained 0 (kept m1) -> chained 0 (kept m2) ->
  Forall (fun sp => 0 <= in_start sp /\ in_end sp <= out_len m1 - 1) (kept m2) ->
  out_len (compose m1 m2) = out_len m2.
Proof.
  intros H1 H2 Hin.
  destruct m1 as [l1]. cbn [kept] in H1.
  pose proof (composed_kept_chained m2 0 l1 H2 0 H1) as Hc.
  pose proof (composed_kept_out_len m2 0 l1 H2 0 H1) as Hlen.
  assert (Hk : out_len (compose {| kept := l1 |} m2)
               = out_len (mkIndexMap (composed_kept {| kept := l1 |} m2))).
  { unfold out_len at 1. rewrite (compose_eq_coalesce _ _ _ Hc).
    destruct (composed_kept {| kept := l1 |} m2) as [|cur rest]; [reflexivity|].
    apply coalesce_out_len. }
  rewrite Hk, Hlen.
  rewrite (kept_below_before (kept m2) 0)
    by (eapply Forall_impl; [ | exact Hin]; cbv beta; tauto).
  rewrite kept_below_all.
  - destruct m2 as [l2]. cbn [kept]. lia.
  - eapply chained_wf, H2.
  - eapply Forall_impl; [ | exact Hin]. cbv beta. intros sp Hsp. lia.
Qed.

(** X14.  When both maps satisfy the invariant and the input side of the
    second lies inside the output range of the first, the composed map has
    the output length of the second. *)
Theorem compose_out_len (m1 m2 : IndexMap) :
  kept_span_invariant m1 -> kept_span_invariant m2 ->
  Forall (fun sp => 0 <= in_start sp /\ in_end sp <= out_len m1 - 1) (kept m2) ->
  out_len (compose m1 m2) = out_len m2.
Proof.
  intros H1 H2 Hin. apply compose_out_len_chained; auto;
    now apply invariant_chain.
Qed.

Lemma compose_out_len_witness :
  out_len (compose map_remove_5_9 map_remove_2_4) = out_len map_remove_2_4.
Proof.
  apply compose_out_len.
  - apply chainedb_invariant. reflexivity.
  - apply chainedb_invariant. reflexivity.
  - change (out_len map_remove_5_9) with 10.
    repeat constructor; cbn [in_start in_end]; lia.
Defined.

Lemma coalesce_apart (rest : list Span) :
  forall cur,
  StronglySorted (fun a b => in_end a + 1 < in_start b) (cur :: rest) ->
  coalesce cur rest = cur :: rest.
Proof.
  induction rest as [|seg rest IH]; intros cur H; cbn [coalesce]; auto.
  inversion H as [|? ? Hrest Hhd]; subst.
  inversion Hhd as [|? ? Hcs _]; subst.
  destruct cur as [[[pi_s pi_e] po_s] po_e].
  destruct seg as [[[ci_s ci_e] co_s] co_e].
  cbn [in_start in_end] in Hcs.
  replace (pi_e + 1 =? ci_s) with false by lia. cbn [andb].
  f_equal. now apply IH.
Qed.

Lemma composed_with_identity (l : list Span) (L : Z) :
  Forall span_wf l ->
  Forall (fun sp => 0 <= out_start sp /\ out_end sp <= L - 1) l ->
  1 <= L ->
  composed_kept (mkIndexMap l) (from_removed_ranges [] L) = l.
Proof.
  intros Hwf Hout HL. unfold composed_kept. cbn [kept].
  assert (Hid : chained 0 (kept (from_removed_ranges [] L))).
  { cbn. unfold span_wf. cbn [in_start in_end out_start out_end].
    repeat split; auto; lia. }
  induction Hwf as [|[[[si ei] so] eo] l Hsp _ IH]; [reflexivity|].
  inversion Hout as [|? ? Hso Hout']; subst.
  unfold span_wf in Hsp. cbn [in_start in_end out_start out_end] in *.
  cbn [flat_map]. rewrite IH by assumption.
  rewrite (composed_span_shape _ 0) by (auto; lia).
  assert (Hkb : forall x, 0 <= x <= L ->
            kept_below (kept (from_removed_ranges [] L)) x = x).
  { intros x Hx. cbn. lia. }
  rewrite (Hkb so), (Hkb (eo + 1)) by lia.
  replace (so <? eo + 1) with true by lia. cbn [app]. f_equal.
  apply span_eq; lia.
Qed.

(** X15.  The map that removes nothing is a right identity of [compose]:
    composing a map that satisfies the invariant, and whose kept spans are
    not adjacent in the input, with the identity on its output gives the
    map back. *)
Theorem compose_identity_right (m : IndexMap) :
  kept_span_invariant m -> inputs_apart m ->
  compose m (from_removed_ranges [] (out_len m)) = m.
Proof.
  intros Hinv Hapart. pose proof Hinv as (Hwf & _ & _ & _ & Hcov).
  apply invariant_chain in Hinv. destruct m as [l]. cbn [kept] in *.
  destruct l as [|sp l]; [reflexivity|].
  assert (HL : 1 <= out_len {| kept := sp :: l |}).
  { rewrite out_len_cons. inversion Hwf as [|? ? Hsp Hwf']; subst.
    apply span_wf_len in Hsp. apply out_len_nonneg in Hwf'. lia. }
  assert (Hout : Forall (fun sp' => 0 <= out_start sp'
                   /\ out_end sp' <= out_len {| kept := sp :: l |} - 1)
                   (sp :: l)).
  { apply Forall_forall. intros sp' Hin.
    rewrite Forall_forall in Hwf. pose proof (Hwf _ Hin) as Hsp'.
    unfold span_wf in Hsp'.
    assert (H1 : 0 <= out_start sp' <= out_len {| kept := sp :: l |} - 1).
    { apply Hcov. exists sp'. cbn [kept]. split; auto. lia. }
    assert (H2 : 0 <= out_end sp' <= out_len {| kept := sp :: l |} - 1).
    { apply Hcov. exists sp'. cbn [kept]. split; auto. lia. }
    lia. }
  pose proof (composed_with_identity (sp :: l) _ Hwf Hout HL) as Hck.
  assert (Hk : kept (compose {| kept := sp :: l |}
                       (from_removed_ranges [] (out_len {| kept := sp :: l |})))
               = sp :: l).
  { rewrite (compose_eq_coalesce _ _ 0) by (rewrite Hck; exact Hinv).
    rewrite Hck. now apply coalesce_apart. }
  destruct (compose _ _) as [k]. cbn [kept] in Hk. now rewrite Hk.
Qed.

Lemma compose_identity_right_witness :
  compose map_remove_2_4 (from_removed_ranges [] (out_len map_remove_2_4))
  = map_remove_2_4.
Proof.
  apply compose_identity_right.
  - apply chainedb_invariant. reflexivity.
  - repeat constructor; cbn [in_start in_end]; lia.
Defined.

(** ** Removal: the signal and its map *)

Lemma remove_intervals_signal {A : Type} (x : list A) (removed : list Interval) :
  fst (remove_intervals_and_build_map x removed) =
  flat_map (restrict_to x)
    (invert_to_kept (normalize_intervals removed (Some (Z.of_nat (length x))))
                    (Z.of_nat (length x))).
Proof.
  rewrite remove_intervals_shape. cbv zeta. cbn [fst].
  pose proof (invert_to_kept_inside removed (length x)) as Hin.
  apply flat_map_ext_in. intros [s e] Hiv.
  rewrite Forall_forall in Hin. specialize (Hin _ Hiv). cbn [fst snd] in Hin.
  apply py_slice_restrict; lia.
Qed.

Lemma remove_intervals_map {A : Type} (x : list A) (removed : list Interval) :
  snd (remove_intervals_and_build_map x removed) =
  from_kept_ranges
    (invert_to_kept (normalize_intervals removed (Some (Z.of_nat (length x))))
                    (Z.of_nat (length x))).
Proof. rewrite remove_intervals_shape. reflexivity. Qed.

Lemma remove_intervals_out_len {A : Type} (x : list A) (removed : list Interval) :
  Z.of_nat (length (fst (remove_intervals_and_build_map x removed)))
  = out_len (snd (remove_intervals_and_build_map x removed)).
Proof.
  rewrite remove_intervals_signal, remove_intervals_map.
  rewrite restricted_length by apply invert_to_kept_inside.
  unfold from_kept_ranges. now rewrite out_len_from_kept_loop.
Qed.

Lemma remove_intervals_chained {A : Type} (x : list A) (removed : list Interval) :
  x <> [] ->
  chained 0 (kept (snd (remove_intervals_and_build_map x removed))).
Proof.
  intros Hx. rewrite remove_intervals_map. unfold from_kept_ranges. cbn [kept].
  apply from_kept_loop_chained. apply invert_to_kept_ascending.
  destruct x; [congruence|]. cbn [length]. lia.
Qed.

Lemma from_kept_loop_apart (l : list Interval) :
  forall pos, StronglySorted apart l ->
  StronglySorted (fun a b => in_end a + 1 < in_start b) (from_kept_loop pos l).
Proof.
  induction l as [|[s e] l IH]; intros pos H; [constructor|].
  inversion H as [|? ? Hl Hhd]; subst. cbn [from_kept_loop].
  constructor; [now apply IH|].
  apply (from_kept_loop_in_start (fun x => e + 1 < x)). exact Hhd.
Qed.

(** X16.  The map returned with the shortened signal has that signal's
    length as output length; on a signal that is not empty it satisfies the
    invariant, and its kept spans are not adjacent in the input. *)
Theorem remove_intervals_map_fits {A : Type} (x : list A)
  (removed : list Interval) :
  Z.of_nat (length (fst (remove_intervals_and_build_map x removed)))
  = out_len (snd (remove_intervals_and_build_map x removed))
  /\ (x <> [] ->
      kept_span_invariant (snd (remove_intervals_and_build_map x removed))
      /\ inputs_apart (snd (remove_intervals_and_build_map x removed))).
Proof.
  split; [apply remove_intervals_out_len|].
  intros Hx. split.
  - apply invariant_chain. now apply remove_intervals_chained.
  - rewrite remove_intervals_map. unfold inputs_apart, from_kept_ranges.
    cbn [kept]. apply from_kept_loop_apart.
    apply invert_to_kept_normalized_result.
    destruct x; [congruence|]. cbn [length]. lia.
Qed.

Lemma remove_intervals_map_fits_witness :
  kept_span_invariant
    (snd (remove_intervals_and_build_map [1; 2; 3; 4; 5] [(1, 2)])).
Proof.
  destruct (remove_intervals_map_fits [1; 2; 3; 4; 5] [(1, 2)]) as [_ H].
  apply H. discriminate.
Defined.

(** *** Where a sample of the shortened signal comes from *)

Lemma py_slice_nth {A : Type} (x : list A) (s e : Z) (k : nat) :
  0 <= s -> s <= e + 1 -> e <= Z.of_nat (length x) - 1 ->
  (k < Z.to_nat (e - s + 1))%nat ->
  nth_error (py_slice x s (e + 1)) k = nth_error x (Z.to_nat s + k).
Proof.
  intros Hs Hse He Hk. unfold py_slice, slice_bound.
  replace (s <? 0) with false by lia. replace (e + 1 <? 0) with false by lia.
  rewrite !Z.min_l by lia.
  rewrite nth_error_firstn, nth_error_skipn.
  replace (k <? Z.to_nat (e + 1 - s))%nat with true; [reflexivity|].
  symmetry. apply Nat.ltb_lt. lia.
Qed.

Lemma from_kept_loop_out_lower (l : list Interval) :
  Forall (fun iv => fst iv <= snd iv + 1) l ->
  forall pos, Forall (fun sp => pos <= out_start sp) (from_kept_loop pos l).
Proof.
  intros H. induction H as [|[s e] l Hse _ IH]; intros pos; [constructor|].
  cbn [fst snd] in Hse. cbn [from_kept_loop]. constructor; [cbn; lia|].
  eapply Forall_impl; [ | apply (IH (pos + (e - s + 1)))].
  intros sp Hsp. cbv beta in Hsp. lia.
Qed.

Lemma from_kept_loop_samples {A : Type} (x : list A) (l : list Interval) :
  Forall (fun iv => 0 <= fst iv /\ fst iv <= snd iv + 1
                    /\ snd iv <= Z.of_nat (length x) - 1) l ->
  forall pos sp j, In sp (from_kept_loop pos l) ->
  out_start sp <= j <= out_end sp ->
  sample_at (flat_map (restrict_to x) l) (j - pos)
  = sample_at x (in_start sp + (j - out_start sp)).
Proof.
  intros H. induction H as [|[s e] l Hse Hl IH]; intros pos sp j Hin Hj;
    [destruct Hin|].
  cbn [fst snd] in Hse. cbn [from_kept_loop] in Hin. cbn [flat_map].
  pose proof (restrict_to_length x s e ltac:(lia) ltac:(lia) ltac:(lia)) as Hlen.
  unfold interval_len in Hlen. cbn [fst snd] in Hlen.
  destruct Hin as [<-|Hin].
  - cbn [in_start out_start out_end] in *. unfold sample_at.
    replace (j - pos <? 0) with false by lia.
    replace (s + (j - pos) <? 0) with false by lia.
    rewrite nth_error_app1 by lia.
    rewrite <- py_slice_restrict by lia.
    rewrite py_slice_nth by lia. f_equal. lia.
  - assert (Hlow : pos + (e - s + 1) <= out_start sp).
    { assert (Hall : Forall (fun iv : Interval => fst iv <= snd iv + 1) l).
      { eapply Forall_impl; [ | exact Hl]. cbv beta. tauto. }
      pose proof (from_kept_loop_out_lower l Hall (pos + (e - s + 1))) as Hlo.
      rewrite Forall_forall in Hlo. now apply Hlo. }
    rewrite <- (IH _ _ _ Hin Hj). unfold sample_at.
    replace (j - pos <? 0) with false by lia.
    replace (j - (pos + (e - s + 1)) <? 0) with false by lia.
    rewrite nth_error_app2 by lia. f_equal. lia.
Qed.

Lemma project_backward_point (m : IndexMap) (sp : Span) (j : Z) :
  chained 0 (kept m) -> In sp (kept m) ->
  out_start sp <= j <= out_end sp ->
  project_intervals_output_to_input m [(j, j)]
  = [(in_start sp + (j - out_start sp), in_start sp + (j - out_start sp))].
Proof.
  intros Hinv Hin Hc.
  pose proof (find_covers_out_chained _ _ _ _ Hinv Hin Hc) as Hf.
  destruct sp as [[[si ei] so] eo].
  cbn [in_start in_end out_start out_end] in *.
  rewrite project_backward_one, backward_from_eq, Z.leb_refl, Hf.
  rewrite backward_from_done by lia.
  rewrite Z.min_l by lia. apply normalize_single. lia.
Qed.

Lemma from_kept_loop_in_input (l : list Interval) (sp : Span) :
  forall pos, In sp (from_kept_loop pos l) -> In (in_start sp, in_end sp) l.
Proof.
  induction l as [|[s e] l IH]; intros pos Hin; [destruct Hin|].
  cbn [from_kept_loop] in Hin. destruct Hin as [<-|Hin].
  - now left.
  - right. eapply IH, Hin.
Qed.

Lemma remove_intervals_provenance {A : Type} (x : list A)
  (removed : list Interval) (j : Z) :
  0 <= j <= Z.of_nat (length (fst (remove_intervals_and_build_map x removed))) - 1 ->
  exists i,
    project_intervals_output_to_input
      (snd (remove_intervals_and_build_map x removed)) [(j, j)] = [(i, i)]
    /\ sample_at (fst (remove_intervals_and_build_map x removed)) j
       = sample_at x i
    /\ 0 <= i <= Z.of_nat (length x) - 1
    /\ ~ spanned removed i.
Proof.
  intros Hj. destruct x as [|a x'] eqn:Hx.
  - exfalso. rewrite remove_intervals_out_len, remove_intervals_map in Hj.
    unfold from_kept_ranges in Hj. rewrite out_len_from_kept_loop in Hj.
    rewrite invert_to_kept_total_raw in Hj by (cbn; lia).
    change (Z.of_nat (length (@nil A))) with 0 in Hj.
    destruct (normalize_bound_zero (normalize_intervals removed (Some 0)))
      as [Hn|Hn]; rewrite Hn in Hj; cbn in Hj; lia.
  - rewrite <- Hx in *. assert (Hne : x <> []) by (subst; discriminate).
    assert (HL : 1 <= Z.of_nat (length x)) by (subst; cbn [length]; lia).
    pose proof (remove_intervals_chained x removed Hne) as Hch.
    rewrite remove_intervals_out_len in Hj.
    destruct (proj1 (chained_cover _ _ Hch j)) as (sp & Hin & Hc).
    { destruct (snd (remove_intervals_and_build_map x removed)) as [l].
      cbn [kept] in *. lia. }
    exists (in_start sp + (j - out_start sp)).
    split; [now apply project_backward_point|].
    rewrite remove_intervals_signal.
    rewrite remove_intervals_map in Hin. unfold from_kept_ranges in Hin.
    cbn [kept] in Hin.
    pose proof (from_kept_loop_samples x _ (invert_to_kept_inside removed (length x))
                  0 sp j Hin Hc) as Hs.
    rewrite Z.sub_0_r in Hs. split; [exact Hs|].
    assert (Hcov : covered
              (invert_to_kept
                 (normalize_intervals removed (Some (Z.of_nat (length x))))
                 (Z.of_nat (length x)))
              (in_start sp + (j - out_start sp))).
    { exists (in_start sp, in_end sp). split.
      - eapply from_kept_loop_in_input, Hin.
      - pose proof (chained_wf _ _ (from_kept_loop_chained _ 0
                      (proj1 (invert_to_kept_ascending
                         (normalize_intervals removed (Some (Z.of_nat (length x))))
                         _ HL)))) as Hwf.
        rewrite Forall_forall in Hwf. specialize (Hwf _ Hin).
        unfold span_wf in Hwf. cbn [fst snd]. lia. }
    apply invert_to_kept_complement in Hcov; [|exact HL].
    destruct Hcov as [Hrange Hnot]. split; [exact Hrange|].
    intros Hsp. apply Hnot.
    destruct (normalize_bounded_spec removed _ HL) as [Hn Hw].
    rewrite normalize_bounded_id by assumption.
    apply normalize_bounded_spanned; [lia|]. auto.
Qed.

(** X17.  Every sample of the shortened signal is a sample of [x]: the
    backward projection of its position [j] is one position [i] of [x], that
    position holds the same sample, and no removed interval spans it. *)
Theorem removed_signal_provenance {A : Type} (x : list A)
  (removed : list Interval) (j : Z) :
  0 <= j <= Z.of_nat (length (fst (remove_intervals_and_build_map x removed))) - 1 ->
  exists i,
    project_intervals_output_to_input
      (snd (remove_intervals_and_build_map x removed)) [(j, j)] = [(i, i)]
    /\ sample_at (fst (remove_intervals_and_build_map x removed)) j
       = sample_at x i
    /\ 0 <= i <= Z.of_nat (length x) - 1
    /\ ~ spanned removed i.
Proof. apply remove_intervals_provenance. Qed.

Lemma removed_signal_provenance_witness :
  exists i,
    project_intervals_output_to_input
      (snd (remove_intervals_and_build_map [10; 11; 12; 13; 14] [(1, 2)]))
      [(1, 1)] = [(i, i)]
    /\ sample_at (fst (remove_intervals_and_build_map [10; 11; 12; 13; 14]
                         [(1, 2)])) 1
       = sample_at [10; 11; 12; 13; 14] i
    /\ 0 <= i <= Z.of_nat (length [10; 11; 12; 13; 14]) - 1
    /\ ~ spanned [(1, 2)] i.
Proof.
  apply (removed_signal_provenance [10; 11; 12; 13; 14] [(1, 2)] 1).
  change (0 <= 1 <= 3 - 1). lia.
Defined.

(** ** Removing the gaps *)

Lemma py_slice_all {A : Type} (x : list A) :
  py_slice x 0 (Z.of_nat (length x) - 1 + 1) = x.
Proof.
  unfold py_slice, slice_bound.
  assert (H1 : (Z.of_nat (length x) - 1 + 1 <? 0) = false)
    by (apply Z.ltb_ge; lia).
  rewrite H1, Z.ltb_irrefl, !Z.min_l by lia.
  replace (Z.to_nat (Z.of_nat (length x) - 1 + 1 - 0)) with (length x) by lia.
  cbn [Z.to_nat skipn]. apply firstn_all.
Qed.

(** On a signal that is not empty the shortcut of [remove_gaps] for an empty
    list of gaps gives what the general path gives. *)
Lemma remove_gaps_nonempty {A : Type} (x : list A) (gaps : list Interval) :
  x <> [] -> remove_gaps x gaps = remove_intervals_and_build_map x gaps.
Proof.
  intros Hx. destruct gaps as [|g gaps]; [|reflexivity].
  unfold remove_gaps. rewrite remove_intervals_shape. cbv zeta.
  assert (Hn : (0 <? Z.of_nat (length x)) = true).
  { apply Z.ltb_lt. destruct x; [congruence|]. cbn [length]. lia. }
  rewrite Hn.
  change (invert_to_kept (normalize_intervals [] (Some (Z.of_nat (length x))))
            (Z.of_nat (length x)))
    with [(0, Z.of_nat (length x) - 1)].
  cbn [flat_map]. now rewrite app_nil_r, py_slice_all.
Qed.

Lemma remove_gaps_empty_signal {A : Type} (gaps : list Interval) :
  fst (remove_gaps (@nil A) gaps) = [].
Proof.
  destruct gaps as [|g gaps]; [reflexivity|].
  unfold remove_gaps.
  pose proof (remove_intervals_out_len (@nil A) (g :: gaps)) as Hlen.
  rewrite remove_intervals_map in Hlen. unfold from_kept_ranges in Hlen.
  rewrite out_len_from_kept_loop, invert_to_kept_total_raw in Hlen
    by (cbn; lia).
  change (Z.of_nat (length (@nil A))) with 0 in Hlen.
  destruct (fst (remove_intervals_and_build_map [] (g :: gaps))) as [|a y];
    [reflexivity|exfalso].
  destruct (normalize_bound_zero (normalize_intervals (g :: gaps) (Some 0)))
    as [Hn|Hn]; rewrite Hn in Hlen; cbn in Hlen; lia.
Qed.

(** X18.  Every sample of the signal [remove_gaps] returns is a sample of
    [x]: the backward projection of its position is one position of [x],
    which holds the same sample and lies in no gap. *)
Theorem remove_gaps_provenance {A : Type} (x : list A) (gaps : list Interval)
  (j : Z) :
  0 <= j <= Z.of_nat (length (fst (remove_gaps x gaps))) - 1 ->
  exists i,
    project_intervals_output_to_input (snd (remove_gaps x gaps)) [(j, j)]
    = [(i, i)]
    /\ sample_at (fst (remove_gaps x gaps)) j = sample_at x i
    /\ 0 <= i <= Z.of_nat (length x) - 1
    /\ ~ spanned gaps i.
Proof.
  destruct x as [|a x'] eqn:Hx.
  - rewrite remove_gaps_empty_signal. cbn [length]. lia.
  - rewrite <- Hx. rewrite remove_gaps_nonempty by (subst; discriminate).
    apply remove_intervals_provenance.
Qed.

Lemma remove_gaps_provenance_witness :
  exists i,
    project_intervals_output_to_input
      (snd (remove_gaps [10; 11; 12; 13; 14] [(0, 1)])) [(0, 0)] = [(i, i)]
    /\ sample_at (fst (remove_gaps [10; 11; 12; 13; 14] [(0, 1)])) 0
       = sample_at [10; 11; 12; 13; 14] i
    /\ 0 <= i <= Z.of_nat (length [10; 11; 12; 13; 14]) - 1
    /\ ~ spanned [(0, 1)] i.
Proof.
  apply (remove_gaps_provenance [10; 11; 12; 13; 14] [(0, 1)] 0).
  change (0 <= 0 <= 3 - 1). lia.
Defined.

Lemma normalize_bounded_twice (l : list Interval) (L : Z) :
  0 <= L ->
  normalize_intervals (normalize_intervals l (Some L)) (Some L)
  = normalize_intervals l (Some L).
Proof.
  intros HL. destruct (Z.eq_dec L 0) as [->|HL0].
  - destruct (normalize_bound_zero l) as [-> | ->]; reflexivity.
  - destruct (normalize_bounded_spec l L ltac:(lia)) as [Hn Hw].
    now apply normalize_bounded_id.
Qed.

Lemma remove_gaps_on_normalized {A : Type} (x : list A)
  (gaps_indices : list Interval) :
  let n := Z.of_nat (length x) in
  let gaps := normalize_intervals gaps_indices (Some n) in
  kept_span_invariant (snd (remove_gaps x gaps))
  /\ Z.of_nat (length (fst (remove_gaps x gaps))) = out_len (snd (remove_gaps x gaps))
  /\ out_len (snd (remove_gaps x gaps)) = n - total_len gaps.
Proof.
  cbv zeta. destruct x as [|a x'] eqn:Hx.
  - change (Z.of_nat (length (@nil A))) with 0.
    destruct (normalize_bound_zero gaps_indices) as [-> | ->].
    + split; [apply chainedb_invariant; reflexivity|]. split; reflexivity.
    + split; [apply chainedb_invariant; reflexivity|]. split; reflexivity.
  - rewrite <- Hx. assert (Hne : x <> []) by (subst; discriminate).
    rewrite remove_gaps_nonempty by assumption.
    split; [apply invariant_chain; now apply remove_intervals_chained|].
    split; [apply remove_intervals_out_len|].
    rewrite remove_intervals_map. unfold from_kept_ranges.
    rewrite out_len_from_kept_loop, invert_to_kept_total_raw by lia.
    now rewrite !normalize_bounded_twice by lia.
Qed.

(** X19.  Called as the pipeline calls it, on gaps normalized over the
    length of the signal, [remove_gaps] returns a map that satisfies the
    invariant whatever the signal, the empty one included, and a signal
    whose length is the output length of the map: the length of [x] less
    the samples of the normalized gaps. *)
Theorem remove_gaps_normalized {A : Type} (x : list A) (gaps_indices : list Interval) :
  let n := Z.of_nat (length x) in
  let gaps := normalize_intervals gaps_indices (Some n) in
  kept_span_invariant (snd (remove_gaps x gaps))
  /\ Z.of_nat (length (fst (remove_gaps x gaps))) = out_len (snd (remove_gaps x gaps))
  /\ out_len (snd (remove_gaps x gaps)) = n - total_len gaps.
Proof. apply remove_gaps_on_normalized. Qed.

(** ** Detectors: from the hits to the spans *)

Lemma hits_of_in {A : Type} (flagged : list A -> nat -> bool) (x : list A)
  (i : nat) :
  In (Z.of_nat i) (hits_of flagged x) <-> (i < length x)%nat /\ flagged x i = true.
Proof.
  unfold hits_of. rewrite in_map_iff. split.
  - intros (k & Hk & Hin). apply Nat2Z.inj in Hk. subst k.
    apply filter_In in Hin. destruct Hin as [Hin Hf].
    apply in_seq in Hin. split; [lia|exact Hf].
  - intros [Hi Hf]. exists i. split; auto. apply filter_In. split; auto.
    apply in_seq. lia.
Qed.

Lemma hits_of_range {A : Type} (flagged : list A -> nat -> bool) (x : list A) :
  Forall (fun i => 0 <= i <= Z.of_nat (length x) - 1) (hits_of flagged x).
Proof.
  unfold hits_of. apply Forall_forall. intros i Hi.
  apply in_map_iff in Hi. destruct Hi as (k & <- & Hin).
  apply filter_In in Hin. destruct Hin as [Hin _]. apply in_seq in Hin. lia.
Qed.

Lemma detect_outliers_eq {A : Type} (z_exceeds : list A -> nat -> bool)
  (x : list A) (min_len merge_gap : Z) :
  detect_outliers z_exceeds x min_len merge_gap =
  merge_intervals
    (map (fun i => (Z.max 0 (i - Z.max 1 (min_len / 2)),
                    Z.min (Z.of_nat (length x) - 1) (i + Z.max 1 (min_len / 2))))
         (hits_of z_exceeds x))
    merge_gap.
Proof.
  unfold detect_outliers.
  destruct (Z.of_nat (length x) =? 0) eqn:Hn.
  - apply Z.eqb_eq in Hn. destruct x; [reflexivity|cbn [length] in Hn; lia].
  - destruct (hits_of z_exceeds x); reflexivity.
Qed.

(** X20.  The spans [detect_outliers] returns are proper, lie inside the
    signal and are more than [merge_gap + 1] apart; every position that
    passes the test is covered by one of them; and when [merge_gap] is not
    negative they are already normalized over the length of the signal. *)
Theorem detect_outliers_sound {A : Type} (z_exceeds : list A -> nat -> bool)
  (x : list A) (min_len merge_gap : Z) :
  Forall proper (detect_outliers z_exceeds x min_len merge_gap)
  /\ Forall (within (Z.of_nat (length x)))
            (detect_outliers z_exceeds x min_len merge_gap)
  /\ StronglySorted (fun a b => snd a + merge_gap + 1 < fst b)
                    (detect_outliers z_exceeds x min_len merge_gap)
  /\ (forall i, (i < length x)%nat -> z_exceeds x i = true ->
        covered (detect_outliers z_exceeds x min_len merge_gap) (Z.of_nat i))
  /\ (0 <= merge_gap ->
      normalize_intervals (detect_outliers z_exceeds x min_len merge_gap)
                          (Some (Z.of_nat (length x)))
      = detect_outliers z_exceeds x min_len merge_gap).
Proof.
  rewrite detect_outliers_eq.
  set (half := Z.max 1 (min_len / 2)).
  set (n := Z.of_nat (length x)).
  set (spans := map (fun i => (Z.max 0 (i - half), Z.min (n - 1) (i + half)))
                    (hits_of z_exceeds x)).
  assert (Hhalf : 1 <= half) by (unfold half; lia).
  assert (Hp : Forall proper spans).
  { unfold spans. apply Forall_forall. intros iv Hiv.
    apply in_map_iff in Hiv. destruct Hiv as (i & <- & Hi).
    pose proof (hits_of_range z_exceeds x) as Hr.
    rewrite Forall_forall in Hr. specialize (Hr _ Hi). fold n in Hr.
    unfold proper. cbn [fst snd]. lia. }
  assert (Hw : Forall (within n) spans).
  { unfold spans. apply Forall_forall. intros iv Hiv.
    apply in_map_iff in Hiv. destruct Hiv as (i & <- & Hi).
    unfold within. cbn [fst snd]. lia. }
  split; [now apply merge_intervals_proper|].
  split; [now apply merge_intervals_within|].
  split; [apply merge_intervals_apart|].
  split.
  - intros i Hi Hf. apply merge_intervals_keeps.
    exists (Z.max 0 (Z.of_nat i - half), Z.min (n - 1) (Z.of_nat i + half)).
    split.
    + unfold spans. apply in_map_iff. exists (Z.of_nat i). split; auto.
      apply hits_of_in. auto.
    + cbn [fst snd]. unfold n. lia.
  - intros Hg. apply normalize_bounded_id.
    + split; [now apply merge_intervals_proper|].
      eapply strongly_sorted_weaken; [ | apply merge_intervals_apart].
      unfold apart. cbv beta. intros a b H. lia.
    + now apply merge_intervals_within.
Qed.

Lemma detect_outliers_sound_witness :
  covered (detect_outliers (fun _ i => Nat.eqb i 3) [0; 0; 0; 9; 0; 0] 4 2) 3
  /\ normalize_intervals
       (detect_outliers (fun _ i => Nat.eqb i 3) [0; 0; 0; 9; 0; 0] 4 2)
       (Some 6)
     = detect_outliers (fun _ i => Nat.eqb i 3) [0; 0; 0; 9; 0; 0] 4 2.
Proof.
  destruct (detect_outliers_sound (fun _ i => Nat.eqb i 3) [0; 0; 0; 9; 0; 0] 4 2)
    as (_ & _ & _ & Hc & Hn).
  split.
  - apply (Hc 3%nat); [cbn [length]; lia|reflexivity].
  - apply Hn. lia.
Defined.

Lemma hits_below_in {A : Type} (flagged : list A -> nat -> bool) (x : list A)
  (m : Z) (i : nat) :
  In (Z.of_nat i) (hits_below flagged x m) <->
  Z.of_nat i < m /\ flagged x i = true.
Proof.
  unfold hits_below. rewrite in_map_iff. split.
  - intros (k & Hk & Hin). apply Nat2Z.inj in Hk. subst k.
    apply filter_In in Hin. destruct Hin as [Hin Hf].
    apply in_seq in Hin. split; [lia|exact Hf].
  - intros [Hi Hf]. exists i. split; auto. apply filter_In. split; auto.
    apply in_seq. lia.
Qed.

Lemma hits_below_range {A : Type} (flagged : list A -> nat -> bool) (x : list A)
  (m : Z) :
  Forall (fun i => 0 <= i <= m - 1) (hits_below flagged x m).
Proof.
  unfold hits_below. apply Forall_forall. intros i Hi.
  apply in_map_iff in Hi. destruct Hi as (k & <- & Hin).
  apply filter_In in Hin. destruct Hin as [Hin _]. apply in_seq in Hin. lia.
Qed.

Lemma runs_loop_shape (n half : Z) (rest : list Z) :
  0 <= half ->
  forall start prev,
  0 <= start -> start <= prev -> prev <= n - 1 ->
  Forall (fun i => 0 <= i <= n - 1) rest ->
  Forall (fun iv => proper iv /\ within n iv) (runs_loop n half start prev rest).
Proof.
  intros Hh. induction rest as [|i rest IH]; intros start prev Hs Hsp Hp Hr;
    cbn [runs_loop].
  - constructor; [|constructor]. unfold proper, within. cbn [fst snd]. lia.
  - inversion Hr as [|? ? Hi Hr']; subst.
    destruct (i =? prev + 1) eqn:He.
    + apply Z.eqb_eq in He. apply IH; auto; lia.
    + constructor; [|apply IH; auto; lia].
      unfold proper, within. cbn [fst snd]. lia.
Qed.

(** A hit inside the signal is covered by the span of its run, also when
    the run goes on beyond the signal. *)
Lemma runs_loop_covers (n half : Z) (rest : list Z) (j : Z) :
  0 <= half -> j <= n - 1 ->
  forall start prev,
  0 <= start -> start <= prev ->
  Forall (fun i => 0 <= i) rest ->
  start <= j <= prev \/ In j rest ->
  covered (runs_loop n half start prev rest) j.
Proof.
  intros Hh Hjn. induction rest as [|i rest IH]; intros start prev Hs Hsp Hr Hj;
    cbn [runs_loop].
  - destruct Hj as [Hj|[]]. exists (Z.max 0 (start - half), Z.min (n - 1) (prev + half)).
    split; [now left|]. cbn [fst snd]. lia.
  - inversion Hr as [|? ? Hi Hr']; subst. cbv beta in Hi.
    destruct (i =? prev + 1) eqn:He.
    + apply Z.eqb_eq in He. apply IH; auto; try lia.
      destruct Hj as [Hj|[Hj|Hj]]; [left; lia|left; lia|now right].
    + rewrite covered_cons. cbn [fst snd].
      destruct Hj as [Hj|[Hj|Hj]].
      * left. lia.
      * right. apply IH; auto; try lia.
      * right. apply IH; auto; lia.
Qed.

Lemma spans_of_hits_apart (n win g : Z) (hits : list Z) :
  StronglySorted (fun a b => snd a + g + 1 < fst b) (spans_of_hits n win g hits).
Proof.
  unfold spans_of_hits. destruct hits; [constructor|apply merge_intervals_apart].
Qed.

Lemma spans_of_hits_covers (n win g : Z) (hits : list Z) (j : Z) :
  2 <= win -> Forall (fun i => 0 <= i) hits -> In j hits -> j <= n - 1 ->
  covered (spans_of_hits n win g hits) j.
Proof.
  intros Hw Hr Hin Hj. unfold spans_of_hits.
  destruct hits as [|h rest]; [destruct Hin|].
  inversion Hr as [|? ? Hh Hr']; subst. cbv beta in Hh.
  apply merge_intervals_keeps. apply runs_loop_covers; auto; try lia.
  - apply Z.div_pos; lia.
  - destruct Hin as [->|Hin]; [left; lia|now right].
Qed.

Lemma spans_of_hits_inside (n win g : Z) (hits : list Z) :
  2 <= win -> Forall (fun i => 0 <= i <= n - 1) hits ->
  Forall proper (spans_of_hits n win g hits)
  /\ Forall (within n) (spans_of_hits n win g hits)
  /\ (0 <= g ->
      normalize_intervals (spans_of_hits n win g hits) (Some n)
      = spans_of_hits n win g hits).
Proof.
  intros Hw Hr. unfold spans_of_hits. destruct hits as [|h rest].
  - split; [constructor|]. split; [constructor|]. reflexivity.
  - inversion Hr as [|? ? Hh Hr']; subst. cbv beta in Hh.
    assert (Hshape : Forall (fun iv => proper iv /\ within n iv)
                            (runs_loop n (win / 2) h h rest)).
    { apply runs_loop_shape; auto; try lia. apply Z.div_pos; lia. }
    assert (Hp : Forall proper (runs_loop n (win / 2) h h rest))
      by (eapply Forall_impl; [ | exact Hshape]; cbv beta; tauto).
    assert (Hi : Forall (within n) (runs_loop n (win / 2) h h rest))
      by (eapply Forall_impl; [ | exact Hshape]; cbv beta; tauto).
    split; [now apply merge_intervals_proper|].
    split; [now apply merge_intervals_within|].
    intros Hg. apply normalize_bounded_id.
    + split; [now apply merge_intervals_proper|].
      eapply strongly_sorted_weaken; [ | apply merge_intervals_apart].
      unfold apart. cbv beta. intros a b H. lia.
    + now apply merge_intervals_within.
Qed.

(** What both sliding-window detectors return when they return: the spans
    of the hits among the [max(len(x), win)] tested positions. *)
Lemma window_spans_sound {A : Type} (flagged : Z -> list A -> nat -> bool)
  (x : list A) (win g : Z) (spans : list Interval) :
  let n := Z.of_nat (length x) in
  let w := Z.max 2 win in
  spans = (if n =? 0 then []
           else spans_of_hits n w g (hits_below (flagged w) x (Z.max n w))) ->
  StronglySorted (fun a b => snd a + g + 1 < fst b) spans
  /\ (forall i, (i < length x)%nat -> flagged w x i = true ->
        covered spans (Z.of_nat i))
  /\ (w <= n ->
      Forall proper spans /\ Forall (within n) spans
      /\ (0 <= g -> normalize_intervals spans (Some n) = spans)).
Proof.
  cbv zeta. intros ->.
  destruct (Z.of_nat (length x) =? 0) eqn:Hn.
  - apply Z.eqb_eq in Hn. split; [constructor|]. split; [intros i Hi; lia|].
    intros _. split; [constructor|]. split; [constructor|]. reflexivity.
  - apply Z.eqb_neq in Hn. split; [apply spans_of_hits_apart|]. split.
    + intros i Hi Hf. apply spans_of_hits_covers; try lia.
      * eapply Forall_impl; [ | apply hits_below_range]. cbv beta. lia.
      * apply hits_below_in. split; [lia|exact Hf].
    + intros Hw. apply spans_of_hits_inside; [lia|].
      replace (Z.max (Z.of_nat (length x)) (Z.max 2 win))
        with (Z.of_nat (length x)) by lia.
      apply hits_below_range.
Qed.

Lemma detect_rdropouts_eq {A : Type} (low_variance : Z -> list A -> nat -> bool)
  (x : list A) (win g : Z) :
  detect_rdropouts low_variance x win g =
  (if Z.of_nat (length x) =? 0 then []
   else spans_of_hits (Z.of_nat (length x)) (Z.max 2 win) g
          (hits_below (low_variance (Z.max 2 win)) x
             (Z.max (Z.of_nat (length x)) (Z.max 2 win)))).
Proof. reflexivity. Qed.

Lemma broadcast_len_mean (n w : Z) :
  1 <= n -> 2 <= w ->
  broadcast_len n (convolve_same_len n w) =
  if (1 <? n) && (n <? w) then None else Some (Z.max n w).
Proof.
  intros Hn Hw. unfold broadcast_len, convolve_same_len.
  destruct (Z.eqb_spec n (Z.max n w)) as [E1|E1].
  - replace ((1 <? n) && (n <? w)) with false; [congruence|].
    symmetry. apply andb_false_iff. right. apply Z.ltb_ge. lia.
  - destruct (Z.eqb_spec n 1) as [E2|E2].
    + replace ((1 <? n) && (n <? w)) with false; [reflexivity|].
      symmetry. apply andb_false_iff. left. apply Z.ltb_ge. lia.
    + destruct (Z.eqb_spec (Z.max n w) 1) as [E3|E3]; [lia|].
      replace ((1 <? n) && (n <? w)) with true; [reflexivity|].
      symmetry. apply andb_true_iff. split; apply Z.ltb_lt; lia.
Qed.

Lemma detect_motions_eq {A : Type} (high_deviation : Z -> list A -> nat -> bool)
  (x : list A) (win g : Z) :
  detect_motions high_deviation x win g =
  (if Z.of_nat (length x) =? 0 then Some []
   else if (1 <? Z.of_nat (length x)) && (Z.of_nat (length x) <? Z.max 2 win)
        then None
        else Some (spans_of_hits (Z.of_nat (length x)) (Z.max 2 win) g
                     (hits_below (high_deviation (Z.max 2 win)) x
                        (Z.max (Z.of_nat (length x)) (Z.max 2 win))))).
Proof.
  unfold detect_motions. cbv zeta.
  destruct (Z.eqb_spec (Z.of_nat (length x)) 0) as [E|E]; [reflexivity|].
  rewrite broadcast_len_mean by lia.
  destruct ((1 <? Z.of_nat (length x)) && (Z.of_nat (length x) <? Z.max 2 win));
    [reflexivity|].
  unfold convolve_same_len.
  replace (Z.max (Z.max (Z.of_nat (length x)) (Z.max 2 win)) (Z.max 2 win))
    with (Z.max (Z.of_nat (length x)) (Z.max 2 win)) by lia.
  reflexivity.
Qed.

Lemma detect_motions_raises {A : Type}
  (high_deviation : Z -> list A -> nat -> bool) (x : list A) (win g : Z) :
  detect_motions high_deviation x win g = None <->
  1 < Z.of_nat (length x) < Z.max 2 win.
Proof.
  rewrite detect_motions_eq.
  destruct (Z.eqb_spec (Z.of_nat (length x)) 0) as [E|E].
  - split; [discriminate|lia].
  - destruct ((1 <? Z.of_nat (length x)) && (Z.of_nat (length x) <? Z.max 2 win))
      eqn:Hb.
    + apply andb_true_iff in Hb. destruct Hb as [H1 H2].
      apply Z.ltb_lt in H1. apply Z.ltb_lt in H2. split; [lia|reflexivity].
    + split; [discriminate|]. intros [H1 H2].
      apply andb_false_iff in Hb. destruct Hb as [Hb|Hb]; apply Z.ltb_ge in Hb; lia.
Qed.

Lemma detect_motions_returned {A : Type}
  (high_deviation : Z -> list A -> nat -> bool) (x : list A) (win g : Z)
  (spans : list Interval) :
  detect_motions high_deviation x win g = Some spans ->
  spans = (if Z.of_nat (length x) =? 0 then []
           else spans_of_hits (Z.of_nat (length x)) (Z.max 2 win) g
                  (hits_below (high_deviation (Z.max 2 win)) x
                     (Z.max (Z.of_nat (length x)) (Z.max 2 win)))).
Proof.
  rewrite detect_motions_eq.
  destruct (Z.of_nat (length x) =? 0); [congruence|].
  destruct ((1 <? Z.of_nat (length x)) && (Z.of_nat (length x) <? Z.max 2 win));
    congruence.
Qed.

(** On a signal of three samples and a window of 40 the variance has 40
    entries; a hit at its last entry gives a span that starts after the
    signal and is not proper. *)
Example detect_rdropouts_short_signal :
  detect_rdropouts (fun _ _ i => Nat.eqb i 39) [1; 0; 0] 40 0 = [(19, 2)]
  /\ detect_motions (fun _ _ i => Nat.eqb i 39) [1; 0; 0] 40 0 = None
  /\ detect_motions (fun _ _ i => Nat.eqb i 39) [1] 40 0 = Some [(19, 0)].
Proof. split; [|split]; vm_compute; reflexivity. Qed.

(** X21.  The spans [detect_rdropouts] returns are more than
    [merge_gap + 1] apart and cover every position of the signal that
    passes the test; when the signal has at least [max(2, win)] samples they
    are proper, lie inside the signal and, for a [merge_gap] that is not
    negative, are already normalized over its length.  [detect_motions]
    raises exactly when the signal has more than one sample and fewer than
    [max(2, win)]; the spans it returns otherwise have the same
    properties. *)
Theorem detect_runs_are_sound {A : Type}
  (low_variance high_deviation : Z -> list A -> nat -> bool)
  (x : list A) (win merge_gap : Z) :
  let n := Z.of_nat (length x) in
  let w := Z.max 2 win in
  (StronglySorted (fun a b => snd a + merge_gap + 1 < fst b)
                  (detect_rdropouts low_variance x win merge_gap)
   /\ (forall i, (i < length x)%nat -> low_variance w x i = true ->
         covered (detect_rdropouts low_variance x win merge_gap) (Z.of_nat i))
   /\ (w <= n ->
       Forall proper (detect_rdropouts low_variance x win merge_gap)
       /\ Forall (within n) (detect_rdropouts low_variance x win merge_gap)
       /\ (0 <= merge_gap ->
           normalize_intervals (detect_rdropouts low_variance x win merge_gap)
                               (Some n)
           = detect_rdropouts low_variance x win merge_gap)))
  /\ (detect_motions high_deviation x win merge_gap = None <-> 1 < n < w)
  /\ (forall spans,
        detect_motions high_deviation x win merge_gap = Some spans ->
        StronglySorted (fun a b => snd a + merge_gap + 1 < fst b) spans
        /\ (forall i, (i < length x)%nat -> high_deviation w x i = true ->
              covered spans (Z.of_nat i))
        /\ (w <= n ->
            Forall proper spans /\ Forall (within n) spans
            /\ (0 <= merge_gap ->
                normalize_intervals spans (Some n) = spans))).
Proof.
  cbv zeta. split; [|split].
  - apply (window_spans_sound low_variance x win merge_gap).
    apply detect_rdropouts_eq.
  - apply detect_motions_raises.
  - intros spans Hs. apply (window_spans_sound high_deviation x win merge_gap).
    now apply detect_motions_returned.
Qed.

Lemma detect_runs_are_sound_witness :
  covered (detect_rdropouts (fun _ _ i => Nat.leb 2 i && Nat.leb i 3)
             [5; 5; 0; 0; 5; 5; 5] 1 0) 3
  /\ normalize_intervals [(3, 6)] (Some 7) = [(3, 6)].
Proof.
  destruct (detect_runs_are_sound
              (fun _ _ i => Nat.leb 2 i && Nat.leb i 3) (fun _ _ i => Nat.eqb i 5)
              [5; 5; 0; 0; 5; 5; 5] 1 0) as ((_ & Hc & _) & _ & _).
  destruct (detect_runs_are_sound
              (fun _ _ i => Nat.leb 2 i && Nat.leb i 3) (fun _ _ i => Nat.eqb i 5)
              [5; 5; 0; 0; 5; 9; 5] 4 1) as (_ & _ & Hm).
  assert (Hs : detect_motions (fun _ _ i => Nat.eqb i 5) [5; 5; 0; 0; 5; 9; 5] 4 1
               = Some [(3, 6)]) by (vm_compute; reflexivity).
  destruct (Hm [(3, 6)] Hs) as (_ & _ & Hn).
  split.
  - apply (Hc 3%nat); [cbn [length]; lia|reflexivity].
  - apply Hn; [cbn [length]; lia|lia].
Defined.

(** ** The pipeline *)

Lemma covered_spanned (l : list Interval) (j : Z) : covered l j -> spanned l j.
Proof.
  intros (iv & Hin & Hj). exists iv. split; auto. lia.
Qed.

Lemma from_kept_ranges_lengths_agree (l : list Interval) :
  lengths_agree (from_kept_ranges l).
Proof.
  unfold lengths_agree, from_kept_ranges. cbn [kept]. generalize 0.
  induction l as [|[s e] l IH]; intros pos; cbn [from_kept_loop]; constructor.
  - cbn [in_start in_end out_start out_end]. lia.
  - apply IH.
Qed.

Lemma invert_to_kept_covered (removed : list Interval) (L i : Z) :
  0 <= L -> covered (invert_to_kept removed L) i ->
  0 <= i <= L - 1 /\ ~ spanned removed i.
Proof.
  intros HL Hc. destruct (Z.eq_dec L 0) as [->|HL0].
  - exfalso. unfold invert_to_kept in Hc.
    destruct (normalize_bound_zero removed) as [Hn|Hn]; rewrite Hn in Hc.
    + destruct Hc as (iv & [<-|[]] & Hi). cbn [fst snd] in Hi. lia.
    + cbn in Hc. now apply covered_nil in Hc.
  - apply invert_to_kept_complement in Hc; [|lia].
    destruct Hc as [Hr Hn]. split; auto. intros Hs. apply Hn.
    apply normalize_bounded_spanned; [lia|auto].
Qed.

Lemma remove_intervals_in_kept {A : Type} (x : list A) (removed : list Interval)
  (i : Z) :
  in_kept (snd (remove_intervals_and_build_map x removed)) i ->
  0 <= i <= Z.of_nat (length x) - 1 /\ ~ spanned removed i.
Proof.
  rewrite remove_intervals_map. unfold from_kept_ranges.
  intros (sp & Hin & Hi). cbn [kept] in Hin.
  apply from_kept_loop_in_input in Hin.
  assert (Hc : covered
            (invert_to_kept
               (normalize_intervals removed (Some (Z.of_nat (length x))))
               (Z.of_nat (length x))) i).
  { exists (in_start sp, in_end sp). split; auto. }
  apply invert_to_kept_covered in Hc; [|lia].
  destruct Hc as [Hr Hn]. split; auto. intros Hs. apply Hn.
  apply covered_spanned. apply normalize_bounded_spanned; [lia|auto].
Qed.

Lemma remove_gaps_in_kept {A : Type} (x : list A) (gaps : list Interval) (i : Z) :
  in_kept (snd (remove_gaps x gaps)) i ->
  0 <= i <= Z.of_nat (length x) - 1 /\ ~ spanned gaps i.
Proof.
  destruct gaps as [|g gaps]; [|apply remove_intervals_in_kept].
  unfold remove_gaps. cbv zeta. cbn [snd].
  destruct (0 <? Z.of_nat (length x)) eqn:Hn.
  - intros (sp & [<-|[]] & Hi). cbn [in_start in_end] in Hi.
    split; [lia|]. intros (iv & [] & _).
  - intros (sp & [] & _).
Qed.

Lemma remove_gaps_lengths_agree {A : Type} (x : list A) (gaps : list Interval) :
  lengths_agree (snd (remove_gaps x gaps)).
Proof.
  destruct gaps as [|g gaps].
  - apply from_kept_ranges_lengths_agree.
  - unfold remove_gaps. rewrite remove_intervals_map.
    apply from_kept_ranges_lengths_agree.
Qed.

Lemma remove_intervals_lengths_agree {A : Type} (x : list A)
  (removed : list Interval) :
  lengths_agree (snd (remove_intervals_and_build_map x removed)).
Proof.
  rewrite remove_intervals_map. apply from_kept_ranges_lengths_agree.
Qed.

Lemma remove_intervals_empty_signal {A : Type} (removed : list Interval) :
  fst (remove_intervals_and_build_map (@nil A) removed) = [].
Proof.
  pose proof (remove_intervals_out_len (@nil A) removed) as Hlen.
  rewrite remove_intervals_map in Hlen. unfold from_kept_ranges in Hlen.
  rewrite out_len_from_kept_loop, invert_to_kept_total_raw in Hlen
    by (cbn; lia).
  change (Z.of_nat (length (@nil A))) with 0 in Hlen.
  destruct (fst (remove_intervals_and_build_map [] removed)) as [|a y];
    [reflexivity|exfalso].
  destruct (normalize_bound_zero (normalize_intervals removed (Some 0)))
    as [Hn|Hn]; rewrite Hn in Hlen; cbn in Hlen; lia.
Qed.

(** The length of the signal after a stage whose intervals are none or were
    normalized over the length of its input. *)
Lemma remove_intervals_stage_length {A : Type} (x : list A) (idx : list Interval) :
  idx = [] \/ (exists d, idx = normalize_intervals d (Some (Z.of_nat (length x)))) ->
  Z.of_nat (length (fst (remove_intervals_and_build_map x idx)))
  = Z.of_nat (length x) - total_len idx.
Proof.
  intros Hidx. rewrite remove_intervals_out_len, remove_intervals_map.
  unfold from_kept_ranges.
  rewrite out_len_from_kept_loop, invert_to_kept_total_raw by lia.
  rewrite normalize_bounded_twice by lia.
  destruct Hidx as [->|(d & ->)].
  - reflexivity.
  - now rewrite normalize_bounded_twice by lia.
Qed.

Lemma remove_nothing {A : Type} (x : list A) :
  fst (remove_intervals_and_build_map x []) = x.
Proof.
  rewrite remove_intervals_shape. cbv zeta. cbn [fst].
  change (normalize_intervals [] (Some (Z.of_nat (length x)))) with (@nil Interval).
  change (invert_to_kept [] (Z.of_nat (length x)))
    with [(0, Z.of_nat (length x) - 1)].
  cbn [flat_map]. rewrite app_nil_r. apply py_slice_all.
Qed.

Section RunFacts.
Context {A : Type}.
Variable filter_ecg : list A -> list A.
Variable z_exceeds : list A -> nat -> bool.
Variable low_variance : Z -> list A -> nat -> bool.
Variable high_deviation : Z -> list A -> nat -> bool.
Variable cfg : PipelineConfig.
Variable x : list A.
Variable gaps : list Interval.

Ltac read_stages :=
  intros [= <-];
  cbn [ecg_orig ecg_start ecg_final map_gaps map_outliers map_rdropouts
       map_motions gaps_indices outliers_indices_start rdropouts_indices_nout
       motions_indices_nrd projected_to_orig projected_to_start];
  split; [reflexivity|]; split; [reflexivity|]; split; [reflexivity|];
  split; [reflexivity|];
  eexists; eexists;
  split; [reflexivity|]; split; [reflexivity|]; split; [reflexivity|];
  split; [reflexivity|]; split; [reflexivity|]; split; [reflexivity|];
  split; [destruct (outliers_enabled (cfg_outliers cfg)); eauto|];
  split; [destruct (rdropouts_enabled (cfg_rdropouts cfg)); eauto|];
  split; [eauto|];
  split; reflexivity.

(** What a [run] that returns has computed, stage by stage, read off its
    result. *)
Lemma run_stages (res : PipelineResult A) :
  run filter_ecg z_exceeds low_variance high_deviation cfg x gaps = Some res ->
  ecg_orig res = x
  /\ gaps_indices res = normalize_intervals gaps (Some (Z.of_nat (length x)))
  /\ map_gaps res = snd (remove_gaps x (gaps_indices res))
  /\ ecg_start res
     = (if filter_enabled cfg
        then filter_ecg (fst (remove_gaps x (gaps_indices res)))
        else fst (remove_gaps x (gaps_indices res)))
  /\ exists x_no_outl x_no_rdrop,
       x_no_outl = fst (remove_intervals_and_build_map
                          (ecg_start res) (outliers_indices_start res))
       /\ map_outliers res = snd (remove_intervals_and_build_map
                                    (ecg_start res) (outliers_indices_start res))
       /\ x_no_rdrop = fst (remove_intervals_and_build_map
                              x_no_outl (rdropouts_indices_nout res))
       /\ map_rdropouts res = snd (remove_intervals_and_build_map
                                     x_no_outl (rdropouts_indices_nout res))
       /\ ecg_final res = fst (remove_intervals_and_build_map
                                 x_no_rdrop (motions_indices_nrd res))
       /\ map_motions res = snd (remove_intervals_and_build_map
                                   x_no_rdrop (motions_indices_nrd res))
       /\ (outliers_indices_start res = []
           \/ exists d, outliers_indices_start res
                        = normalize_intervals d
                            (Some (Z.of_nat (length (ecg_start res)))))
       /\ (rdropouts_indices_nout res = []
           \/ exists d, rdropouts_indices_nout res
                        = normalize_intervals d
                            (Some (Z.of_nat (length x_no_outl))))
       /\ (motions_indices_nrd res = []
           \/ exists d, motions_indices_nrd res
                        = normalize_intervals d
                            (Some (Z.of_nat (length x_no_rdrop))))
       /\ projected_to_orig res =
          [("gaps"%string, gaps_indices res);
           ("outliers"%string,
            project_intervals_output_to_input (map_gaps res)
              (outliers_indices_start res));
           ("rdropouts"%string,
            project_intervals_output_to_input (map_gaps res)
              (project_intervals_output_to_input (map_outliers res)
                 (rdropouts_indices_nout res)));
           ("motions"%string,
            project_intervals_output_to_input (map_gaps res)
              (project_intervals_output_to_input (map_outliers res)
                 (project_intervals_output_to_input (map_rdropouts res)
                    (motions_indices_nrd res))))]
       /\ projected_to_start res =
          [("gaps"%string, []);
           ("outliers"%string, outliers_indices_start res);
           ("rdropouts"%string,
            project_intervals_output_to_input (map_outliers res)
              (rdropouts_indices_nout res));
           ("motions"%string,
            project_intervals_output_to_input (map_outliers res)
              (project_intervals_output_to_input (map_rdropouts res)
                 (motions_indices_nrd res)))].
Proof.
  unfold run. cbv zeta.
  destruct (motions_enabled (cfg_motions cfg)).
  - destruct (detect_motions _ _ _ _) as [detected|]; cbv beta iota;
      [read_stages|discriminate].
  - cbv beta iota. read_stages.
Qed.

(** X22.  Whatever the filter and the three tests do, every position that
    a [run] that returns reports for outliers, dropouts or motions in the
    coordinates of the original signal lies inside that signal and in none
    of the gaps it reports there; and the reported lists are in canonical
    form. *)
Theorem run_reports_outside_gaps (res : PipelineResult A) (category : string)
  (ivs : list Interval) :
  run filter_ecg z_exceeds low_variance high_deviation cfg x gaps = Some res ->
  In category ["outliers"; "rdropouts"; "motions"]%string ->
  dict_get (projected_to_orig res) category = Some ivs ->
  dict_get (projected_to_orig res) "gaps"%string = Some (gaps_indices res)
  /\ normalized ivs
  /\ forall i, covered ivs i ->
       0 <= i <= Z.of_nat (length (ecg_orig res)) - 1
       /\ ~ covered (gaps_indices res) i.
Proof.
  intros Hrun Hcat Hget.
  destruct (run_stages res Hrun)
    as (Horig & Hgaps & Hmap & _ & a & b & _ & _ & _ & _ & _
        & _ & _ & _ & _ & Hpo & _).
  rewrite Hpo in Hget |- *. rewrite Horig.
  split; [reflexivity|].
  assert (Hback : exists l, ivs = project_intervals_output_to_input
                                    (map_gaps res) l).
  { destruct Hcat as [<-|[<-|[<-|[]]]]; cbn in Hget; inversion Hget; eauto. }
  destruct Hback as (l & ->). split.
  - rewrite project_backward_flat. apply normalize_unbounded_normalized.
  - intros i Hc. apply backward_in_kept in Hc.
    + rewrite Hmap in Hc. apply remove_gaps_in_kept in Hc.
      destruct Hc as [Hr Hn]. split; auto.
      intros Hcov. apply Hn. now apply covered_spanned.
    + rewrite Hmap. apply remove_gaps_lengths_agree.
Qed.

(** X23.  Every position that a [run] that returns reports for dropouts or
    motions in the coordinates of the start signal lies inside that signal
    and in none of the outlier intervals, which are reported there as they
    were removed. *)
Theorem run_reports_outside_outliers (res : PipelineResult A)
  (category : string) (ivs : list Interval) :
  run filter_ecg z_exceeds low_variance high_deviation cfg x gaps = Some res ->
  In category ["rdropouts"; "motions"]%string ->
  dict_get (projected_to_start res) category = Some ivs ->
  dict_get (projected_to_start res) "outliers"%string
  = Some (outliers_indices_start res)
  /\ dict_get (projected_to_start res) "gaps"%string = Some []
  /\ normalized ivs
  /\ forall i, covered ivs i ->
       0 <= i <= Z.of_nat (length (ecg_start res)) - 1
       /\ ~ covered (outliers_indices_start res) i.
Proof.
  intros Hrun Hcat Hget.
  destruct (run_stages res Hrun)
    as (_ & _ & _ & _ & a & b & _ & Hmap & _ & _ & _
        & _ & _ & _ & _ & _ & Hps).
  rewrite Hps in Hget |- *.
  split; [reflexivity|]. split; [reflexivity|].
  assert (Hback : exists l, ivs = project_intervals_output_to_input
                                    (map_outliers res) l).
  { destruct Hcat as [<-|[<-|[]]]; cbn in Hget; inversion Hget; eauto. }
  destruct Hback as (l & ->). split.
  - rewrite project_backward_flat. apply normalize_unbounded_normalized.
  - intros i Hc. apply backward_in_kept in Hc.
    + rewrite Hmap in Hc. apply remove_intervals_in_kept in Hc.
      destruct Hc as [Hr Hn]. split; auto.
      intros Hcov. apply Hn. now apply covered_spanned.
    + rewrite Hmap. apply remove_intervals_lengths_agree.
Qed.

(** X24.  In the result of a [run] that returns, the final signal is
    shorter than the start signal by the samples of the intervals removed
    at the three stages, and the output length of the map of the last stage
    is its length; when the filter keeps the length, the start signal is
    shorter than the original by the samples of the normalized gaps. *)
Theorem run_lengths (res : PipelineResult A) :
  run filter_ecg z_exceeds low_variance high_deviation cfg x gaps = Some res ->
  Z.of_nat (length (ecg_final res))
  = Z.of_nat (length (ecg_start res))
    - total_len (outliers_indices_start res)
    - total_len (rdropouts_indices_nout res)
    - total_len (motions_indices_nrd res)
  /\ out_len (map_motions res) = Z.of_nat (length (ecg_final res))
  /\ ((forall y, length (filter_ecg y) = length y) ->
      Z.of_nat (length (ecg_start res))
      = Z.of_nat (length (ecg_orig res)) - total_len (gaps_indices res)).
Proof.
  intros Hrun.
  destruct (run_stages res Hrun)
    as (Horig & Hgaps & _ & Hstart & a & b & Ha & _ & Hb & _
        & Hfin & Hmm & Ho & Hr & Hm & _ & _).
  split; [|split].
  - rewrite Hfin, remove_intervals_stage_length by exact Hm.
    rewrite Hb, remove_intervals_stage_length by exact Hr.
    rewrite Ha, remove_intervals_stage_length by exact Ho.
    reflexivity.
  - rewrite Hmm, Hfin. symmetry. apply remove_intervals_out_len.
  - intros Hfilter. rewrite Hstart, Horig, Hgaps.
    pose proof (remove_gaps_on_normalized x gaps) as Hg. cbv zeta in Hg.
    destruct Hg as (_ & Hlen & Hout).
    destruct (filter_enabled cfg); rewrite ?Hfilter; lia.
Qed.

(** X26.  With the detection of motions switched off [run] always returns.
    With the configuration as it is, [run] raises exactly when motions are
    detected and the signal left after the removal of the dropouts, which
    is the final signal of the run without motions, has more than one
    sample and fewer than [max(2, win)]. *)
Theorem run_raises_iff :
  exists res',
    run filter_ecg z_exceeds low_variance high_deviation (without_motions cfg)
        x gaps = Some res'
    /\ (run filter_ecg z_exceeds low_variance high_deviation cfg x gaps = None
        <-> motions_enabled (cfg_motions cfg) = true
            /\ 1 < Z.of_nat (length (ecg_final res'))
                 < Z.max 2 (motions_win (cfg_motions cfg))).
Proof.
  eexists. split.
  - unfold run. cbv zeta.
    cbn [without_motions motions_enabled cfg_motions filter_enabled
         cfg_outliers cfg_rdropouts].
    reflexivity.
  - cbn [ecg_final]. rewrite remove_nothing.
    unfold run. cbv zeta.
    destruct (motions_enabled (cfg_motions cfg)).
    + destruct (detect_motions _ _ _ _) as [detected|] eqn:Hd; cbv beta iota.
      * split; [discriminate|]. intros [_ Hlen].
        apply (detect_motions_raises high_deviation _ _
                 (motions_merge_gap (cfg_motions cfg))) in Hlen.
        congruence.
      * split; [|reflexivity]. intros _. split; [reflexivity|].
        now apply detect_motions_raises in Hd.
    + cbv beta iota. split; [discriminate|]. intros [Hen _]. discriminate.
Qed.

End RunFacts.

Ltac with_example_run tac :=
  let r := eval vm_compute in example_run in
  lazymatch r with
  | Some ?res =>
      let Hrun := fresh "Hrun" in
      assert (Hrun : example_run = Some res) by (vm_compute; reflexivity);
      tac res Hrun
  end.

Lemma run_raises_iff_witness :
  run (fun y => y) above_100 is_zero is_zero
      {| filter_enabled := false;
         cfg_outliers := {| outliers_enabled := false; outliers_min_len := 2;
                            outliers_merge_gap := 0 |};
         cfg_rdropouts := {| rdropouts_enabled := false; rdropouts_win := 2;
                             rdropouts_merge_gap := 0 |};
         cfg_motions := {| motions_enabled := true; motions_win := 40;
                           motions_merge_gap := 0 |} |}
      [1; 2; 3] [] = None.
Proof.
  destruct (run_raises_iff (fun y => y) above_100 is_zero is_zero
              {| filter_enabled := false;
                 cfg_outliers := {| outliers_enabled := false;
                                    outliers_min_len := 2;
                                    outliers_merge_gap := 0 |};
                 cfg_rdropouts := {| rdropouts_enabled := false;
                                     rdropouts_win := 2;
                                     rdropouts_merge_gap := 0 |};
                 cfg_motions := {| motions_enabled := true; motions_win := 40;
                                   motions_merge_gap := 0 |} |}
              [1; 2; 3] []) as (res' & Hres & Hiff).
  apply Hiff. split; [reflexivity|].
  vm_compute in Hres. injection Hres as <-. vm_compute. split; reflexivity.
Defined.

Lemma run_reports_outside_gaps_witness :
  exists res, example_run = Some res
    /\ 0 <= 12 <= Z.of_nat (length (ecg_orig res)) - 1
    /\ ~ covered (gaps_indices res) 12.
Proof.
  with_example_run ltac:(fun res Hrun =>
    exists res; split; [exact Hrun|];
    assert (H1 : In "rdropouts"%string
                    ["outliers"; "rdropouts"; "motions"]%string)
      by (right; left; reflexivity);
    assert (H2 : dict_get (projected_to_orig res) "rdropouts"%string
                 = Some [(11, 14)]) by (vm_compute; reflexivity);
    assert (H3 : covered [(11, 14)] 12)
      by (exists (11, 14); split; [left; reflexivity|cbn [fst snd]; lia]);
    exact (proj2 (proj2 (run_reports_outside_gaps (fun y => y) above_100
             is_zero is_zero example_config example_signal [(0, 1)] res
             "rdropouts"%string [(11, 14)] Hrun H1 H2)) 12 H3)).
Defined.

Lemma run_reports_outside_outliers_witness :
  exists res, example_run = Some res
    /\ 0 <= 10 <= Z.of_nat (length (ecg_start res)) - 1
    /\ ~ covered (outliers_indices_start res) 10.
Proof.
  with_example_run ltac:(fun res Hrun =>
    exists res; split; [exact Hrun|];
    assert (H1 : In "rdropouts"%string ["rdropouts"; "motions"]%string)
      by (left; reflexivity);
    assert (H2 : dict_get (projected_to_start res) "rdropouts"%string
                 = Some [(9, 12)]) by (vm_compute; reflexivity);
    assert (H3 : covered [(9, 12)] 10)
      by (exists (9, 12); split; [left; reflexivity|cbn [fst snd]; lia]);
    exact (proj2 (proj2 (proj2 (run_reports_outside_outliers (fun y => y)
             above_100 is_zero is_zero example_config example_signal [(0, 1)]
             res "rdropouts"%string [(9, 12)] Hrun H1 H2))) 10 H3)).
Defined.

Lemma run_lengths_witness :
  exists res, example_run = Some res
    /\ Z.of_nat (length (ecg_start res))
       = Z.of_nat (length (ecg_orig res)) - total_len (gaps_indices res).
Proof.
  with_example_run ltac:(fun res Hrun =>
    exists res; split; [exact Hrun|];
    exact (proj2 (proj2 (run_lengths (fun y => y) above_100 is_zero is_zero
             example_config example_signal [(0, 1)] res Hrun))
           (fun y => eq_refl))).
Defined.

(** *** The composed map of the three stages *)

Lemma remove_intervals_inputs_inside {A : Type} (x : list A)
  (removed : list Interval) :
  x <> [] ->
  Forall (fun sp => 0 <= in_start sp /\ in_end sp <= Z.of_nat (length x) - 1)
         (kept (snd (remove_intervals_and_build_map x removed))).
Proof.
  intros Hx. rewrite remove_intervals_map. unfold from_kept_ranges. cbn [kept].
  assert (HL : 1 <= Z.of_nat (length x))
    by (destruct x; [congruence|cbn [length]; lia]).
  destruct (invert_to_kept_ascending
              (normalize_intervals removed (Some (Z.of_nat (length x))))
              _ HL) as [_ Hw].
  apply Forall_forall. intros sp Hin.
  apply from_kept_loop_in_input in Hin.
  rewrite Forall_forall in Hw. specialize (Hw _ Hin).
  unfold within in Hw. cbn [fst snd] in Hw. exact Hw.
Qed.

(** X25.  When a [run] returns a final signal that is not empty, the map
    [_compose_back_to_start] builds from the three stage maps satisfies the
    invariant and has the length of the final signal as output length. *)
Theorem compose_back_to_start_out_len {A : Type}
  (filter_ecg : list A -> list A) (z_exceeds : list A -> nat -> bool)
  (low_variance high_deviation : Z -> list A -> nat -> bool)
  (cfg : PipelineConfig) (x : list A) (gaps : list Interval)
  (res : PipelineResult A) :
  run filter_ecg z_exceeds low_variance high_deviation cfg x gaps = Some res ->
  ecg_final res <> [] ->
  kept_span_invariant (compose_back_to_start res)
  /\ out_len (compose_back_to_start res) = Z.of_nat (length (ecg_final res)).
Proof.
  intros Hrun Hfinal.
  destruct (run_stages filter_ecg z_exceeds low_variance high_deviation cfg x
              gaps res Hrun)
    as (_ & _ & _ & _ & a & b & Ha & Hm1 & Hb & Hm2 & Hfin & Hm3 & _).
  assert (Hbne : b <> []).
  { intros ->. apply Hfinal. rewrite Hfin.
    apply remove_intervals_empty_signal. }
  assert (Hane : a <> []).
  { intros ->. apply Hbne. rewrite Hb. apply remove_intervals_empty_signal. }
  assert (Hsne : ecg_start res <> []).
  { intros H0. apply Hane. rewrite Ha, H0.
    apply remove_intervals_empty_signal. }
  unfold compose_back_to_start. rewrite Hm1, Hm2, Hm3.
  pose proof (remove_intervals_chained _ (outliers_indices_start res) Hsne) as C1.
  pose proof (remove_intervals_chained a (rdropouts_indices_nout res) Hane) as C2.
  pose proof (remove_intervals_chained b (motions_indices_nrd res) Hbne) as C3.
  pose proof (remove_intervals_inputs_inside a (rdropouts_indices_nout res) Hane)
    as I2.
  pose proof (remove_intervals_inputs_inside b (motions_indices_nrd res) Hbne)
    as I3.
  set (m1 := snd (remove_intervals_and_build_map _ (outliers_indices_start _))) in *.
  set (m2 := snd (remove_intervals_and_build_map a _)) in *.
  set (m3 := snd (remove_intervals_and_build_map b _)) in *.
  assert (L1 : out_len m1 = Z.of_nat (length a)).
  { unfold m1. rewrite <- remove_intervals_out_len. now rewrite <- Ha. }
  assert (L2 : out_len m2 = Z.of_nat (length b)).
  { unfold m2. rewrite <- remove_intervals_out_len. now rewrite <- Hb. }
  assert (L3 : out_len m3 = Z.of_nat (length (ecg_final res))).
  { unfold m3. rewrite <- remove_intervals_out_len. now rewrite <- Hfin. }
  assert (C12 : chained 0 (kept (compose m1 m2))).
  { apply compose_chained; auto.
    eapply Forall_impl; [ | exact I2]. cbv beta. tauto. }
  assert (L12 : out_len (compose m1 m2) = Z.of_nat (length b)).
  { rewrite compose_out_len_chained; auto. now rewrite L1. }
  split.
  - apply invariant_chain. apply compose_chained; auto.
    eapply Forall_impl; [ | exact I3]. cbv beta. tauto.
  - rewrite compose_out_len_chained; auto. now rewrite L12.
Qed.

Lemma compose_back_to_start_out_len_witness :
  exists res, example_run = Some res
    /\ out_len (compose_back_to_start res) = Z.of_nat (length (ecg_final res)).
Proof.
  with_example_run ltac:(fun res Hrun =>
    exists res; split; [exact Hrun|];
    assert (H : ecg_final res <> []) by (vm_compute; discriminate);
    exact (proj2 (compose_back_to_start_out_len (fun y => y) above_100 is_zero
             is_zero example_config example_signal [(0, 1)] res Hrun H))).
Defined.
